(** * Client-side channel runtime: a shallow embedding and its properties

    The development embeds the connectivity state machine of [Subchannel]
    (subchannel.js), the DNS resolver (resolver-dns.js), the call stream
    (call-stream.js), the resolving load balancer
    (resolving-load-balancer.js) and the channel (channel.js), and states the
    properties of the specification over these embeddings. *)

From Stdlib Require Import ZArith List String Ascii Bool Arith Lia.
Import ListNotations.

Set Implicit Arguments.

Local Open Scope string_scope.
Local Open Scope list_scope.
Local Open Scope Z_scope.

(* ===================================================================== *)
(** * Shared enumerations *)
(* ===================================================================== *)

(** [channel.js]: the [ConnectivityState] enum, in declaration order. *)
Inductive ConnectivityState : Type :=
| CONNECTING
| READY
| TRANSIENT_FAILURE
| IDLE
| SHUTDOWN.

Definition ConnectivityState_eqb (a b : ConnectivityState) : bool :=
  match a, b with
  | CONNECTING, CONNECTING
  | READY, READY
  | TRANSIENT_FAILURE, TRANSIENT_FAILURE
  | IDLE, IDLE
  | SHUTDOWN, SHUTDOWN => true
  | _, _ => false
  end.

(** [constants.js] is not part of the sources at hand; [Status] is the
    standard status-code enumeration the other files refer to by name. *)
Inductive Status : Type :=
| OK
| CANCELLED
| UNKNOWN
| INVALID_ARGUMENT
| DEADLINE_EXCEEDED
| NOT_FOUND
| ALREADY_EXISTS
| PERMISSION_DENIED
| RESOURCE_EXHAUSTED
| FAILED_PRECONDITION
| ABORTED
| OUT_OF_RANGE
| UNIMPLEMENTED
| INTERNAL
| UNAVAILABLE
| DATA_LOSS
| UNAUTHENTICATED.

(** A [StatusObject] is [{code, details, metadata}].  Metadata is opaque to
    everything modelled here; it is carried as a list of header pairs. *)
Definition Metadata : Type := list (string * string).

Record StatusObject : Type := mkStatus {
  code : Status;
  details : string;
  metadata : Metadata
}.

(* ===================================================================== *)
(** * A state monad with a trace and exceptions

    Methods of a JS object mutate [this], call out to collaborators and may
    throw.  A computation takes the object, and yields either a value or an
    exception, the object as the method left it (a throw does not roll the
    fields back), and the calls it made to the outside, in order. *)
(* ===================================================================== *)

Module Eff.

Inductive result (A : Type) : Type :=
| Ok (a : A)
| Throw (msg : string).
Arguments Throw {A} msg.

Section Monad.
Variables St Ev : Type.

Definition M (A : Type) : Type := St -> result A * St * list Ev.

Definition ret {A} (a : A) : M A := fun s => (Ok a, s, []).

Definition bind {A B} (m : M A) (f : A -> M B) : M B :=
  fun s =>
    match m s with
    | (Ok a, s1, e1) =>
        match f a s1 with
        | (r, s2, e2) => (r, s2, e1 ++ e2)
        end
    | (Throw msg, s1, e1) => (Throw msg, s1, e1)
    end.

Definition get : M St := fun s => (Ok s, s, []).
Definition gets {A} (f : St -> A) : M A := fun s => (Ok (f s), s, []).
Definition modify (f : St -> St) : M unit := fun s => (Ok tt, f s, []).
Definition emit (e : Ev) : M unit := fun s => (Ok tt, s, [e]).
Definition throw {A} (msg : string) : M A := fun s => (Throw msg, s, []).

(** [try { m } catch { h }]. *)
Definition catch {A} (m : M A) (h : string -> M A) : M A :=
  fun s =>
    match m s with
    | (Ok a, s1, e1) => (Ok a, s1, e1)
    | (Throw msg, s1, e1) =>
        match h msg s1 with
        | (r, s2, e2) => (r, s2, e1 ++ e2)
        end
    end.

(** [for (const x of xs) body(x)]. *)
Fixpoint for_each {A} (xs : list A) (body : A -> M unit) : M unit :=
  match xs with
  | [] => ret tt
  | x :: xs' => bind (body x) (fun _ => for_each xs' body)
  end.

Definition when (b : bool) (m : M unit) : M unit :=
  if b then m else ret tt.

Definition state_of {A} (r : result A * St * list Ev) : St := snd (fst r).
Definition value_of {A} (r : result A * St * list Ev) : result A := fst (fst r).
Definition events_of {A} (r : result A * St * list Ev) : list Ev := snd r.
End Monad.

Arguments ret {St Ev A} a.
Arguments bind {St Ev A B} m f.
Arguments get {St Ev}.
Arguments gets {St Ev A} f.
Arguments modify {St Ev} f.
Arguments emit {St Ev} e.
Arguments throw {St Ev A} msg.
Arguments catch {St Ev A} m h.
Arguments for_each {St Ev A} xs body.
Arguments when {St Ev} b m.

Module Notations.
Declare Scope eff_scope.
Delimit Scope eff_scope with eff.
Notation "x <- m ;; k" := (bind m (fun x => k))
  (at level 61, m at next level, right associativity) : eff_scope.
Notation "m ;; k" := (bind m (fun _ => k))
  (at level 61, right associativity) : eff_scope.
End Notations.

End Eff.

(* ===================================================================== *)
(** * Subchannel (subchannel.js) *)
(* ===================================================================== *)

Module Subchannel.
Import Eff Eff.Notations.
Local Open Scope eff_scope.

Definition MIN_CONNECT_TIMEOUT_MS : Z := 20000.
Definition INITIAL_BACKOFF_MS : Z := 1000.
Definition MAX_BACKOFF_MS : Z := 120000.

(** [~(1 << 31)] on 32-bit signed integers: [1 << 31] wraps to [-2^31], and
    the bitwise complement of that is [2^31 - 1]. *)
Definition int32 (z : Z) : Z := (z + 2 ^ 31) mod 2 ^ 32 - 2 ^ 31.
Definition KEEPALIVE_MAX_TIME_MS : Z := Z.lnot (int32 (Z.shiftl 1 31)).
Definition KEEPALIVE_TIMEOUT_MS : Z := 20000.

(** [http2.constants.NGHTTP2_ENHANCE_YOUR_CALM]. *)
Definition NGHTTP2_ENHANCE_YOUR_CALM : Z := 11.
Definition tooManyPingsData : string := "too_many_pings".

(** Sessions and listeners are objects compared by identity; an identity is
    a number.  [session = None] is [this.session === null]. *)
Definition SessionId : Type := nat.
Definition ListenerId : Type := nat.

Record t : Type := mk {
  connectivityState : ConnectivityState;
  session : option SessionId;
  continueConnecting : bool;
  stateListeners : list ListenerId;
  disconnectListeners : list ListenerId;
  keepaliveTimeMs : Z;
  keepaliveTimeoutMs : Z;
  callRefcount : Z;
  refcount : Z;
  (** the identity [http2.connect] hands out next *)
  nextSession : SessionId
}.

(** What a method does to the outside: the [trace] line of a transition,
    listener invocations, and calls on the session, the backoff timer and
    the keepalive timers. *)
Inductive Event : Type :=
| Trace (previousState newState : ConnectivityState)
| Notify (listener : ListenerId) (previousState newState : ConnectivityState)
| NotifyDisconnect (listener : ListenerId)
| HttpConnect (s : SessionId)
| SocketOnceClose (s : SessionId)
| SessionClose (s : SessionId)
| SessionRef (s : SessionId)
| SessionUnref (s : SessionId)
| SessionPing (s : SessionId)
| BackoffRunOnce
| BackoffStop
| BackoffReset
| SetKeepaliveInterval (ms : Z)
| SetKeepaliveTimeout (ms : Z)
| ClearKeepaliveInterval
| ClearKeepaliveTimeout
| LogExcessPings.

Definition Sub : Type -> Type := M t Event.

Definition set_connectivityState v (s : t) : t :=
  mk v (session s) (continueConnecting s) (stateListeners s)
     (disconnectListeners s) (keepaliveTimeMs s) (keepaliveTimeoutMs s)
     (callRefcount s) (refcount s) (nextSession s).
Definition set_session v (s : t) : t :=
  mk (connectivityState s) v (continueConnecting s) (stateListeners s)
     (disconnectListeners s) (keepaliveTimeMs s) (keepaliveTimeoutMs s)
     (callRefcount s) (refcount s) (nextSession s).
Definition set_continueConnecting v (s : t) : t :=
  mk (connectivityState s) (session s) v (stateListeners s)
     (disconnectListeners s) (keepaliveTimeMs s) (keepaliveTimeoutMs s)
     (callRefcount s) (refcount s) (nextSession s).
Definition set_stateListeners v (s : t) : t :=
  mk (connectivityState s) (session s) (continueConnecting s) v
     (disconnectListeners s) (keepaliveTimeMs s) (keepaliveTimeoutMs s)
     (callRefcount s) (refcount s) (nextSession s).
Definition set_disconnectListeners v (s : t) : t :=
  mk (connectivityState s) (session s) (continueConnecting s)
     (stateListeners s) v (keepaliveTimeMs s) (keepaliveTimeoutMs s)
     (callRefcount s) (refcount s) (nextSession s).
Definition set_keepaliveTimeMs v (s : t) : t :=
  mk (connectivityState s) (session s) (continueConnecting s)
     (stateListeners s) (disconnectListeners s) v (keepaliveTimeoutMs s)
     (callRefcount s) (refcount s) (nextSession s).
Definition set_callRefcount v (s : t) : t :=
  mk (connectivityState s) (session s) (continueConnecting s)
     (stateListeners s) (disconnectListeners s) (keepaliveTimeMs s)
     (keepaliveTimeoutMs s) v (refcount s) (nextSession s).
Definition set_refcount v (s : t) : t :=
  mk (connectivityState s) (session s) (continueConnecting s)
     (stateListeners s) (disconnectListeners s) (keepaliveTimeMs s)
     (keepaliveTimeoutMs s) (callRefcount s) v (nextSession s).
Definition set_nextSession v (s : t) : t :=
  mk (connectivityState s) (session s) (continueConnecting s)
     (stateListeners s) (disconnectListeners s) (keepaliveTimeMs s)
     (keepaliveTimeoutMs s) (callRefcount s) (refcount s) v.

(** The constructor.  The two options are ['grpc.keepalive_time_ms'] and
    ['grpc.keepalive_timeout_ms'], [None] when the key is absent. *)
Definition create (keepalive_time_ms keepalive_timeout_ms : option Z) : t :=
  mk IDLE None false [] []
     (match keepalive_time_ms with Some v => v | None => KEEPALIVE_MAX_TIME_MS end)
     (match keepalive_timeout_ms with Some v => v | None => KEEPALIVE_TIMEOUT_MS end)
     0 0 O.

Definition startBackoff : Sub unit := emit BackoffRunOnce.

Definition stopBackoff : Sub unit := emit BackoffStop ;; emit BackoffReset.

Definition sendPing : Sub unit :=
  ms <- gets keepaliveTimeoutMs ;;
  emit (SetKeepaliveTimeout ms) ;;
  ses <- gets session ;;
  match ses with
  | Some sid => emit (SessionPing sid)
  | None => throw "TypeError: Cannot read property 'ping' of null"
  end.

Definition startKeepalivePings : Sub unit :=
  ms <- gets keepaliveTimeMs ;;
  emit (SetKeepaliveInterval ms) ;;
  sendPing.

Definition stopKeepalivePings : Sub unit :=
  emit ClearKeepaliveInterval ;; emit ClearKeepaliveTimeout.

(** [startConnectingInternal]: the scheme and the TLS options only shape the
    call to [http2.connect]; what the object keeps is the new session. *)
Definition startConnectingInternal : Sub unit :=
  sid <- gets nextSession ;;
  modify (set_nextSession (S sid)) ;;
  emit (HttpConnect sid) ;;
  modify (set_session (Some sid)) ;;
  emit (SessionUnref sid).

(** [if (this.session) this.session.close()]. *)
Definition closeSession : Sub unit :=
  ses <- gets session ;;
  match ses with
  | Some sid => emit (SessionClose sid)
  | None => ret tt
  end.

(** [oldStates.indexOf(this.connectivityState) === -1] is the negation of
    this membership test. *)
Definition indexOf_found (oldStates : list ConnectivityState)
    (c : ConnectivityState) : bool :=
  existsb (ConnectivityState_eqb c) oldStates.

Definition transitionToState (oldStates : list ConnectivityState)
    (newState : ConnectivityState) : Sub bool :=
  cur <- gets connectivityState ;;
  if negb (indexOf_found oldStates cur) then ret false
  else
    emit (Trace cur newState) ;;
    let previousState := cur in
    modify (set_connectivityState newState) ;;
    match newState with
    | READY =>
        stopBackoff ;;
        ses <- gets session ;;
        match ses with
        | Some sid => emit (SocketOnceClose sid)
        | None => throw "TypeError: Cannot read property 'socket' of null"
        end
    | CONNECTING =>
        startBackoff ;;
        startConnectingInternal ;;
        modify (set_continueConnecting false)
    | TRANSIENT_FAILURE =>
        closeSession ;;
        modify (set_session None) ;;
        stopKeepalivePings
    | IDLE =>
        stopBackoff ;;
        closeSession ;;
        modify (set_session None) ;;
        stopKeepalivePings
    | SHUTDOWN => throw "Invalid state: unknown ConnectivityState"
    end ;;
    ls <- gets stateListeners ;;
    for_each ls (fun l => emit (Notify l previousState newState)) ;;
    ret true.

(** The callback handed to [BackoffTimeout] in the constructor. *)
Definition backoffCallback : Sub unit :=
  cc <- gets continueConnecting ;;
  if cc then
    _ <- transitionToState [TRANSIENT_FAILURE; CONNECTING] CONNECTING ;; ret tt
  else
    _ <- transitionToState [TRANSIENT_FAILURE; CONNECTING] IDLE ;; ret tt.

(** The timer armed by [sendPing]. *)
Definition keepaliveTimeoutCallback : Sub unit :=
  _ <- transitionToState [READY] IDLE ;; ret tt.

(** The ping acknowledgement. *)
Definition pingCallback : Sub unit := emit ClearKeepaliveTimeout.

(** The interval armed by [startKeepalivePings]. *)
Definition keepaliveIntervalCallback : Sub unit := sendPing.

Definition sameSession (cur : option SessionId) (sid : SessionId) : bool :=
  match cur with
  | Some c => Nat.eqb c sid
  | None => false
  end.

(** The four [session.once] handlers of [startConnectingInternal]; [sid] is
    the session the handler closed over. *)
Definition onConnect (sid : SessionId) : Sub unit :=
  cur <- gets session ;;
  if sameSession cur sid then
    _ <- transitionToState [CONNECTING] READY ;; ret tt
  else ret tt.

Definition onClose (sid : SessionId) : Sub unit :=
  cur <- gets session ;;
  if sameSession cur sid then
    _ <- transitionToState [CONNECTING] TRANSIENT_FAILURE ;;
    _ <- transitionToState [READY] IDLE ;;
    ret tt
  else ret tt.

(** [opaqueData] is [None] when the GOAWAY frame carries no opaque data:
    the handler then receives [undefined].  [&&] reads [opaqueData.equals]
    only when the error code is ENHANCE_YOUR_CALM, and that read throws on
    [undefined], before anything has changed. *)
Definition onGoaway (sid : SessionId) (errorCode : Z)
    (opaqueData : option string) : Sub unit :=
  cur <- gets session ;;
  if sameSession cur sid then
    excessPings <-
      (if errorCode =? NGHTTP2_ENHANCE_YOUR_CALM then
         match opaqueData with
         | Some d => ret (String.eqb d tooManyPingsData)
         | None => throw "TypeError: Cannot read property 'equals' of undefined"
         end
       else ret false) ;;
    (if excessPings then
       emit LogExcessPings ;;
       k <- gets keepaliveTimeMs ;;
       modify (set_keepaliveTimeMs (Z.min (2 * k) KEEPALIVE_MAX_TIME_MS))
     else ret tt) ;;
    _ <- transitionToState [CONNECTING; READY] IDLE ;;
    ret tt
  else ret tt.

Definition onError (sid : SessionId) : Sub unit := ret tt.

(** The [socket.once('close')] handler armed on entering READY is
    [for (const listener of this.disconnectListeners) listener()]: the loop
    walks the live array, so turn [i] reads the array as it is at that
    moment and calls the listener at index [i], and the loop ends at the
    first index past the end.  A listener is code of the caller (a call
    stream ends its call, which unrefs the subchannel and removes the
    listener): what it does to the subchannel are operations of their own
    between two turns.  [onSocketClose i] is turn [i]. *)
Definition onSocketClose (i : nat) : Sub unit :=
  ls <- gets disconnectListeners ;;
  match nth_error ls i with
  | Some l => emit (NotifyDisconnect l)
  | None => ret tt
  end.

Definition checkBothRefcounts : Sub unit :=
  c <- gets callRefcount ;;
  r <- gets refcount ;;
  if (c =? 0) && (r =? 0) then
    _ <- transitionToState [CONNECTING; IDLE; READY] TRANSIENT_FAILURE ;; ret tt
  else ret tt.

Definition refSession : Sub unit :=
  ses <- gets session ;;
  match ses with Some sid => emit (SessionRef sid) | None => ret tt end.

Definition unrefSession : Sub unit :=
  ses <- gets session ;;
  match ses with Some sid => emit (SessionUnref sid) | None => ret tt end.

Definition callRef : Sub unit :=
  c <- gets callRefcount ;;
  when (c =? 0) (refSession ;; startKeepalivePings) ;;
  c <- gets callRefcount ;;
  modify (set_callRefcount (c + 1)).

Definition callUnref : Sub unit :=
  c <- gets callRefcount ;;
  modify (set_callRefcount (c - 1)) ;;
  c <- gets callRefcount ;;
  when (c =? 0) (unrefSession ;; stopKeepalivePings ;; checkBothRefcounts).

Definition ref : Sub unit :=
  r <- gets refcount ;;
  modify (set_refcount (r + 1)).

Definition unref : Sub unit :=
  r <- gets refcount ;;
  modify (set_refcount (r - 1)) ;;
  checkBothRefcounts.

Definition unrefIfOneRef : Sub bool :=
  r <- gets refcount ;;
  if r =? 1 then unref ;; ret true else ret false.

Definition startConnecting : Sub unit :=
  changed <- transitionToState [IDLE] CONNECTING ;;
  if negb changed then
    cur <- gets connectivityState ;;
    when (ConnectivityState_eqb cur TRANSIENT_FAILURE)
         (modify (set_continueConnecting true))
  else ret tt.

Definition getConnectivityState : Sub ConnectivityState :=
  gets connectivityState.

Definition addConnectivityStateListener (l : ListenerId) : Sub unit :=
  ls <- gets stateListeners ;;
  modify (set_stateListeners (ls ++ [l])).

(** [indexOf] then [splice(index, 1)]: the first occurrence goes. *)
Fixpoint remove_first (l : ListenerId) (ls : list ListenerId) : list ListenerId :=
  match ls with
  | [] => []
  | x :: ls' => if Nat.eqb x l then ls' else x :: remove_first l ls'
  end.

Definition removeConnectivityStateListener (l : ListenerId) : Sub unit :=
  ls <- gets stateListeners ;;
  modify (set_stateListeners (remove_first l ls)).

Definition addDisconnectListener (l : ListenerId) : Sub unit :=
  ls <- gets disconnectListeners ;;
  modify (set_disconnectListeners (ls ++ [l])).

Definition removeDisconnectListener (l : ListenerId) : Sub unit :=
  ls <- gets disconnectListeners ;;
  modify (set_disconnectListeners (remove_first l ls)).

Definition resetBackoff : Sub unit :=
  emit BackoffReset ;;
  _ <- transitionToState [TRANSIENT_FAILURE] CONNECTING ;; ret tt.

(** Everything that can happen to a subchannel: a method call from a load
    balancer, a pool or a call stream, or a callback of a session, a socket
    or a timer. *)
Inductive Op : Type :=
| OpStartConnecting
| OpResetBackoff
| OpBackoffCallback
| OpConnect (sid : SessionId)
| OpClose (sid : SessionId)
| OpGoaway (sid : SessionId) (errorCode : Z) (opaqueData : option string)
| OpError (sid : SessionId)
| OpSocketClose (turn : nat)
| OpKeepaliveTimeout
| OpKeepaliveInterval
| OpPingAck
| OpCallRef
| OpCallUnref
| OpRef
| OpUnref
| OpUnrefIfOneRef
| OpAddStateListener (l : ListenerId)
| OpRemoveStateListener (l : ListenerId)
| OpAddDisconnectListener (l : ListenerId)
| OpRemoveDisconnectListener (l : ListenerId).

Definition perform (op : Op) : Sub unit :=
  match op with
  | OpStartConnecting => startConnecting
  | OpResetBackoff => resetBackoff
  | OpBackoffCallback => backoffCallback
  | OpConnect sid => onConnect sid
  | OpClose sid => onClose sid
  | OpGoaway sid c d => onGoaway sid c d
  | OpError sid => onError sid
  | OpSocketClose i => onSocketClose i
  | OpKeepaliveTimeout => keepaliveTimeoutCallback
  | OpKeepaliveInterval => keepaliveIntervalCallback
  | OpPingAck => pingCallback
  | OpCallRef => callRef
  | OpCallUnref => callUnref
  | OpRef => ref
  | OpUnref => unref
  | OpUnrefIfOneRef => _ <- unrefIfOneRef ;; ret tt
  | OpAddStateListener l => addConnectivityStateListener l
  | OpRemoveStateListener l => removeConnectivityStateListener l
  | OpAddDisconnectListener l => addDisconnectListener l
  | OpRemoveDisconnectListener l => removeDisconnectListener l
  end.

(** One operation: the object afterwards (a throw leaves it as it was at the
    point of the throw) and what the operation did. *)
Definition step (op : Op) (s : t) : t * list Event :=
  let r := perform op s in (state_of r, events_of r).

(** A history of operations from a given object: the object at the end and,
    per operation, the events it produced. *)
Fixpoint run (ops : list Op) (s : t) : t * list (Op * list Event) :=
  match ops with
  | [] => (s, [])
  | op :: ops' =>
      let '(s1, ev) := step op s in
      let '(s2, rest) := run ops' s1 in
      (s2, (op, ev) :: rest)
  end.

(** The socket's ['close'] handler as a whole: the turns of its loop from
    index [i] on, each followed by what the listener just called does to the
    subchannel, [reaction l], before the next turn reads the array again.
    A listener that registers listeners can prolong the loop without end;
    [fuel] bounds the number of turns. *)
Fixpoint socketCloseLoop (reaction : ListenerId -> list Op) (fuel i : nat)
    (s : t) : list Op :=
  match fuel with
  | O => []
  | S fuel' =>
      match nth_error (disconnectListeners s) i with
      | None => []
      | Some l =>
          let turn := OpSocketClose i :: reaction l in
          turn ++ socketCloseLoop reaction fuel' (S i) (fst (run turn s))
      end
  end.

(** What the disconnect listener of a call stream does to the subchannel:
    [endCall] unrefs it and removes the listener. *)
Definition callStreamReaction (l : ListenerId) : list Op :=
  [OpCallUnref; OpRemoveDisconnectListener l].

(** The transitions an event list records, as [(src, dst)] pairs. *)
Fixpoint transitions (evs : list Event)
    : list (ConnectivityState * ConnectivityState) :=
  match evs with
  | [] => []
  | Trace a b :: evs' => (a, b) :: transitions evs'
  | _ :: evs' => transitions evs'
  end.

(** ** The transition table of the specification *)



(** The table the code implements, by operation.  It differs from section
    4.3 in the pair CONNECTING -> IDLE, taken on [goaway] and when the
    backoff timer ends during a connection attempt; [goaway] never leads to
    TRANSIENT_FAILURE. *)
Definition code_permits (op : Op) (src dst : ConnectivityState) : bool :=
  match op, src, dst with
  | OpStartConnecting, IDLE, CONNECTING => true
  | OpConnect _, CONNECTING, READY => true
  | OpClose _, CONNECTING, TRANSIENT_FAILURE => true
  | OpClose _, READY, IDLE => true
  | OpGoaway _ _ _, READY, IDLE => true
  | OpGoaway _ _ _, CONNECTING, IDLE => true
  | OpBackoffCallback, TRANSIENT_FAILURE, IDLE => true
  | OpBackoffCallback, TRANSIENT_FAILURE, CONNECTING => true
  | OpBackoffCallback, CONNECTING, IDLE => true
  | OpResetBackoff, TRANSIENT_FAILURE, CONNECTING => true
  | OpKeepaliveTimeout, READY, IDLE => true
  | (OpCallUnref | OpUnref | OpUnrefIfOneRef), (CONNECTING | IDLE | READY),
    TRANSIENT_FAILURE => true
  | _, _, _ => false
  end.


(** ** Vocabulary of the statements *)



(** ** Histories, sessions, listeners and references *)

(** The object at the end of a history. *)
Definition after (ops : list Op) (s : t) : t := fst (run ops s).

(** What the comment on [connectivityState] in the constructor states:
    [session] is null exactly in IDLE and in TRANSIENT_FAILURE.  SHUTDOWN
    is no state of a subchannel. *)
Definition session_matches_state (s : t) : Prop :=
  match connectivityState s with
  | CONNECTING | READY => session s <> None
  | IDLE | TRANSIENT_FAILURE => session s = None
  | SHUTDOWN => False
  end.


(** [k0 <= keepaliveTimeMs <= KEEPALIVE_MAX_TIME_MS] *)
Definition keepalive_within (k0 : Z) (s : t) : Prop :=
  k0 <= keepaliveTimeMs s <= KEEPALIVE_MAX_TIME_MS.

(** The calls of state listeners an event list records. *)
Fixpoint notifications (evs : list Event)
    : list (ListenerId * (ConnectivityState * ConnectivityState)) :=
  match evs with
  | [] => []
  | Notify l a b :: evs' => (l, (a, b)) :: notifications evs'
  | _ :: evs' => notifications evs'
  end.

(** Every listener of [ls], in order, for every transition, in order. *)
Definition all_notified (ls : list ListenerId)
    (trs : list (ConnectivityState * ConnectivityState))
    : list (ListenerId * (ConnectivityState * ConnectivityState)) :=
  flat_map (fun tr => map (fun l => (l, tr)) ls) trs.

(** The sessions [http2.connect] was called for. *)
Fixpoint connects (evs : list Event) : list SessionId :=
  match evs with
  | [] => []
  | HttpConnect sid :: evs' => sid :: connects evs'
  | _ :: evs' => connects evs'
  end.

(** A subchannel whose connection attempt failed: the session closed
    before it connected. *)
Definition failed_subchannel : t :=
  after [OpStartConnecting; OpClose O] (create None None).


(** A READY subchannel held by one channel and one call. *)
Definition subchannel_in_use : t :=
  after [OpStartConnecting; OpConnect O; OpRef; OpCallRef] (create None None).

End Subchannel.

(* ===================================================================== *)
(** * Regular expressions

    The resolver recognises targets with four regular-expression literals.
    They are embedded as syntax trees, and [exec] follows the backtracking
    matcher of the language definition: a pattern is matched against a
    position with a continuation for the rest of the pattern, alternatives
    and greedy repetitions are tried in order, and the first overall success
    decides the capture groups. *)
(* ===================================================================== *)

Module Regex.

Inductive re : Type :=
| Class (ranges : list (ascii * ascii))   (** [[a-z0-9]]; a literal is a one-point range *)
| Eps
| Seq (a b : re)
| Alt (a b : re)
| Rep (min : nat) (max : option nat) (r : re)   (** greedy [{min,max}]; [None] is no bound *)
| Group (n : nat) (r : re)                      (** capture group number [n] *)
| Bol                                           (** [^] *)
| Eol.                                          (** [$] *)

Definition lit (c : ascii) : re := Class [(c, c)].
Definition digit : re := Class [("0"%char, "9"%char)].
Definition opt (r : re) : re := Rep 0 (Some 1%nat) r.
Definition plus (r : re) : re := Rep 1 None r.

Fixpoint seq (rs : list re) : re :=
  match rs with
  | [] => Eps
  | [r] => r
  | r :: rs' => Seq r (seq rs')
  end.

(** A literal string. *)
Definition str (s : string) : re := seq (map lit (list_ascii_of_string s)).

(** ** Character classes *)

Definition in_range (c : ascii) (r : ascii * ascii) : bool :=
  (N.leb (N_of_ascii (fst r)) (N_of_ascii c)
   && N.leb (N_of_ascii c) (N_of_ascii (snd r)))%bool.

Definition upper (c : ascii) : ascii :=
  let n := N_of_ascii c in
  if (N.leb 97 n && N.leb n 122)%bool then ascii_of_N (n - 32) else c.

Definition lower (c : ascii) : ascii :=
  let n := N_of_ascii c in
  if (N.leb 65 n && N.leb n 90)%bool then ascii_of_N (n + 32) else c.

(** With the [i] flag a character matches a class when some member of the
    class has the same canonical (upper-case) form; the members with the
    canonical form of [c] are [upper c] and [lower c]. *)
Definition class_matches (ignoreCase : bool) (ranges : list (ascii * ascii))
    (c : ascii) : bool :=
  if ignoreCase
  then (existsb (in_range (upper c)) ranges || existsb (in_range (lower c)) ranges
        || existsb (in_range c) ranges)%bool
  else existsb (in_range c) ranges.

(** ** Captures *)

Definition captures : Type := list (nat * string).

Fixpoint capture (n : nat) (caps : captures) : option string :=
  match caps with
  | [] => None
  | (m, s) :: caps' => if Nat.eqb m n then Some s else capture n caps'
  end.

Definition set_capture (n : nat) (s : string) (caps : captures) : captures :=
  (n, s) :: caps.

Fixpoint groups_of (r : re) : list nat :=
  match r with
  | Class _ | Eps | Bol | Eol => []
  | Seq a b | Alt a b => groups_of a ++ groups_of b
  | Rep _ _ r' => groups_of r'
  | Group n r' => n :: groups_of r'
  end.

(** The groups inside a repetition are undefined again when an iteration
    starts. *)
Definition clear_captures (gs : list nat) (caps : captures) : captures :=
  filter (fun p => negb (existsb (Nat.eqb (fst p)) gs)) caps.

(** ** The matcher *)

Section Matcher.
Variable R : Type.
Variable ignoreCase : bool.

(** A continuation receives the end position, the rest of the input and
    the captures so far. *)
Definition cont : Type := nat -> list ascii -> captures -> option R.

Definition orelse (a : option R) (b : unit -> option R) : option R :=
  match a with
  | Some x => Some x
  | None => b tt
  end.

(** The characters between two positions of the same input. *)
Definition consumed (s : list ascii) (pos pos' : nat) : string :=
  string_of_list_ascii (firstn (pos' - pos) s).

Definition dec (max : option nat) : option nat := option_map Nat.pred max.

Definition is_zero (max : option nat) : bool :=
  match max with
  | Some O => true
  | _ => false
  end.

(** The repeat matcher for a body matcher [mb] whose groups are [gs].
    Every round either uses up one of the [min] compulsory iterations or
    moves forward in the input, so [S (min + length s)] rounds are
    enough; [fuel] counts them. *)
Fixpoint repeat (mb : nat -> list ascii -> captures -> cont -> option R)
    (gs : list nat) (k : cont) (fuel min : nat) (max : option nat)
    (pos : nat) (s : list ascii) (caps : captures) {struct fuel} : option R :=
  match fuel with
  | O => None
  | S fuel' =>
      if is_zero max then k pos s caps
      else
        let d : cont := fun pos1 s1 caps1 =>
          if (Nat.eqb min 0 && Nat.eqb pos1 pos)%bool then None
          else repeat mb gs k fuel' (Nat.pred min) (dec max) pos1 s1 caps1 in
        let xr := clear_captures gs caps in
        if Nat.eqb min 0
        then orelse (mb pos s xr d) (fun _ => k pos s caps)
        else mb pos s xr d
  end.

Fixpoint m (r : re) (pos : nat) (s : list ascii) (caps : captures)
    (k : cont) {struct r} : option R :=
  match r with
  | Class ranges =>
      match s with
      | c :: s' =>
          if class_matches ignoreCase ranges c then k (S pos) s' caps else None
      | [] => None
      end
  | Eps => k pos s caps
  | Seq a b => m a pos s caps (fun pos1 s1 caps1 => m b pos1 s1 caps1 k)
  | Alt a b => orelse (m a pos s caps k) (fun _ => m b pos s caps k)
  | Group n r' =>
      m r' pos s caps
        (fun pos1 s1 caps1 => k pos1 s1 (set_capture n (consumed s pos pos1) caps1))
  | Bol => if Nat.eqb pos 0 then k pos s caps else None
  | Eol => match s with [] => k pos s caps | _ :: _ => None end
  | Rep min max r' =>
      repeat (m r') (groups_of r') k (S (min + List.length s)) min max pos s caps
  end.
End Matcher.

(** A regular expression literal: pattern, [i] flag, number of groups. *)
Record regexp : Type := mkRegexp {
  pattern : re;
  flag_i : bool;
  ngroups : nat
}.

(** The match array: element 0 is the whole match, element [n] the capture
    of group [n], [None] for [undefined]. *)
Definition match_array : Type := list (option string).

Definition build_array (rx : regexp) (s : list ascii) (start stop : nat)
    (caps : captures) : match_array :=
  Some (string_of_list_ascii (firstn (stop - start) s))
  :: map (fun n => capture n caps) (List.seq 1 (ngroups rx)).

(** [exec] without the [g] flag tries every start index from 0 on. *)
Fixpoint exec_from (rx : regexp) (start : nat) (s : list ascii)
    : option match_array :=
  match m (flag_i rx) (pattern rx) start s []
          (fun stop _ caps => Some (build_array rx s start stop caps)) with
  | Some a => Some a
  | None =>
      match s with
      | [] => None
      | _ :: s' => exec_from rx (S start) s'
      end
  end.

Definition exec (rx : regexp) (input : string) : option match_array :=
  exec_from rx 0 (list_ascii_of_string input).

(** [match[n]], [None] when undefined. *)
Definition group (a : match_array) (n : nat) : option string :=
  match nth_error a n with
  | Some (Some s) => Some s
  | _ => None
  end.

(** ** Vocabulary of the statements *)

Section Vocabulary.
Variable R : Type.
Variable ignoreCase : bool.
Local Open Scope nat_scope.


(** Two continuations agree from a position on: on every later position
    of the same input. *)
Definition agree (pos : nat) (s : list ascii) (k k' : cont R) : Prop :=
  forall pos' s' caps',
    pos' + List.length s' = pos + List.length s ->
    pos <= pos' ->
    k pos' s' caps' = k' pos' s' caps'.

(** A matcher only calls its continuation at later positions of its
    input. *)
Definition forward
    (mb : nat -> list ascii -> captures -> cont R -> option R) : Prop :=
  forall pos s caps k k', agree pos s k k' -> mb pos s caps k = mb pos s caps k'.

(** The repetition stops after [ds]: the bound is reached, or the input
    ends, or the next character is outside the class. *)
Definition stops (ranges : list (ascii * ascii)) (max : option nat)
    (n : nat) (rest : list ascii) : Prop :=
  max = Some n \/ rest = []
  \/ exists c rest', rest = c :: rest' /\ class_matches ignoreCase ranges c = false.

Definition within (max : option nat) (n : nat) : Prop :=
  match max with
  | None => True
  | Some b => n <= b
  end.

End Vocabulary.

(** ** The characters a pattern can match *)

Section Alphabet.
Variable R : Type.
Variable ignoreCase : bool.
Variable sigma : ascii -> Prop.

(** Every character a class of [r] accepts is in [sigma]. *)
Fixpoint within_alphabet (r : re) : Prop :=
  match r with
  | Class ranges => forall c, class_matches ignoreCase ranges c = true -> sigma c
  | Eps | Bol | Eol => True
  | Seq a b | Alt a b => within_alphabet a /\ within_alphabet b
  | Rep _ _ r' | Group _ r' => within_alphabet r'
  end.

(** [$] closes the pattern. *)
Fixpoint ends_with_eol (r : re) : Prop :=
  match r with
  | Eol => True
  | Seq _ b => ends_with_eol b
  | _ => False
  end.

(** A matcher succeeds through its continuation, having consumed
    characters of [sigma] only. *)
Definition consumes
    (mb : nat -> list ascii -> captures -> cont R -> option R) : Prop :=
  forall pos s caps (k : cont R) x,
    mb pos s caps k = Some x ->
    exists pre pos' s' caps',
      s = pre ++ s' /\ Forall sigma pre /\ k pos' s' caps' = Some x.

End Alphabet.

End Regex.

(* ===================================================================== *)
(** * Service configuration (shape only)

    [service-config.js] is not among the sources; the resolver and the
    resolving load balancer use a service config only through its
    [loadBalancingConfig] list, each entry an object whose own keys are
    policy names. *)
(* ===================================================================== *)

Module ServiceConfig.

(** One [loadBalancingConfig] entry: own keys in enumeration order, each
    with its (opaque) policy configuration. *)
Definition LoadBalancingConfig : Type := list (string * string).

Record t : Type := mk {
  loadBalancingConfig : list LoadBalancingConfig;
  methodConfig : list string
}.

End ServiceConfig.

(* ===================================================================== *)
(** * DNS resolver (resolver-dns.js) *)
(* ===================================================================== *)

Module ResolverDns.
Import Eff Eff.Notations Regex.
Local Open Scope eff_scope.
Local Open Scope char_scope.

Definition hex : re := Class [("0", "9"); ("a", "f")].
Definition label_char : re := Class [("a", "z"); ("A", "Z"); ("0", "9"); ("-", "-")].

(** [/^(\d{1,3}(?:\.\d{1,3}){3})(?::(\d+))?$/] *)
Definition IPV4_REGEX : regexp :=
  mkRegexp
    (seq [Bol;
          Group 1 (Seq (Rep 1 (Some 3%nat) digit)
                       (Rep 3 (Some 3%nat) (Seq (lit ".") (Rep 1 (Some 3%nat) digit))));
          opt (Seq (lit ":") (Group 2 (plus digit)));
          Eol])
    false 2.

(** [[0-9a-f]{0,4}(?::{1,2}[0-9a-f]{0,4})+], the body shared by the two
    IPv6 expressions. *)
Definition ipv6_body : re :=
  Seq (Rep 0 (Some 4%nat) hex)
      (plus (Seq (Rep 1 (Some 2%nat) (lit ":")) (Rep 0 (Some 4%nat) hex))).

(** [/^([0-9a-f]{0,4}(?::{1,2}[0-9a-f]{0,4})+)$/i] *)
Definition IPV6_REGEX : regexp :=
  mkRegexp (seq [Bol; Group 1 ipv6_body; Eol]) true 1.

(** [/^\[([0-9a-f]{0,4}(?::{1,2}[0-9a-f]{0,4})+)\](?::(\d+))?$/i] *)
Definition IPV6_BRACKET_REGEX : regexp :=
  mkRegexp
    (seq [Bol; lit "["; Group 1 ipv6_body; lit "]";
          opt (Seq (lit ":") (Group 2 (plus digit)));
          Eol])
    true 2.

(** [(?:[a-zA-Z0-9-]+\.?)+] *)
Definition dns_labels : re := plus (Seq (plus label_char) (opt (lit "."))).

(** [/^(?:dns:)?(?:\/\/(?:[a-zA-Z0-9-]+\.?)+\/)?((?:[a-zA-Z0-9-]+\.?)+)(?::(\d+))?$/] *)
Definition DNS_REGEX : regexp :=
  mkRegexp
    (seq [Bol;
          opt (str "dns:");
          opt (seq [str "//"; dns_labels; lit "/"]);
          Group 1 dns_labels;
          opt (Seq (lit ":") (Group 2 (plus digit)));
          Eol])
    false 2.

Local Close Scope char_scope.

Definition DEFAULT_PORT : string := "443".

(** A match element inside a template literal. *)
Definition template (o : option string) : string :=
  match o with
  | Some s => s
  | None => "undefined"
  end.

(** [if (match[2])]: defined and not the empty string. *)
Definition truthy (o : option string) : bool :=
  match o with
  | Some s => negb (String.eqb s "")
  | None => false
  end.

(** [a || b] on match results. *)
Definition or_else {A} (a : option A) (b : option A) : option A :=
  match a with
  | Some x => Some x
  | None => b
  end.

Definition parseIP (target : string) : option (list string) :=
  let ipv4Match := exec IPV4_REGEX target in
  let match_ :=
    or_else ipv4Match
      (or_else (exec IPV6_REGEX target) (exec IPV6_BRACKET_REGEX target)) in
  match match_ with
  | None => None
  | Some mt =>
      let addr :=
        match ipv4Match with
        | Some _ => template (group mt 1)
        | None => ("[" ++ template (group mt 1) ++ "]")%string
        end in
      let port := if truthy (group mt 2) then template (group mt 2) else DEFAULT_PORT in
      Some [(addr ++ ":" ++ port)%string]
  end.

(** [Math.max.apply(null, arrays.map(array => array.length))]; with no
    array at all the maximum is minus infinity and the loop below does not
    run, as with 0. *)
Definition max_length {A} (arrays : list (list A)) : nat :=
  fold_right Nat.max 0%nat (map (@List.length A) arrays).

(** [for i < max: for array of arrays: if (i < array.length) push array[i]]. *)
Definition mergeArrays {A} (arrays : list (list A)) : list A :=
  flat_map
    (fun i =>
       flat_map
         (fun array =>
            match nth_error array i with
            | Some x => [x]
            | None => []
            end)
         arrays)
    (List.seq 0 (max_length arrays)).

(** What the listener of a resolver is called with. *)
Inductive ListenerCall : Type :=
| OnSuccessfulResolution (addressList : list string)
    (serviceConfig : option ServiceConfig.t)
    (serviceConfigError : option StatusObject)
| OnError (error : StatusObject).

(** What the resolver does to the outside: listener calls, directly or
    through [setImmediate], and the two DNS queries. *)
Inductive Event : Type :=
| SetImmediate (call : ListenerCall)
| Call (call : ListenerCall)
| DnsLookupAll (hostname : string)
| DnsResolveTxt (hostname : string).

Record t : Type := mk {
  target : string;
  ipResult : option (list string);
  dnsHostname : option string;
  port : option string;
  (** [Math.random() * 100], drawn once; only handed on *)
  percentage : Z;
  defaultResolutionError : StatusObject;
  (** [pendingResultPromise !== null] *)
  pendingResultPromise : bool
}.

Definition set_pendingResultPromise (v : bool) (r : t) : t :=
  mk (target r) (ipResult r) (dnsHostname r) (port r) (percentage r)
     (defaultResolutionError r) v.

(** The constructor.  It has no [throw]: a target that [DNS_REGEX] does not
    match leaves [dnsHostname] and [port] null. *)
Definition construct (target : string) (random100 : Z) : result t :=
  let ipResult := parseIP target in
  let dnsMatch := exec DNS_REGEX target in
  let '(dnsHostname, port) :=
    match dnsMatch with
    | None => (None, None)
    | Some mt =>
        (Some (template (group mt 1)),
         Some (if truthy (group mt 2) then template (group mt 2) else DEFAULT_PORT))
    end in
  Ok (mk target ipResult dnsHostname port random100
         (mkStatus UNAVAILABLE
            ("Name resolution failed for target " ++ target)%string [])
         false).

(** One entry of [dns.lookup(hostname, {all: true})]. *)
Record LookupAddress : Type := mkAddr {
  address : string;
  family : Z
}.

(** The TXT query resolves with the records or with the error. *)
Inductive TxtResult : Type :=
| TxtRecords (records : list (list string))
| TxtError.

Section Resolution.
(** [service-config.js], not among the sources: returns a service config
    or null, or throws. *)
Variable extractAndSelectServiceConfig :
  list (list string) -> Z -> result (option ServiceConfig.t).

(** [semver.satisfies(process.version, IPV6_SUPPORT_RANGE)] *)
Variable ipv6Supported : bool.

Definition Res : Type -> Type := M t Event.

Definition startResolution : Res unit :=
  ip <- gets ipResult ;;
  match ip with
  | Some addrs => emit (SetImmediate (OnSuccessfulResolution addrs None None))
  | None =>
      h <- gets dnsHostname ;;
      match h with
      | Some hostname =>
          emit (DnsLookupAll hostname) ;;
          emit (DnsResolveTxt hostname) ;;
          modify (set_pendingResultPromise true)
      | None => ret tt
      end
  end.

Definition updateResolution : Res unit :=
  p <- gets pendingResultPromise ;;
  if p then ret tt else startResolution.

Definition ip4Addresses (addressList : list LookupAddress) (port : option string)
    : list string :=
  map (fun addr => (address addr ++ ":" ++ template port)%string)
      (filter (fun addr => family addr =? 4) addressList).

Definition ip6Addresses (addressList : list LookupAddress) (port : option string)
    : list string :=
  if ipv6Supported
  then map (fun addr => ("[" ++ address addr ++ "]:" ++ template port)%string)
           (filter (fun addr => family addr =? 6) addressList)
  else [].

(** The fulfilment callback of [pendingResultPromise]. *)
Definition onResolved (addressList : list LookupAddress) (txtRecord : TxtResult)
    : Res unit :=
  modify (set_pendingResultPromise false) ;;
  p <- gets port ;;
  let allAddresses :=
    mergeArrays [ip4Addresses addressList p; ip6Addresses addressList p] in
  if (List.length allAddresses =? 0)%nat then
    e <- gets defaultResolutionError ;;
    emit (Call (OnError e))
  else
    pct <- gets percentage ;;
    let '(serviceConfig, serviceConfigError) :=
      match txtRecord with
      | TxtError => (None, Some (mkStatus UNAVAILABLE "TXT query failed" []))
      | TxtRecords records =>
          match extractAndSelectServiceConfig records pct with
          | Ok sc => (sc, None)
          | Throw _ =>
              (None, Some (mkStatus UNAVAILABLE "Parsing service config failed" []))
          end
      end in
    emit (Call (OnSuccessfulResolution allAddresses serviceConfig serviceConfigError)).

(** The rejection callback of [pendingResultPromise]. *)
Definition onRejected : Res unit :=
  modify (set_pendingResultPromise false) ;;
  e <- gets defaultResolutionError ;;
  emit (Call (OnError e)).
End Resolution.

Definition getDefaultAuthority (target : string) : result string :=
  let ipMatch :=
    or_else (exec IPV4_REGEX target)
      (or_else (exec IPV6_REGEX target) (exec IPV6_BRACKET_REGEX target)) in
  match ipMatch with
  | Some mt => Ok (template (group mt 1))
  | None =>
      match exec DNS_REGEX target with
      | Some mt => Ok (template (group mt 1))
      | None => Throw ("Failed to parse target " ++ target)%string
      end
  end.

(** ** The statements of the specification *)



(** Round-robin interleaving of two lists, the first list first. *)
Fixpoint interleave {A} (a b : list A) : list A :=
  match a, b with
  | [], _ => b
  | _, [] => a
  | x :: a', y :: b' => x :: y :: interleave a' b'
  end.

(** The answers of [dns.lookup] for a host with the IPv4 addresses [A] and
    the IPv6 addresses [B]: every address once, with its family, each list
    in its order, the two families mixed in any way. *)
Inductive lookup_of : list string -> list string -> list LookupAddress -> Prop :=
| lookup_none : lookup_of [] [] []
| lookup_ipv4 (a : string) (A B : list string) (l : list LookupAddress) :
    lookup_of A B l -> lookup_of (a :: A) B (mkAddr a 4 :: l)
| lookup_ipv6 (b : string) (A B : list string) (l : list LookupAddress) :
    lookup_of A B l -> lookup_of A (b :: B) (mkAddr b 6 :: l).

(** An address with the port of the target: [ip:port], [[ip]:port]. *)
Definition ipv4_with_port (port : option string) (a : string) : string :=
  (a ++ ":" ++ template port)%string.

Definition ipv6_with_port (port : option string) (b : string) : string :=
  ("[" ++ b ++ "]:" ++ template port)%string.

(** The claim on the order of the addresses as the specification words
    it: whatever the lookup answered, the listener receives the addresses
    of the two families interleaved, IPv4 first. *)
Definition delivers_interleaving : Prop :=
  forall (extract : list (list string) -> Z -> result (option ServiceConfig.t))
         (ipv6Supported : bool) (r : t) (A B : list string)
         (addressList : list LookupAddress) (txt : TxtResult),
    lookup_of A B addressList ->
    A <> [] \/ B <> [] ->
    exists sc err,
      events_of (onResolved extract ipv6Supported addressList txt r)
      = [Call (OnSuccessfulResolution
                 (interleave (map (ipv4_with_port (port r)) A)
                             (map (ipv6_with_port (port r)) B))
                 sc err)].

(** ** Vocabulary of the statements *)

(** The resolver of the target [example.org:80]. *)
Definition named_resolver : t :=
  mk "example.org:80" None (Some "example.org") (Some "80") 7
     (mkStatus UNAVAILABLE "Name resolution failed for target example.org:80" [])
     false.

(** A lookup answer with two IPv4 addresses and one IPv6 address. *)
Definition mixed_answer : list LookupAddress :=
  [mkAddr "10.0.0.1" 4; mkAddr "fe80::1" 6; mkAddr "10.0.0.2" 4].


(** The port of a match: group 2 when present, the default otherwise. *)
Definition port_of (mt : match_array) : string :=
  if truthy (group mt 2) then template (group mt 2) else DEFAULT_PORT.



(** Element [i] of an array when it has one: the inner loop body. *)
Definition cell {A} (array : list A) (i : nat) : list A :=
  match nth_error array i with
  | Some x => [x]
  | None => []
  end.

(** Targets of four groups of digits. *)
Section DottedQuad.
Local Open Scope nat_scope.
Local Open Scope char_scope.

(** A decimal digit. *)
Definition is_digit (c : ascii) : Prop :=
  class_matches false [("0", "9")] c = true.

(** One to three digits. *)
Definition octet (g : list ascii) : Prop :=
  Forall is_digit g /\ 1 <= List.length g <= 3.

(** A port number: at least one digit. *)
Definition port_number (p : list ascii) : Prop :=
  Forall is_digit p /\ 1 <= List.length p.

(** [a.b.c.d] followed by [tail]. *)
Definition dotted (a b c d tail : list ascii) : list ascii :=
  a ++ "." :: b ++ "." :: c ++ "." :: d ++ tail.

(** [:port], or nothing. *)
Definition port_suffix (p : option (list ascii)) : list ascii :=
  match p with
  | Some ds => ":" :: ds
  | None => []
  end.

(** What may follow a group: nothing, a period or a colon. *)
Definition after_group (rest : list ascii) : Prop :=
  rest = [] \/ exists c rest', rest = c :: rest' /\ (c = "." \/ c = ":").

(** [\.\d{1,3}] *)
Definition dot_group : re := Seq (lit ".") (Rep 1 (Some 3) digit).

End DottedQuad.

(** Targets of hexadecimal groups. *)
Section HexGroups.
Local Open Scope nat_scope.
Local Open Scope char_scope.

















End HexGroups.




(** ** Merging any number of arrays *)

(** Row [i] of the merge: element [i] of every array that has one. *)
Definition row {A} (arrays : list (list A)) (i : nat) : list A :=
  flat_map (fun array => cell array i) arrays.

(** ** Queries in flight *)

Section Queries.
Variable extractAndSelectServiceConfig :
  list (list string) -> Z -> result (option ServiceConfig.t).
Variable ipv6Supported : bool.

(** What happens to a resolver: its owner asks for a resolution, or the
    promise of a pair of queries settles. *)
Inductive Op : Type :=
| OpUpdateResolution
| OpResolved (addressList : list LookupAddress) (txtRecord : TxtResult)
| OpRejected.

(** A resolver together with the number of result promises that have not
    settled yet. *)
Record World : Type := mkWorld {
  resolver : t;
  outstanding : nat
}.

(** The address queries an event list starts. *)
Fixpoint lookups (evs : list Event) : nat :=
  match evs with
  | [] => 0%nat
  | DnsLookupAll _ :: evs' => S (lookups evs')
  | _ :: evs' => lookups evs'
  end.

(** One operation.  A promise settles once: with none outstanding there is
    nothing to settle. *)
Definition step (op : Op) (w : World) : World * list Event :=
  match op with
  | OpUpdateResolution =>
      let r := updateResolution (resolver w) in
      (mkWorld (state_of r) (outstanding w + lookups (events_of r)), events_of r)
  | OpResolved addressList txtRecord =>
      match outstanding w with
      | O => (w, [])
      | S n =>
          let r := onResolved extractAndSelectServiceConfig ipv6Supported
                     addressList txtRecord (resolver w) in
          (mkWorld (state_of r) n, events_of r)
      end
  | OpRejected =>
      match outstanding w with
      | O => (w, [])
      | S n =>
          let r := onRejected (resolver w) in
          (mkWorld (state_of r) n, events_of r)
      end
  end.

Definition run (ops : list Op) (w : World) : World :=
  fold_left (fun w op => fst (step op w)) ops w.

(** [pendingResultPromise] is non-null exactly while one promise is
    outstanding, and there is never more than one. *)
Definition one_at_a_time (w : World) : Prop :=
  (pendingResultPromise (resolver w) = true /\ outstanding w = 1%nat)
  \/ (pendingResultPromise (resolver w) = false /\ outstanding w = 0%nat).

End Queries.

(** ** Host name targets *)

Section DnsTargets.
Local Open Scope nat_scope.
Local Open Scope char_scope.

(** The class [[a-zA-Z0-9-]]. *)
Definition label_ranges : list (ascii * ascii) :=
  [("a", "z"); ("A", "Z"); ("0", "9"); ("-", "-")].

Definition is_label_char (c : ascii) : Prop :=
  class_matches false label_ranges c = true.

(** A label: at least one character of the class. *)
Definition label (l : list ascii) : Prop :=
  Forall is_label_char l /\ 1 <= List.length l.

(** Labels with a period between them. *)
Fixpoint join (labels : list (list ascii)) : list ascii :=
  match labels with
  | [] => []
  | [l] => l
  | l :: ls => l ++ "." :: join ls
  end.

(** What follows a host name: nothing, or the colon of a port. *)
Definition after_host (rest : list ascii) : Prop :=
  rest = [] \/ exists rest', rest = ":" :: rest'.

(** [[a-zA-Z0-9-]+\.?] *)
Definition label_group : re := Seq (plus label_char) (opt (lit ".")).

(** [dns:] *)
Definition dns_colon : list ascii := ["d"; "n"; "s"; ":"].

Definition dns_prefix (prefixed : bool) : list ascii :=
  if prefixed then dns_colon else [].

Definition starts_with (pre s : list ascii) : Prop :=
  exists rest, s = pre ++ rest.

(** [(?::(\d+))?$] *)
Definition port_tail : re :=
  Seq (opt (Seq (lit ":") (Group 2 (plus digit)))) Eol.

(** The captures after the port part. *)
Definition with_port (p : option (list ascii)) (caps : captures) : captures :=
  match p with
  | Some ds => set_capture 2 (string_of_list_ascii ds) (clear_captures [2] caps)
  | None => caps
  end.

(** [dns:] or nothing, the host name, [:port] or nothing. *)
Definition dns_target (prefixed : bool) (labels : list (list ascii))
    (p : option (list ascii)) : list ascii :=
  dns_prefix prefixed ++ join labels ++ port_suffix p.

(** The port a target gives, or the default. *)
Definition port_or_default (p : option (list ascii)) : string :=
  match p with
  | Some ds => string_of_list_ascii ds
  | None => DEFAULT_PORT
  end.

(** The characters of the three IP expressions: hexadecimal digits of
    either case, the period, the colon and the square brackets. *)
Definition ip_char (c : ascii) : bool :=
  (class_matches true [("0", "9"); ("a", "f")] c
   || existsb (Ascii.eqb c) ["."; ":"; "["; "]"])%bool.

Definition only_ip_chars (c : ascii) : Prop := ip_char c = true.

(** Some character of the target is none of these. *)
Definition has_other_character (target : list ascii) : Prop :=
  Exists (fun c => ip_char c = false) target.


(** The labels of [localhost] and of [example.com], and a port. *)
Definition localhost_labels : list (list ascii) :=
  [["l"; "o"; "c"; "a"; "l"; "h"; "o"; "s"; "t"]].
Definition example_labels : list (list ascii) :=
  [["e"; "x"; "a"; "m"; "p"; "l"; "e"]; ["c"; "o"; "m"]].
Definition port_50051 : list ascii := ["5"; "0"; "0"; "5"; "1"].

End DnsTargets.

(** The resolvers of the targets [localhost:50051] and [dns:example.com]. *)
Definition localhost_resolver : t :=
  mk "localhost:50051" None (Some "localhost") (Some "50051") 7
     (mkStatus UNAVAILABLE "Name resolution failed for target localhost:50051" [])
     false.

Definition example_resolver : t :=
  mk "dns:example.com" None (Some "example.com") (Some "443") 7
     (mkStatus UNAVAILABLE "Name resolution failed for target dns:example.com" [])
     false.

(** A TXT record that selects no service config. *)
Definition no_service_config (records : list (list string)) (percentage : Z)
    : result (option ServiceConfig.t) := Ok None.

End ResolverDns.

(* ===================================================================== *)
(** * Call stream (call-stream.js)

    The status side of [Http2CallStream]: [endCall], the HTTP/2 stream
    handlers that lead to it, and cancellation.  The message path ([_read],
    [_write], the decoder) does not touch [finalStatus] or
    [mappedStatusCode] and is left out.

    A call stream holds a reference to the subchannel it runs on; the pair
    of both objects is the state.  Promises are identities; a job waits for
    a promise to settle and then runs; the filter stack is outside, so the
    end of a filter run is an operation of its own. *)
(* ===================================================================== *)

Module CallStream.
Import Eff Eff.Notations.
Local Open Scope eff_scope.

(** [http2.constants] *)
Definition NGHTTP2_FLAG_END_STREAM : Z := 1.
Definition NGHTTP2_REFUSED_STREAM : Z := 7.
Definition NGHTTP2_CANCEL : Z := 8.
Definition NGHTTP2_ENHANCE_YOUR_CALM : Z := 11.
Definition NGHTTP2_INADEQUATE_SECURITY : Z := 12.

(** The value of [headers[':status']]. *)
Inductive HeaderValue : Type :=
| HUndefined
| HNumber (n : Z)
| HString (s : string).

(** The [switch (headers[':status'])] of the response handler; [case]
    labels compare with [===], so only numbers reach them. *)
Definition mapStatus (v : HeaderValue) : Status :=
  match v with
  | HNumber n =>
      if n =? 400 then INTERNAL
      else if n =? 401 then UNAUTHENTICATED
      else if n =? 403 then PERMISSION_DENIED
      else if n =? 404 then UNIMPLEMENTED
      else if (n =? 429) || (n =? 502) || (n =? 503) || (n =? 504) then UNAVAILABLE
      else UNKNOWN
  | _ => UNKNOWN
  end.

(** The [switch (stream.rstCode)] of the close handler. *)
Definition rstStatus (rstCode : Z) : StatusObject :=
  if rstCode =? NGHTTP2_REFUSED_STREAM
  then mkStatus UNAVAILABLE "Stream refused by server" []
  else if rstCode =? NGHTTP2_CANCEL
  then mkStatus CANCELLED "Call cancelled" []
  else if rstCode =? NGHTTP2_ENHANCE_YOUR_CALM
  then mkStatus RESOURCE_EXHAUSTED "Bandwidth exhausted" []
  else if rstCode =? NGHTTP2_INADEQUATE_SECURITY
  then mkStatus PERMISSION_DENIED "Protocol not secure enough" []
  else mkStatus INTERNAL "" [].

Definition PromiseId : Type := nat.
Definition StreamId : Type := nat.

(** What runs once an awaited promise has settled. *)
Inductive Job : Type :=
| JEnd (status : StatusObject)
    (** [await this.handlingTrailers; this.endCall(status)] *)
| JEndSettle (status : StatusObject) (p : PromiseId).
    (** [await this.handlingHeaders; this.endCall(status)], the end of the
        async function whose promise is [p] *)

Record t : Type := mk {
  finalStatus : option StatusObject;
  mappedStatusCode : Status;
  http2Stream : option StreamId;
  (** [this.http2Stream.destroyed] *)
  streamDestroyed : bool;
  (** [this.subchannel !== null] *)
  subchannel : bool;
  handlingHeaders : PromiseId;
  handlingTrailers : PromiseId;
  settled : list PromiseId;
  (** filter runs in flight, by the promise they belong to *)
  filteringMetadata : list PromiseId;
  filteringTrailers : list PromiseId;
  jobs : list (PromiseId * Job);
  nextPromise : PromiseId;
  disconnectListener : Subchannel.ListenerId
}.

Record World : Type := mkWorld {
  call : t;
  sub : Subchannel.t
}.

Inductive Event : Type :=
| NextTickEmitStatus (status : StatusObject)
| EmitMetadata (md : Metadata)
| StreamClose (stream : StreamId) (code : Z)
| ReceiveMetadata (p : PromiseId) (md : Metadata)
| ReceiveTrailers (p : PromiseId) (status : StatusObject)
| OfSubchannel (e : Subchannel.Event).

Definition W : Type -> Type := M World Event.

Definition on_call (f : t -> t) (w : World) : World := mkWorld (f (call w)) (sub w).

Definition set_finalStatus v (c : t) : t :=
  mk v (mappedStatusCode c) (http2Stream c) (streamDestroyed c) (subchannel c)
     (handlingHeaders c) (handlingTrailers c) (settled c) (filteringMetadata c)
     (filteringTrailers c) (jobs c) (nextPromise c) (disconnectListener c).
Definition set_mappedStatusCode v (c : t) : t :=
  mk (finalStatus c) v (http2Stream c) (streamDestroyed c) (subchannel c)
     (handlingHeaders c) (handlingTrailers c) (settled c) (filteringMetadata c)
     (filteringTrailers c) (jobs c) (nextPromise c) (disconnectListener c).
Definition set_http2Stream v (c : t) : t :=
  mk (finalStatus c) (mappedStatusCode c) v (streamDestroyed c) (subchannel c)
     (handlingHeaders c) (handlingTrailers c) (settled c) (filteringMetadata c)
     (filteringTrailers c) (jobs c) (nextPromise c) (disconnectListener c).
Definition set_streamDestroyed v (c : t) : t :=
  mk (finalStatus c) (mappedStatusCode c) (http2Stream c) v (subchannel c)
     (handlingHeaders c) (handlingTrailers c) (settled c) (filteringMetadata c)
     (filteringTrailers c) (jobs c) (nextPromise c) (disconnectListener c).
Definition set_subchannel v (c : t) : t :=
  mk (finalStatus c) (mappedStatusCode c) (http2Stream c) (streamDestroyed c) v
     (handlingHeaders c) (handlingTrailers c) (settled c) (filteringMetadata c)
     (filteringTrailers c) (jobs c) (nextPromise c) (disconnectListener c).
Definition set_handlingHeaders v (c : t) : t :=
  mk (finalStatus c) (mappedStatusCode c) (http2Stream c) (streamDestroyed c)
     (subchannel c) v (handlingTrailers c) (settled c) (filteringMetadata c)
     (filteringTrailers c) (jobs c) (nextPromise c) (disconnectListener c).
Definition set_handlingTrailers v (c : t) : t :=
  mk (finalStatus c) (mappedStatusCode c) (http2Stream c) (streamDestroyed c)
     (subchannel c) (handlingHeaders c) v (settled c) (filteringMetadata c)
     (filteringTrailers c) (jobs c) (nextPromise c) (disconnectListener c).
Definition set_settled v (c : t) : t :=
  mk (finalStatus c) (mappedStatusCode c) (http2Stream c) (streamDestroyed c)
     (subchannel c) (handlingHeaders c) (handlingTrailers c) v (filteringMetadata c)
     (filteringTrailers c) (jobs c) (nextPromise c) (disconnectListener c).
Definition set_filteringMetadata v (c : t) : t :=
  mk (finalStatus c) (mappedStatusCode c) (http2Stream c) (streamDestroyed c)
     (subchannel c) (handlingHeaders c) (handlingTrailers c) (settled c) v
     (filteringTrailers c) (jobs c) (nextPromise c) (disconnectListener c).
Definition set_filteringTrailers v (c : t) : t :=
  mk (finalStatus c) (mappedStatusCode c) (http2Stream c) (streamDestroyed c)
     (subchannel c) (handlingHeaders c) (handlingTrailers c) (settled c)
     (filteringMetadata c) v (jobs c) (nextPromise c) (disconnectListener c).
Definition set_jobs v (c : t) : t :=
  mk (finalStatus c) (mappedStatusCode c) (http2Stream c) (streamDestroyed c)
     (subchannel c) (handlingHeaders c) (handlingTrailers c) (settled c)
     (filteringMetadata c) (filteringTrailers c) v (nextPromise c)
     (disconnectListener c).
Definition set_nextPromise v (c : t) : t :=
  mk (finalStatus c) (mappedStatusCode c) (http2Stream c) (streamDestroyed c)
     (subchannel c) (handlingHeaders c) (handlingTrailers c) (settled c)
     (filteringMetadata c) (filteringTrailers c) (jobs c) v
     (disconnectListener c).

(** The constructor: both promises are [Promise.resolve()], promise 0. *)
Definition create (listener : Subchannel.ListenerId) : t :=
  mk None UNKNOWN None false false O O [O] [] [] [] 1%nat listener.

(** A method of the subchannel, called through [this.subchannel]. *)
Definition liftSub {A} (c : Subchannel.Sub A) : W A :=
  fun w =>
    match c (sub w) with
    | (r, s', evs) => (r, mkWorld (call w) s', map OfSubchannel evs)
    end.

Definition endCall (status : StatusObject) : W unit :=
  fs <- gets (fun w => finalStatus (call w)) ;;
  match fs with
  | None =>
      modify (on_call (set_finalStatus (Some status))) ;;
      emit (NextTickEmitStatus status) ;;
      attached <- gets (fun w => subchannel (call w)) ;;
      if attached then
        l <- gets (fun w => disconnectListener (call w)) ;;
        liftSub Subchannel.callUnref ;;
        liftSub (Subchannel.removeDisconnectListener l)
      else ret tt
  | Some _ => ret tt
  end.

(** [this.disconnectListener] *)
Definition disconnectListenerCallback : W unit :=
  endCall (mkStatus UNAVAILABLE "Connection dropped" []).

Definition destroyHttp2Stream : W unit :=
  st <- gets (fun w => http2Stream (call w)) ;;
  d <- gets (fun w => streamDestroyed (call w)) ;;
  match st with
  | Some stream => if negb d then emit (StreamClose stream NGHTTP2_CANCEL) else ret tt
  | None => ret tt
  end.

Definition freshPromise : W PromiseId :=
  p <- gets (fun w => nextPromise (call w)) ;;
  modify (on_call (set_nextPromise (S p))) ;;
  ret p.

Definition settle (p : PromiseId) : W unit :=
  modify (on_call (fun c => set_settled (p :: settled c) c)).

Definition await (p : PromiseId) (j : Job) : W unit :=
  modify (on_call (fun c => set_jobs (jobs c ++ [(p, j)]) c)).

Definition is_settled (c : t) (p : PromiseId) : bool :=
  existsb (Nat.eqb p) (settled c).

(** The first job whose promise has settled, and the other jobs. *)
Fixpoint pick_ready (c : t) (js : list (PromiseId * Job))
    : option (Job * list (PromiseId * Job)) :=
  match js with
  | [] => None
  | (p, j) :: js' =>
      if is_settled c p then Some (j, js')
      else
        match pick_ready c js' with
        | Some (j', rest) => Some (j', (p, j) :: rest)
        | None => None
        end
  end.

Definition runJob (j : Job) : W unit :=
  match j with
  | JEnd status => endCall status
  | JEndSettle status p => endCall status ;; settle p
  end.

(** Run the jobs that are ready until none is; a job adds no job, so the
    number of waiting jobs bounds the rounds. *)
Fixpoint runJobs (fuel : nat) : W unit :=
  match fuel with
  | O => ret tt
  | S fuel' =>
      c <- gets call ;;
      match pick_ready c (jobs c) with
      | None => ret tt
      | Some (j, rest) =>
          modify (on_call (set_jobs rest)) ;;
          runJob j ;;
          runJobs fuel'
      end
  end.

Definition microtasks : W unit :=
  js <- gets (fun w => jobs (call w)) ;;
  runJobs (List.length js).

(** [handleTrailers(headers)] up to its first [await]; [parsed] is what
    [Metadata.fromHttp2Headers(headers)] does. *)
Definition handleTrailers (parsed : result Metadata) : W unit :=
  code <- gets (fun w => mappedStatusCode (call w)) ;;
  let details := "" in
  let metadata := match parsed with Ok md => md | Throw _ => [] end in
  let status := mkStatus code details metadata in
  p <- freshPromise ;;
  modify (on_call (set_handlingTrailers p)) ;;
  modify (on_call (fun c => set_filteringTrailers (p :: filteringTrailers c) c)) ;;
  emit (ReceiveTrailers p status).

(** [filterStack.receiveTrailers] has finished for promise [p]. *)
Definition trailersFiltered (p : PromiseId) (r : result StatusObject) : W unit :=
  fl <- gets (fun w => filteringTrailers (call w)) ;;
  if existsb (Nat.eqb p) fl then
    modify (on_call (fun c =>
      set_filteringTrailers (filter (fun q => negb (Nat.eqb q p)) fl) c)) ;;
    h <- gets (fun w => handlingHeaders (call w)) ;;
    match r with
    | Ok finalStatus => await h (JEndSettle finalStatus p)
    | Throw _ =>
        await h (JEndSettle
                   (mkStatus INTERNAL "Failed to process received status" []) p)
    end
  else ret tt.

Definition attachHttp2Stream (stream : StreamId) : W unit :=
  fs <- gets (fun w => finalStatus (call w)) ;;
  match fs with
  | Some _ => emit (StreamClose stream NGHTTP2_CANCEL)
  | None =>
      modify (on_call (set_http2Stream (Some stream))) ;;
      modify (on_call (set_subchannel true)) ;;
      l <- gets (fun w => disconnectListener (call w)) ;;
      liftSub (Subchannel.addDisconnectListener l) ;;
      liftSub Subchannel.callRef
  end.

(** The ['response'] handler. *)
Definition onResponse (status : HeaderValue) (flags : Z) (parsed : result Metadata)
    : W unit :=
  modify (on_call (set_mappedStatusCode (mapStatus status))) ;;
  if negb (Z.land flags NGHTTP2_FLAG_END_STREAM =? 0) then handleTrailers parsed
  else
    match parsed with
    | Throw msg => endCall (mkStatus UNKNOWN msg [])
    | Ok md =>
        p <- freshPromise ;;
        modify (on_call (set_handlingHeaders p)) ;;
        modify (on_call (fun c => set_filteringMetadata (p :: filteringMetadata c) c)) ;;
        emit (ReceiveMetadata p md)
    end.

(** [filterStack.receiveMetadata] has finished for promise [p]: the [then]
    or the [catch] of the response handler. *)
Definition metadataFiltered (p : PromiseId) (r : result Metadata) : W unit :=
  fl <- gets (fun w => filteringMetadata (call w)) ;;
  if existsb (Nat.eqb p) fl then
    modify (on_call (fun c =>
      set_filteringMetadata (filter (fun q => negb (Nat.eqb q p)) fl) c)) ;;
    match r with
    | Ok finalMetadata => emit (EmitMetadata finalMetadata)
    | Throw msg =>
        destroyHttp2Stream ;;
        endCall (mkStatus UNKNOWN msg [])
    end ;;
    settle p
  else ret tt.

(** The ['close'] handler. *)
Definition onClose (rstCode : Z) : W unit :=
  t <- gets (fun w => handlingTrailers (call w)) ;;
  await t (JEnd (rstStatus rstCode)).

Definition cancelWithStatus (status : Status) (details : string) : W unit :=
  destroyHttp2Stream ;;
  t <- gets (fun w => handlingTrailers (call w)) ;;
  await t (JEnd (mkStatus status details [])).

Definition handleFilterError (msg : string) : W unit :=
  cancelWithStatus INTERNAL msg.

Inductive Op : Type :=
| OpAttach (stream : StreamId)
| OpResponse (status : HeaderValue) (flags : Z) (parsed : result Metadata)
| OpTrailers (parsed : result Metadata)
| OpMetadataFiltered (p : PromiseId) (r : result Metadata)
| OpTrailersFiltered (p : PromiseId) (r : result StatusObject)
| OpClose (rstCode : Z)
| OpCancelWithStatus (status : Status) (details : string)
| OpDisconnect
| OpEndCall (status : StatusObject)
| OpStreamDestroyed.

(** The handlers of the HTTP/2 stream exist once a stream is attached. *)
Definition ifAttached (c : W unit) : W unit :=
  st <- gets (fun w => http2Stream (call w)) ;;
  match st with
  | Some _ => c
  | None => ret tt
  end.

(** One turn of the event loop: the handler, then the jobs that became
    ready. *)
Definition perform (op : Op) : W unit :=
  match op with
  | OpAttach stream => attachHttp2Stream stream
  | OpResponse status flags parsed => ifAttached (onResponse status flags parsed)
  | OpTrailers parsed => ifAttached (handleTrailers parsed)
  | OpMetadataFiltered p r => metadataFiltered p r
  | OpTrailersFiltered p r => trailersFiltered p r
  | OpClose rstCode => ifAttached (onClose rstCode)
  | OpCancelWithStatus status details => cancelWithStatus status details
  | OpDisconnect => disconnectListenerCallback
  | OpEndCall status => endCall status
  | OpStreamDestroyed => modify (on_call (set_streamDestroyed true))
  end ;;
  microtasks.

Definition step (op : Op) (w : World) : World := state_of (perform op w).

Definition run (ops : list Op) (w : World) : World :=
  fold_left (fun w op => step op w) ops w.

(** A subchannel that is READY, as [startCallStream] requires: created,
    started, and connected. *)
Definition ready_subchannel : Subchannel.t :=
  fst (Subchannel.run
         [Subchannel.OpStartConnecting; Subchannel.OpConnect O]
         (Subchannel.create None None)).

(** A call stream just attached to a READY subchannel. *)
Definition attached_call : World :=
  step (OpAttach O) (mkWorld (create O) ready_subchannel).

(** The claim on the HTTP status as the specification words it, for the
    case where the response headers arrive and the stream then closes with
    no trailers at all: the final status code is the one mapped from
    [:status]. *)
Definition final_code_is_mapped : Prop :=
  forall (n : Z) (md : Metadata) (rstCode : Z) (final : StatusObject),
    finalStatus (call (run [OpResponse (HNumber n) 0 (Ok md); OpClose rstCode]
                           attached_call))
    = Some final ->
    code final = mapStatus (HNumber n).

(** ** Vocabulary of the statements *)

(** The status events of an event list. *)
Fixpoint status_events (evs : list Event) : list StatusObject :=
  match evs with
  | [] => []
  | NextTickEmitStatus s :: evs' => s :: status_events evs'
  | _ :: evs' => status_events evs'
  end.

(** The subchannel after the call has let go of it. *)
Definition released (l : Subchannel.ListenerId) (s : Subchannel.t) : Subchannel.t :=
  state_of (bind Subchannel.callUnref
                 (fun _ => Subchannel.removeDisconnectListener l) s).

(** What [indexOf] and [splice(index, 1)] make of a list: [ls'] is [ls]
    without the first occurrence of [l], and [ls] when [l] does not occur. *)
Definition without_first (l : Subchannel.ListenerId)
    (ls ls' : list Subchannel.ListenerId) : Prop :=
  (~ In l ls /\ ls' = ls)
  \/ (exists pre post, ls = pre ++ l :: post /\ ~ In l pre /\ ls' = pre ++ post).

Definition status_a : StatusObject := mkStatus UNAVAILABLE "Connection dropped" [].
Definition status_b : StatusObject := mkStatus CANCELLED "Call cancelled" [].

(** A call on which trailers can be handled: not ended, a stream
    attached, the headers promise settled, no job waiting. *)
Definition open_call (w : World) : Prop :=
  finalStatus (call w) = None
  /\ (exists stream, http2Stream (call w) = Some stream)
  /\ existsb (Nat.eqb (handlingHeaders (call w))) (settled (call w)) = true
  /\ jobs (call w) = [].

Definition metadata_of (parsed : result Metadata) : Metadata :=
  match parsed with
  | Ok md => md
  | Throw _ => []
  end.

(** ** Histories and what they may do *)

(** What a history of operations does to the outside. *)
Fixpoint trace (ops : list Op) (w : World) : list Event :=
  match ops with
  | [] => []
  | op :: ops' => events_of (perform op w) ++ trace ops' (step op w)
  end.

(** The calls on the subchannel an event list records. *)
Fixpoint sub_events (evs : list Event) : list Subchannel.Event :=
  match evs with
  | [] => []
  | OfSubchannel e :: evs' => e :: sub_events evs'
  | _ :: evs' => sub_events evs'
  end.

(** A rule for what a piece of code may do, from the world before to the
    world after with the events in between. *)
Definition Rule : Type := World -> World -> list Event -> Prop.

Definition respects {A} (R : Rule) (c : W A) : Prop :=
  forall w, R w (state_of (c w)) (events_of (c w)).

(** A change of the call stream's fields that leaves alone whether the call
    has ended, its stream and its hold on a subchannel. *)
Definition keeps (g : t -> t) : Prop :=
  forall c, finalStatus (g c) = finalStatus c
            /\ subchannel (g c) = subchannel c
            /\ disconnectListener (g c) = disconnectListener c
            /\ http2Stream (g c) = http2Stream c.

(** An event that is neither the ['status'] event nor a call on the
    subchannel. *)
Definition plain (e : Event) : Prop :=
  match e with
  | NextTickEmitStatus _ | OfSubchannel _ => False
  | _ => True
  end.

Definition opt_list {A} (o : option A) : list A :=
  match o with
  | Some a => [a]
  | None => []
  end.

(** The ['status'] event is scheduled when the call ends and carries the
    final status; once the call has ended its status stays, and the
    subchannel is left alone. *)
Definition status_rule : Rule := fun w w' evs =>
  status_events evs
  = match finalStatus (call w) with
    | Some _ => []
    | None => opt_list (finalStatus (call w'))
    end
  /\ forall st,
       finalStatus (call w) = Some st ->
       finalStatus (call w') = Some st /\ sub w' = sub w /\ sub_events evs = [].

(** Code that does not end the call. *)
Definition open_rule : Rule := fun w w' evs =>
  status_events evs = [] /\ finalStatus (call w') = finalStatus (call w).


Definition failed_status : StatusObject :=
  mkStatus INTERNAL "Failed to process received status" [].

(** What the trailers filters leave: a status, or the status of their
    failure. *)
Definition filtered_status (r : result StatusObject) : StatusObject :=
  match r with
  | Ok st => st
  | Throw _ => failed_status
  end.


(** ** The call's hold on its subchannel *)

(** Whether the call holds its subchannel: a stream was attached and the
    call has not ended. *)
Definition is_open (w : World) : bool :=
  match finalStatus (call w) with
  | Some _ => false
  | None => true
  end.

Definition holds (w : World) : bool := subchannel (call w) && is_open w.

(** How often the call's disconnect listener is registered. *)
Definition registered (w : World) : nat :=
  count_occ Nat.eq_dec (Subchannel.disconnectListeners (sub w))
            (disconnectListener (call w)).

Definition b2n (b : bool) : nat := if b then 1%nat else 0%nat.

(** Code that lets go of the subchannel when it ends the call, and only
    then. *)
Definition balance_rule : Rule := fun w w' evs =>
  subchannel (call w') = subchannel (call w)
  /\ disconnectListener (call w') = disconnectListener (call w)
  /\ Subchannel.callRefcount (sub w') + Z.b2z (holds w)
     = Subchannel.callRefcount (sub w) + Z.b2z (holds w')
  /\ ((b2n (holds w) <= registered w)%nat ->
      (registered w' + b2n (holds w) = registered w + b2n (holds w'))%nat).

(** An operation other than the attachment of a stream. *)
Definition no_attach (op : Op) : Prop := forall stream, op <> OpAttach stream.


(** ** Trailers that overtake the headers *)

(** The status of a call whose metadata filters finish with [r] after its
    trailers filters have left [st]. *)
Definition headers_then (r : result Metadata) (st : StatusObject) : StatusObject :=
  match r with
  | Ok _ => st
  | Throw msg => mkStatus UNKNOWN msg []
  end.

(** The response headers, the trailers, and the end of the trailers
    filters, with the metadata filters still running. *)
Definition trailers_overtake (w : World) (status : HeaderValue) (flags : Z)
    (md : Metadata) (parsed : result Metadata) (st : StatusObject) : list Op :=
  [OpResponse status flags (Ok md);
   OpTrailers parsed;
   OpTrailersFiltered (S (nextPromise (call w))) (Ok st)].


(** ** What stays *)

(** Code that neither revives a call that has ended nor takes its stream
    away. *)
Definition stays_rule : Rule := fun w w' _ =>
  (finalStatus (call w) <> None -> finalStatus (call w') <> None)
  /\ (http2Stream (call w) <> None -> http2Stream (call w') <> None).


End CallStream.

(* ===================================================================== *)
(** * Call stream, the message path (call-stream.js)

    The read side ([tryPush], [filterReceivedMessage], [handleFilteredRead],
    [_read]), the write side ([_write], [_final]) and the end of
    [attachHttp2Stream] that flushes what was waiting for a stream.  The
    status side is the one of [CallStream]; both sides share the call
    object.

    The decoder, the filter stack, the HTTP/2 stream and the readable side
    of the [Duplex] are outside: a call to one of them is an event, and
    what they call back is an operation. *)
(* ===================================================================== *)

Module CallStreamMessages.
Import Eff Eff.Notations.
Local Open Scope eff_scope.

(** A message is a [Buffer]. *)
Definition Message : Type := list Byte.byte.

(** A callback of the writable side, by identity. *)
Definition Callback : Type := nat.

(** The fields of the call stream that the status side does not use.
    [null] in one of the two queues is the mark of the end of the stream. *)
Record Fields : Type := mkFields {
  pendingRead : bool;
  pendingWrite : option Message;
  pendingWriteCallback : option Callback;
  pendingFinalCallback : option Callback;
  isReadFilterPending : bool;
  canPush : bool;
  unpushedReadMessages : list (option Message);
  unfilteredReadMessages : list (option Message);
  (** how often [this.push] has been called *)
  pushCalls : nat
}.

Record World : Type := mkWorld {
  base : CallStream.World;
  fields : Fields
}.

Inductive Event : Type :=
| Push (message : option Message)
| StreamPause
| StreamResume
| StreamWrite (message : Message) (cb : Callback)
| StreamEnd (cb : Callback)
| FilterReceiveMessage (message : Message)
| FilterSendMessage (chunk : Message)
| OfCall (e : CallStream.Event).

Definition W : Type -> Type := M World Event.

Definition on_fields (f : Fields -> Fields) (w : World) : World :=
  mkWorld (base w) (f (fields w)).

Definition set_pendingRead v (r : Fields) : Fields :=
  mkFields v (pendingWrite r) (pendingWriteCallback r) (pendingFinalCallback r)
           (isReadFilterPending r) (canPush r) (unpushedReadMessages r)
           (unfilteredReadMessages r) (pushCalls r).
Definition set_pendingWrite v (r : Fields) : Fields :=
  mkFields (pendingRead r) v (pendingWriteCallback r) (pendingFinalCallback r)
           (isReadFilterPending r) (canPush r) (unpushedReadMessages r)
           (unfilteredReadMessages r) (pushCalls r).
Definition set_pendingWriteCallback v (r : Fields) : Fields :=
  mkFields (pendingRead r) (pendingWrite r) v (pendingFinalCallback r)
           (isReadFilterPending r) (canPush r) (unpushedReadMessages r)
           (unfilteredReadMessages r) (pushCalls r).
Definition set_pendingFinalCallback v (r : Fields) : Fields :=
  mkFields (pendingRead r) (pendingWrite r) (pendingWriteCallback r) v
           (isReadFilterPending r) (canPush r) (unpushedReadMessages r)
           (unfilteredReadMessages r) (pushCalls r).
Definition set_isReadFilterPending v (r : Fields) : Fields :=
  mkFields (pendingRead r) (pendingWrite r) (pendingWriteCallback r)
           (pendingFinalCallback r) v (canPush r) (unpushedReadMessages r)
           (unfilteredReadMessages r) (pushCalls r).
Definition set_canPush v (r : Fields) : Fields :=
  mkFields (pendingRead r) (pendingWrite r) (pendingWriteCallback r)
           (pendingFinalCallback r) (isReadFilterPending r) v
           (unpushedReadMessages r) (unfilteredReadMessages r) (pushCalls r).
Definition set_unpushedReadMessages v (r : Fields) : Fields :=
  mkFields (pendingRead r) (pendingWrite r) (pendingWriteCallback r)
           (pendingFinalCallback r) (isReadFilterPending r) (canPush r) v
           (unfilteredReadMessages r) (pushCalls r).
Definition set_unfilteredReadMessages v (r : Fields) : Fields :=
  mkFields (pendingRead r) (pendingWrite r) (pendingWriteCallback r)
           (pendingFinalCallback r) (isReadFilterPending r) (canPush r)
           (unpushedReadMessages r) v (pushCalls r).
Definition set_pushCalls v (r : Fields) : Fields :=
  mkFields (pendingRead r) (pendingWrite r) (pendingWriteCallback r)
           (pendingFinalCallback r) (isReadFilterPending r) (canPush r)
           (unpushedReadMessages r) (unfilteredReadMessages r) v.

(** The constructor. *)
Definition create : Fields :=
  mkFields false None None None false false [] [] O.

(** A method of the status side. *)
Definition liftCall {A} (c : CallStream.W A) : W A :=
  fun w =>
    match c (base w) with
    | (r, b', evs) => (r, mkWorld b' (fields w), map OfCall evs)
    end.

Definition finalStatus (w : World) : option StatusObject :=
  CallStream.finalStatus (CallStream.call (base w)).

Definition http2Stream (w : World) : option CallStream.StreamId :=
  CallStream.http2Stream (CallStream.call (base w)).

(** [this.http2Stream.pause()] and the like: a method of [null] throws. *)
Definition onStream (method : string) (e : Event) : W unit :=
  st <- gets http2Stream ;;
  match st with
  | Some _ => emit e
  | None => throw ("TypeError: Cannot read property '" ++ method ++ "' of null")
  end.

Section Readable.
(** What the calls of [this.push] return, in order: whether the reader
    takes more. *)
Variable push_returns : nat -> bool.

Definition push (message : option Message) : W bool :=
  n <- gets (fun w => pushCalls (fields w)) ;;
  modify (on_fields (set_pushCalls (S n))) ;;
  emit (Push message) ;;
  ret (push_returns n).

Definition filterReceivedMessage (framedMessage : option Message) : W unit :=
  fs <- gets finalStatus ;;
  match fs with
  | Some _ => ret tt
  | None =>
      match framedMessage with
      | None =>
          cp <- gets (fun w => canPush (fields w)) ;;
          if cp then
            _ <- push None ;; ret tt
          else
            modify (on_fields (fun r =>
              set_unpushedReadMessages (unpushedReadMessages r ++ [None]) r))
      | Some m =>
          modify (on_fields (set_isReadFilterPending true)) ;;
          emit (FilterReceiveMessage m)
      end
  end.

Definition handleFilteredRead (message : Message) : W unit :=
  fs <- gets finalStatus ;;
  match fs with
  | Some _ => ret tt
  | None =>
      modify (on_fields (set_isReadFilterPending false)) ;;
      cp <- gets (fun w => canPush (fields w)) ;;
      (if cp then
         more <- push (Some message) ;;
         if negb more then
           modify (on_fields (set_canPush false)) ;;
           onStream "pause" StreamPause
         else ret tt
       else
         modify (on_fields (fun r =>
           set_unpushedReadMessages (unpushedReadMessages r ++ [Some message]) r))) ;;
      unfiltered <- gets (fun w => unfilteredReadMessages (fields w)) ;;
      match unfiltered with
      | nextMessage :: rest =>
          modify (on_fields (set_unfilteredReadMessages rest)) ;;
          filterReceivedMessage nextMessage
      | [] => ret tt
      end
  end.

Definition handleFilterError (msg : string) : W unit :=
  liftCall (CallStream.handleFilterError msg).

Definition tryPush (messageBytes : option Message) : W unit :=
  pending <- gets (fun w => isReadFilterPending (fields w)) ;;
  if pending then
    modify (on_fields (fun r =>
      set_unfilteredReadMessages (unfilteredReadMessages r ++ [messageBytes]) r))
  else filterReceivedMessage messageBytes.

(** The ['data'] handler; [messages] is what [this.decoder.write(data)]
    returns. *)
Definition onData (messages : list Message) : W unit :=
  for_each messages (fun message => tryPush (Some message)).

(** The ['end'] handler. *)
Definition onEnd : W unit := tryPush None.

(** The [while] loop of [_read], over the messages that wait; it leaves
    through its [return], or at the empty queue, and then resumes the
    stream. *)
Fixpoint readLoop (waiting : list (option Message)) : W unit :=
  match waiting with
  | [] => onStream "resume" StreamResume
  | nextMessage :: rest =>
      modify (on_fields (set_unpushedReadMessages rest)) ;;
      more <- push nextMessage ;;
      modify (on_fields (set_canPush more)) ;;
      if match nextMessage with None => true | Some _ => false end || negb more
      then modify (on_fields (set_canPush false))
      else readLoop rest
  end.

Definition _read : W unit :=
  fs <- gets finalStatus ;;
  match fs with
  | Some _ => _ <- push None ;; ret tt
  | None =>
      modify (on_fields (set_canPush true)) ;;
      st <- gets http2Stream ;;
      match st with
      | None => modify (on_fields (set_pendingRead true))
      | Some _ =>
          waiting <- gets (fun w => unpushedReadMessages (fields w)) ;;
          readLoop waiting
      end
  end.

(** [_write] up to the filters; they answer in [sendFiltered]. *)
Definition _write (chunk : Message) : W unit :=
  emit (FilterSendMessage chunk).

(** [filterStack.sendMessage] has finished, for the [_write] whose callback
    is [cb]. *)
Definition sendFiltered (r : result Message) (cb : Callback) : W unit :=
  match r with
  | Ok message =>
      st <- gets http2Stream ;;
      match st with
      | None =>
          modify (on_fields (set_pendingWrite (Some message))) ;;
          modify (on_fields (set_pendingWriteCallback (Some cb)))
      | Some _ => emit (StreamWrite message cb)
      end
  | Throw msg => handleFilterError msg
  end.

Definition _final (cb : Callback) : W unit :=
  st <- gets http2Stream ;;
  match st with
  | None => modify (on_fields (set_pendingFinalCallback (Some cb)))
  | Some _ => emit (StreamEnd cb)
  end.

(** [attachHttp2Stream]: the part of [CallStream], and, where a stream is
    attached, what follows the handlers. *)
Definition attachHttp2Stream (stream : CallStream.StreamId) : W unit :=
  fs <- gets finalStatus ;;
  liftCall (CallStream.attachHttp2Stream stream) ;;
  match fs with
  | Some _ => ret tt
  | None =>
      pr <- gets (fun w => pendingRead (fields w)) ;;
      (if negb pr then emit StreamPause else ret tt) ;;
      pw <- gets (fun w => pendingWrite (fields w)) ;;
      match pw with
      | Some message =>
          cb <- gets (fun w => pendingWriteCallback (fields w)) ;;
          match cb with
          | None => throw "Invalid state in write handling code"
          | Some cb => emit (StreamWrite message cb)
          end
      | None => ret tt
      end ;;
      pf <- gets (fun w => pendingFinalCallback (fields w)) ;;
      match pf with
      | Some cb => emit (StreamEnd cb)
      | None => ret tt
      end
  end.

Inductive Op : Type :=
| OpStatus (op : CallStream.Op)
| OpData (messages : list Message)
| OpEnd
| OpFilteredRead (message : Message)
| OpFilterError (msg : string)
| OpRead
| OpWrite (chunk : Message)
| OpSendFiltered (r : result Message) (cb : Callback)
| OpFinal (cb : Callback).

(** The handlers of the HTTP/2 stream exist once a stream is attached. *)
Definition ifAttached (c : W unit) : W unit :=
  st <- gets http2Stream ;;
  match st with
  | Some _ => c
  | None => ret tt
  end.

(** One turn of the event loop: the handler, then the jobs that became
    ready. *)
Definition perform (op : Op) : W unit :=
  match op with
  | OpStatus (CallStream.OpAttach stream) =>
      attachHttp2Stream stream ;; liftCall CallStream.microtasks
  | OpStatus op' => liftCall (CallStream.perform op')
  | OpData messages => ifAttached (onData messages) ;; liftCall CallStream.microtasks
  | OpEnd => ifAttached onEnd ;; liftCall CallStream.microtasks
  | OpFilteredRead message =>
      handleFilteredRead message ;; liftCall CallStream.microtasks
  | OpFilterError msg => handleFilterError msg ;; liftCall CallStream.microtasks
  | OpRead => _read ;; liftCall CallStream.microtasks
  | OpWrite chunk => _write chunk ;; liftCall CallStream.microtasks
  | OpSendFiltered r cb => sendFiltered r cb ;; liftCall CallStream.microtasks
  | OpFinal cb => _final cb ;; liftCall CallStream.microtasks
  end.

Definition step (op : Op) (w : World) : World := state_of (perform op w).

Definition run (ops : list Op) (w : World) : World :=
  fold_left (fun w op => step op w) ops w.

(** What a history of operations does to the outside. *)
Fixpoint trace (ops : list Op) (w : World) : list Event :=
  match ops with
  | [] => []
  | op :: ops' => events_of (perform op w) ++ trace ops' (step op w)
  end.
End Readable.

(** ** Vocabulary of the statements *)

(** What was handed to the reader. *)
Fixpoint pushes (evs : list Event) : list (option Message) :=
  match evs with
  | [] => []
  | Push m :: evs' => m :: pushes evs'
  | _ :: evs' => pushes evs'
  end.

(** What was given to the filters of received messages. *)
Fixpoint filter_inputs (evs : list Event) : list Message :=
  match evs with
  | [] => []
  | FilterReceiveMessage m :: evs' => m :: filter_inputs evs'
  | _ :: evs' => filter_inputs evs'
  end.

(** The messages of a queue, without the mark of the end. *)
Fixpoint messages_of (q : list (option Message)) : list Message :=
  match q with
  | [] => []
  | Some m :: q' => m :: messages_of q'
  | None :: q' => messages_of q'
  end.

(** The messages the filters gave back in a history. *)
Fixpoint filtered (ops : list Op) : list Message :=
  match ops with
  | [] => []
  | OpFilteredRead m :: ops' => m :: filtered ops'
  | _ :: ops' => filtered ops'
  end.

(** The messages the decoder produced in a history. *)
Fixpoint decoded (ops : list Op) : list Message :=
  match ops with
  | [] => []
  | OpData ms :: ops' => ms ++ decoded ops'
  | _ :: ops' => decoded ops'
  end.

(** The calls of [_read] in a history. *)
Fixpoint reads (ops : list Op) : nat :=
  match ops with
  | [] => O
  | OpRead :: ops' => S (reads ops')
  | _ :: ops' => reads ops'
  end.

(** Whether nothing arrives on the stream after its end: [ended] says
    whether the end has been seen. *)
Fixpoint end_is_last (ended : bool) (ops : list Op) : bool :=
  match ops with
  | [] => true
  | OpData _ :: ops' => negb ended && end_is_last ended ops'
  | OpEnd :: ops' => negb ended && end_is_last true ops'
  | _ :: ops' => end_is_last ended ops'
  end.

(** A call stream attached to a READY subchannel, with nothing read or
    written yet. *)
Definition attached_stream : World :=
  mkWorld CallStream.attached_call create.

(** A rule for what a piece of code may do, from the world before to the
    world after with the events in between. *)
Definition Rule : Type := World -> World -> list Event -> Prop.

Definition respects {A} (R : Rule) (c : W A) : Prop :=
  forall w, R w (state_of (c w)) (events_of (c w)).

(** Code that leaves the way to the filters alone. *)
Definition idle_rule : Rule := fun w w' evs =>
  (finalStatus w <> None -> finalStatus w' <> None)
  /\ (http2Stream w <> None -> http2Stream w' <> None)
  /\ isReadFilterPending (fields w') = isReadFilterPending (fields w)
  /\ unfilteredReadMessages (fields w') = unfilteredReadMessages (fields w)
  /\ filter_inputs evs = [].

Definition is_message (mb : option Message) : Prop := mb <> None.

(** Messages wait for the filters only while one is with them, and the
    mark of the end, if it has been [seen], is the last to wait. *)
Definition lined_up (seen : bool) (w : World) : Prop :=
  (isReadFilterPending (fields w) = false -> unfilteredReadMessages (fields w) = [])
  /\ Forall is_message
       (if seen then removelast (unfilteredReadMessages (fields w))
        else unfilteredReadMessages (fields w)).

(** Code that gives to the filters, or keeps for them, the messages [add]
    and those that were waiting, in order, as long as the call has not
    ended; [seen] says whether the end of the stream was seen before, and
    [seen'] whether it has been since. *)
Definition feed_rule (seen seen' : bool) (add : list Message) : Rule :=
  fun w w' evs =>
  (finalStatus w <> None -> finalStatus w' <> None)
  /\ (http2Stream w <> None -> http2Stream w' <> None)
  /\ (finalStatus w' = None -> http2Stream w <> None -> lined_up seen w ->
      lined_up seen' w'
      /\ filter_inputs evs ++ messages_of (unfilteredReadMessages (fields w'))
         = messages_of (unfilteredReadMessages (fields w)) ++ add).

(** The reader is asked for more only when nothing waits for it. *)
Definition tidy (w : World) : Prop :=
  canPush (fields w) = true -> unpushedReadMessages (fields w) = [].

(** Code that hands on to the reader, or keeps for it, the messages [add]
    and those that were waiting, in order, as long as the call has not
    ended. *)
Definition flow_rule (add : list Message) : Rule := fun w w' evs =>
  (finalStatus w <> None -> finalStatus w' <> None)
  /\ (http2Stream w <> None -> http2Stream w' <> None)
  /\ (finalStatus w' = None -> http2Stream w <> None -> tidy w ->
      tidy w'
      /\ messages_of (pushes evs) ++ messages_of (unpushedReadMessages (fields w'))
         = messages_of (unpushedReadMessages (fields w)) ++ add).

(** Code that gives the filters a message only when none is with them;
    [k] is how many they give back meanwhile. *)
Definition one_rule (k : nat) : Rule := fun w w' evs =>
  (List.length (filter_inputs evs) + Nat.b2n (isReadFilterPending (fields w))
   <= k + Nat.b2n (isReadFilterPending (fields w')))%nat.

(** Code that pushes nothing while the reader does not take more. *)
Definition waiting_rule : Rule := fun w w' evs =>
  canPush (fields w) = false ->
  canPush (fields w') = false /\ pushes evs = [].

(** Code that gives an ended call nothing to read but the end, [k] times,
    and its filters nothing. *)
Definition ended_rule (k : nat) : Rule := fun w w' evs =>
  finalStatus w <> None ->
  finalStatus w' <> None
  /\ pushes evs = repeat None k
  /\ filter_inputs evs = [].

(** The calls on the stream, the filters and the reader in an event list:
    all but those the status side makes. *)
Fixpoint own (evs : list Event) : list Event :=
  match evs with
  | [] => []
  | OfCall _ :: evs' => own evs'
  | e :: evs' => e :: own evs'
  end.

(** What waits for a stream: a write that the filters have passed, and the
    end of the writes. *)
Definition early_writes (m : Message) (cb cb' : Callback)
    (stream : CallStream.StreamId) : list Op :=
  [OpSendFiltered (Ok m) cb; OpFinal cb'; OpStatus (CallStream.OpAttach stream)].

(** A reader that always takes more. *)
Definition eager (n : nat) : bool := true.

(** An attached call that has ended. *)
Definition ended_stream : World :=
  mkWorld (CallStream.step (CallStream.OpEndCall CallStream.status_a)
                           CallStream.attached_call)
          create.

(** A call with no stream yet, on a READY subchannel. *)
Definition new_stream : World :=
  mkWorld (CallStream.mkWorld (CallStream.create O) CallStream.ready_subchannel)
          create.

End CallStreamMessages.

(* ===================================================================== *)
(** * Resolving load balancer (resolving-load-balancer.js)

    The load balancers, the resolver and the backoff timer are objects of
    other modules; calls on them are events.  A load balancer is known by
    its identity and its type name.  What these objects call back (the
    channel control helpers, the resolver's listener, the timer's callback)
    is modelled as an operation of its own, taken once the call out that
    led to it has returned; the sources of the balancers are not at hand,
    and a callback run in the middle of a method is outside the model. *)
(* ===================================================================== *)

Module ResolvingLoadBalancer.
Import Eff Eff.Notations.
Local Open Scope eff_scope.

Definition DEFAULT_LOAD_BALANCER_NAME : string := "pick_first".

Record LoadBalancer : Type := mkLB {
  lbId : nat;
  typeName : string
}.

Inductive Picker : Type :=
| UnavailablePicker (status : option StatusObject)
| QueuePicker
| BalancerPicker (n : nat).   (** a picker made by a load balancer *)

(** [previousServiceConfig]: [undefined] until a resolution assigns it,
    then a service config or null. *)
Inductive Previous : Type :=
| Undefined
| Assigned (sc : option ServiceConfig.t).

Inductive Helper : Type := InnerHelper | ReplacementHelper.

Inductive Event : Type :=
| UpdateState (s : ConnectivityState) (p : Picker)
| CreateLoadBalancer (name : string) (helper : Helper)
| UpdateAddressList (lb : nat) (addressList : list string)
    (lbConfig : option ServiceConfig.LoadBalancingConfig)
| Destroy (lb : nat)
| ExitIdle (lb : nat)
| ResetBackoff (lb : nat)
| ReplaceChannelControlHelper (lb : nat)
| ResolverUpdateResolution
| BackoffRunOnce
| BackoffReset.

Record t : Type := mk {
  defaultServiceConfig : option ServiceConfig.t;
  innerLoadBalancer : option LoadBalancer;
  pendingReplacementLoadBalancer : option LoadBalancer;
  currentState : ConnectivityState;
  previousServiceConfig : Previous;
  innerBalancerState : ConnectivityState;
  innerBalancerPicker : Picker;
  replacementBalancerState : ConnectivityState;
  replacementBalancerPicker : Picker;
  continueResolving : bool;
  (** [backoffTimeout.isRunning()] *)
  backoffRunning : bool;
  (** the identity the next load balancer gets *)
  nextBalancer : nat
}.

Definition set_innerLoadBalancer v (s : t) : t :=
  mk (defaultServiceConfig s) v (pendingReplacementLoadBalancer s) (currentState s)
     (previousServiceConfig s) (innerBalancerState s) (innerBalancerPicker s)
     (replacementBalancerState s) (replacementBalancerPicker s)
     (continueResolving s) (backoffRunning s) (nextBalancer s).
Definition set_pendingReplacementLoadBalancer v (s : t) : t :=
  mk (defaultServiceConfig s) (innerLoadBalancer s) v (currentState s)
     (previousServiceConfig s) (innerBalancerState s) (innerBalancerPicker s)
     (replacementBalancerState s) (replacementBalancerPicker s)
     (continueResolving s) (backoffRunning s) (nextBalancer s).
Definition set_currentState v (s : t) : t :=
  mk (defaultServiceConfig s) (innerLoadBalancer s)
     (pendingReplacementLoadBalancer s) v
     (previousServiceConfig s) (innerBalancerState s) (innerBalancerPicker s)
     (replacementBalancerState s) (replacementBalancerPicker s)
     (continueResolving s) (backoffRunning s) (nextBalancer s).
Definition set_previousServiceConfig v (s : t) : t :=
  mk (defaultServiceConfig s) (innerLoadBalancer s)
     (pendingReplacementLoadBalancer s) (currentState s) v
     (innerBalancerState s) (innerBalancerPicker s)
     (replacementBalancerState s) (replacementBalancerPicker s)
     (continueResolving s) (backoffRunning s) (nextBalancer s).
Definition set_innerBalancerState v (s : t) : t :=
  mk (defaultServiceConfig s) (innerLoadBalancer s)
     (pendingReplacementLoadBalancer s) (currentState s)
     (previousServiceConfig s) v (innerBalancerPicker s)
     (replacementBalancerState s) (replacementBalancerPicker s)
     (continueResolving s) (backoffRunning s) (nextBalancer s).
Definition set_innerBalancerPicker v (s : t) : t :=
  mk (defaultServiceConfig s) (innerLoadBalancer s)
     (pendingReplacementLoadBalancer s) (currentState s)
     (previousServiceConfig s) (innerBalancerState s) v
     (replacementBalancerState s) (replacementBalancerPicker s)
     (continueResolving s) (backoffRunning s) (nextBalancer s).
Definition set_replacementBalancerState v (s : t) : t :=
  mk (defaultServiceConfig s) (innerLoadBalancer s)
     (pendingReplacementLoadBalancer s) (currentState s)
     (previousServiceConfig s) (innerBalancerState s) (innerBalancerPicker s)
     v (replacementBalancerPicker s)
     (continueResolving s) (backoffRunning s) (nextBalancer s).
Definition set_replacementBalancerPicker v (s : t) : t :=
  mk (defaultServiceConfig s) (innerLoadBalancer s)
     (pendingReplacementLoadBalancer s) (currentState s)
     (previousServiceConfig s) (innerBalancerState s) (innerBalancerPicker s)
     (replacementBalancerState s) v
     (continueResolving s) (backoffRunning s) (nextBalancer s).
Definition set_continueResolving v (s : t) : t :=
  mk (defaultServiceConfig s) (innerLoadBalancer s)
     (pendingReplacementLoadBalancer s) (currentState s)
     (previousServiceConfig s) (innerBalancerState s) (innerBalancerPicker s)
     (replacementBalancerState s) (replacementBalancerPicker s)
     v (backoffRunning s) (nextBalancer s).
Definition set_backoffRunning v (s : t) : t :=
  mk (defaultServiceConfig s) (innerLoadBalancer s)
     (pendingReplacementLoadBalancer s) (currentState s)
     (previousServiceConfig s) (innerBalancerState s) (innerBalancerPicker s)
     (replacementBalancerState s) (replacementBalancerPicker s)
     (continueResolving s) v (nextBalancer s).
Definition set_nextBalancer v (s : t) : t :=
  mk (defaultServiceConfig s) (innerLoadBalancer s)
     (pendingReplacementLoadBalancer s) (currentState s)
     (previousServiceConfig s) (innerBalancerState s) (innerBalancerPicker s)
     (replacementBalancerState s) (replacementBalancerPicker s)
     (continueResolving s) (backoffRunning s) v.

Definition RLB : Type -> Type := M t Event.

Section WithRegistry.
(** [load-balancer.js] is not among the sources: the registry of load
    balancer types.  [createLoadBalancer] returns a balancer of a
    registered type and null for any other name. *)
Variable isLoadBalancerNameRegistered : string -> bool.

Definition createLoadBalancer (name : string) (helper : Helper)
    : RLB (option LoadBalancer) :=
  if isLoadBalancerNameRegistered name then
    n <- gets nextBalancer ;;
    modify (set_nextBalancer (S n)) ;;
    emit (CreateLoadBalancer name helper) ;;
    ret (Some (mkLB n name))
  else ret None.

Definition updateState (connectivitystate : ConnectivityState) (picker : Picker)
    : RLB unit :=
  modify (set_currentState connectivitystate) ;;
  emit (UpdateState connectivitystate picker).

(** The fields as the constructor leaves them, and its one call out. *)
Definition initial (defaultServiceConfig : option ServiceConfig.t) : t :=
  mk defaultServiceConfig None None IDLE Undefined
     IDLE (UnavailablePicker None) IDLE (UnavailablePicker None)
     false false O.

Definition construct (defaultServiceConfig : option ServiceConfig.t)
    : t * list Event :=
  let r := updateState IDLE QueuePicker (initial defaultServiceConfig) in
  (state_of r, events_of r).

Definition is_null {A} (o : option A) : bool :=
  match o with None => true | Some _ => false end.

Definition handleResolutionFailure (error : StatusObject) : RLB unit :=
  inner <- gets innerLoadBalancer ;;
  ist <- gets innerBalancerState ;;
  when (is_null inner || ConnectivityState_eqb ist IDLE)
       (updateState TRANSIENT_FAILURE (UnavailablePicker (Some error))) ;;
  emit BackoffRunOnce ;;
  modify (set_backoffRunning true).

(** A method call on a load balancer reference that may be null. *)
Definition callOn (lb : option LoadBalancer) (e : nat -> Event) : RLB unit :=
  match lb with
  | Some b => emit (e (lbId b))
  | None => throw "TypeError: Cannot read property of null"
  end.

Definition switchOverReplacementBalancer : RLB unit :=
  inner <- gets innerLoadBalancer ;;
  callOn inner Destroy ;;
  pending <- gets pendingReplacementLoadBalancer ;;
  modify (set_innerLoadBalancer pending) ;;
  inner <- gets innerLoadBalancer ;;
  callOn inner ReplaceChannelControlHelper ;;
  modify (set_pendingReplacementLoadBalancer None) ;;
  rs <- gets replacementBalancerState ;;
  rp <- gets replacementBalancerPicker ;;
  modify (set_innerBalancerState rs) ;;
  modify (set_innerBalancerPicker rp) ;;
  updateState rs rp.

Definition updateResolution : RLB unit :=
  emit ResolverUpdateResolution ;;
  inner <- gets innerLoadBalancer ;;
  ist <- gets innerBalancerState ;;
  when (is_null inner || ConnectivityState_eqb ist IDLE)
       (updateState CONNECTING QueuePicker).

(** The first group of conditionals of [onSuccessfulResolution]: the
    working service config, with its writes to [previousServiceConfig]
    and its call to [handleResolutionFailure]. *)
Definition chooseWorkingServiceConfig
    (serviceConfig : option ServiceConfig.t)
    (serviceConfigError : option StatusObject)
    : RLB (option ServiceConfig.t) :=
  match serviceConfig with
  | None =>
      match serviceConfigError with
      | None =>
          modify (set_previousServiceConfig (Assigned serviceConfig)) ;;
          gets defaultServiceConfig
      | Some error =>
          prev <- gets previousServiceConfig ;;
          match prev with
          | Undefined =>
              d <- gets defaultServiceConfig ;;
              match d with
              | None => handleResolutionFailure error ;; ret None
              | Some _ => ret d
              end
          | Assigned p => ret p
          end
      end
  | Some _ =>
      modify (set_previousServiceConfig (Assigned serviceConfig)) ;;
      ret serviceConfig
  end.

(** The first own key of an entry that names a registered type. *)
Definition registeredKey (lbConfig : ServiceConfig.LoadBalancingConfig)
    : option string :=
  option_map fst (find (fun kv => isLoadBalancerNameRegistered (fst kv)) lbConfig).

(** The two nested loops over [loadBalancingConfig]. *)
Fixpoint findLoadBalancer (configs : list ServiceConfig.LoadBalancingConfig)
    : option (string * ServiceConfig.LoadBalancingConfig) :=
  match configs with
  | [] => None
  | lbConfig :: rest =>
      match registeredKey lbConfig with
      | Some key => Some (key, lbConfig)
      | None => findLoadBalancer rest
      end
  end.

Definition applyLoadBalancer (loadBalancerName : string)
    (loadBalancingConfig : option ServiceConfig.LoadBalancingConfig)
    (addressList : list string) : RLB unit :=
  inner <- gets innerLoadBalancer ;;
  match inner with
  | None =>
      lb <- createLoadBalancer loadBalancerName InnerHelper ;;
      modify (set_innerLoadBalancer lb) ;;
      callOn lb (fun b => UpdateAddressList b addressList loadBalancingConfig)
  | Some cur =>
      if String.eqb (typeName cur) loadBalancerName then
        emit (UpdateAddressList (lbId cur) addressList loadBalancingConfig)
      else
        pending <- gets pendingReplacementLoadBalancer ;;
        (if match pending with
             | None => true
             | Some p => negb (String.eqb (typeName p) loadBalancerName)
             end
         then
           match pending with
           | Some p => emit (Destroy (lbId p))
           | None => ret tt
           end ;;
           lb <- createLoadBalancer loadBalancerName ReplacementHelper ;;
           modify (set_pendingReplacementLoadBalancer lb)
         else ret tt) ;;
        pending <- gets pendingReplacementLoadBalancer ;;
        callOn pending (fun b => UpdateAddressList b addressList loadBalancingConfig)
  end.

Definition onSuccessfulResolution (addressList : list string)
    (serviceConfig : option ServiceConfig.t)
    (serviceConfigError : option StatusObject) : RLB unit :=
  workingServiceConfig <- chooseWorkingServiceConfig serviceConfig serviceConfigError ;;
  match workingServiceConfig with
  | None => applyLoadBalancer DEFAULT_LOAD_BALANCER_NAME None addressList
  | Some cfg =>
      match ServiceConfig.loadBalancingConfig cfg with
      | [] => applyLoadBalancer DEFAULT_LOAD_BALANCER_NAME None addressList
      | configs =>
          match findLoadBalancer configs with
          | Some (name, lbConfig) => applyLoadBalancer name (Some lbConfig) addressList
          | None =>
              handleResolutionFailure
                (mkStatus UNAVAILABLE
                   "All load balancer options in service config are not compatible"
                   [])
          end
      end
  end.

Definition onError (error : StatusObject) : RLB unit :=
  handleResolutionFailure error.

(** [innerChannelControlHelper.updateState] *)
Definition innerUpdateState (connectivityState : ConnectivityState)
    (picker : Picker) : RLB unit :=
  modify (set_innerBalancerState connectivityState) ;;
  let picker :=
    if ConnectivityState_eqb connectivityState IDLE then QueuePicker else picker in
  modify (set_innerBalancerPicker picker) ;;
  pending <- gets pendingReplacementLoadBalancer ;;
  if negb (ConnectivityState_eqb connectivityState READY) && negb (is_null pending)
  then switchOverReplacementBalancer
  else
    (if ConnectivityState_eqb connectivityState IDLE then
       inner <- gets innerLoadBalancer ;;
       match inner with
       | Some b => emit (Destroy (lbId b)) ;; modify (set_innerLoadBalancer None)
       | None => ret tt
       end
     else ret tt) ;;
    updateState connectivityState picker.

Definition requestOrDefer : RLB unit :=
  running <- gets backoffRunning ;;
  if running then modify (set_continueResolving true) else updateResolution.

(** [innerChannelControlHelper.requestReresolution] *)
Definition innerRequestReresolution : RLB unit :=
  pending <- gets pendingReplacementLoadBalancer ;;
  if is_null pending then requestOrDefer else ret tt.

(** [replacementChannelControlHelper.updateState] *)
Definition replacementUpdateState (connectivityState : ConnectivityState)
    (picker : Picker) : RLB unit :=
  let picker :=
    if ConnectivityState_eqb connectivityState IDLE then QueuePicker else picker in
  modify (set_replacementBalancerState connectivityState) ;;
  modify (set_replacementBalancerPicker picker) ;;
  if ConnectivityState_eqb connectivityState READY then switchOverReplacementBalancer
  else if ConnectivityState_eqb connectivityState IDLE then
    pending <- gets pendingReplacementLoadBalancer ;;
    match pending with
    | Some b =>
        emit (Destroy (lbId b)) ;;
        modify (set_pendingReplacementLoadBalancer None)
    | None => ret tt
    end
  else ret tt.

(** [replacementChannelControlHelper.requestReresolution] *)
Definition replacementRequestReresolution : RLB unit := requestOrDefer.

(** The callback of [backoffTimeout]; the timer stops running once its
    callback has returned. *)
Definition backoffCallback : RLB unit :=
  cr <- gets continueResolving ;;
  (if cr then
     updateResolution ;;
     modify (set_continueResolving false)
   else
     inner <- gets innerLoadBalancer ;;
     if is_null inner then updateState IDLE QueuePicker
     else
       ist <- gets innerBalancerState ;;
       ip <- gets innerBalancerPicker ;;
       updateState ist ip) ;;
  modify (set_backoffRunning false).

Definition exitIdle : RLB unit :=
  inner <- gets innerLoadBalancer ;;
  match inner with
  | Some b => emit (ExitIdle (lbId b))
  | None => ret tt
  end ;;
  cs <- gets currentState ;;
  if ConnectivityState_eqb cs IDLE then
    requestOrDefer ;;
    updateState CONNECTING QueuePicker
  else ret tt.

Definition resetBackoff : RLB unit :=
  emit BackoffReset ;;
  inner <- gets innerLoadBalancer ;;
  match inner with
  | Some b => emit (ResetBackoff (lbId b))
  | None => ret tt
  end ;;
  pending <- gets pendingReplacementLoadBalancer ;;
  match pending with
  | Some b => emit (ResetBackoff (lbId b))
  | None => ret tt
  end.

Definition destroy : RLB unit :=
  inner <- gets innerLoadBalancer ;;
  match inner with
  | Some b => emit (Destroy (lbId b)) ;; modify (set_innerLoadBalancer None)
  | None => ret tt
  end ;;
  pending <- gets pendingReplacementLoadBalancer ;;
  match pending with
  | Some b =>
      emit (Destroy (lbId b)) ;;
      modify (set_pendingReplacementLoadBalancer None)
  | None => ret tt
  end ;;
  updateState SHUTDOWN (UnavailablePicker None).

Inductive Op : Type :=
| OpSuccessfulResolution (addressList : list string)
    (serviceConfig : option ServiceConfig.t)
    (serviceConfigError : option StatusObject)
| OpError (error : StatusObject)
| OpInnerUpdateState (s : ConnectivityState) (p : Picker)
| OpInnerRequestReresolution
| OpReplacementUpdateState (s : ConnectivityState) (p : Picker)
| OpReplacementRequestReresolution
| OpBackoffCallback
| OpUpdateResolution
| OpSwitchOverReplacementBalancer
| OpHandleResolutionFailure (error : StatusObject)
| OpExitIdle
| OpResetBackoff
| OpDestroy.

Definition perform (op : Op) : RLB unit :=
  match op with
  | OpSuccessfulResolution a sc e => onSuccessfulResolution a sc e
  | OpError e => onError e
  | OpInnerUpdateState s p => innerUpdateState s p
  | OpInnerRequestReresolution => innerRequestReresolution
  | OpReplacementUpdateState s p => replacementUpdateState s p
  | OpReplacementRequestReresolution => replacementRequestReresolution
  | OpBackoffCallback => backoffCallback
  | OpUpdateResolution => updateResolution
  | OpSwitchOverReplacementBalancer => switchOverReplacementBalancer
  | OpHandleResolutionFailure e => handleResolutionFailure e
  | OpExitIdle => exitIdle
  | OpResetBackoff => resetBackoff
  | OpDestroy => destroy
  end.

(** The object after an operation; a throw leaves it as it was at the
    point of the throw. *)
Definition step (op : Op) (s : t) : t := state_of (perform op s).

Definition run (ops : list Op) (s : t) : t :=
  fold_left (fun s op => step op s) ops s.

(** [innerLoadBalancer === null => pendingReplacementLoadBalancer === null] *)
Definition invariant (s : t) : Prop :=
  innerLoadBalancer s = None -> pendingReplacementLoadBalancer s = None.
End WithRegistry.

(** ** The selection algorithm of section 4.6, as the specification words it

    There the previous service config is either set or not; step 2 clears
    it. *)

Inductive Choice : Type :=
| Use (working : option ServiceConfig.t)
| Failure (error : StatusObject).

Definition spec_select (default previous serviceConfig : option ServiceConfig.t)
    (serviceConfigError : option StatusObject)
    : Choice * option ServiceConfig.t :=
  match serviceConfig with
  | Some sc => (Use (Some sc), Some sc)
  | None =>
      match serviceConfigError with
      | None => (Use default, None)
      | Some error =>
          match previous with
          | Some p => (Use (Some p), previous)
          | None =>
              match default with
              | Some d => (Use (Some d), previous)
              | None => (Failure error, previous)
              end
          end
      end
  end.

(** A successful resolution event. *)
Record Resolution : Type := mkResolution {
  resAddressList : list string;
  resServiceConfig : option ServiceConfig.t;
  resError : option StatusObject
}.

Definition spec_previous (default : option ServiceConfig.t)
    (history : list Resolution) : option ServiceConfig.t :=
  fold_left
    (fun prev ev => snd (spec_select default prev (resServiceConfig ev) (resError ev)))
    history None.

(** What the code chooses in a state: the working service config it goes
    on with, or the failure it handles. *)
Definition code_choice (s : t) (serviceConfig : option ServiceConfig.t)
    (serviceConfigError : option StatusObject) : Choice :=
  match chooseWorkingServiceConfig serviceConfig serviceConfigError s with
  | (Ok working, _, evs) =>
      if existsb (fun e => match e with BackoffRunOnce => true | _ => false end) evs
      then match serviceConfigError with
           | Some error => Failure error
           | None => Use working
           end
      else Use working
  | (Throw _, _, _) => Use None
  end.

Definition resolutions (history : list Resolution) : list Op :=
  map (fun ev =>
         OpSuccessfulResolution (resAddressList ev) (resServiceConfig ev) (resError ev))
      history.

(** The successful resolutions among the operations of a history. *)
Definition resolutions_of (ops : list Op) : list Resolution :=
  flat_map
    (fun op =>
       match op with
       | OpSuccessfulResolution a sc e => [mkResolution a sc e]
       | _ => []
       end)
    ops.

(** The claim as the specification words it: after any history of
    resolutions, the code chooses what the three steps choose. *)
Definition selection_follows_spec : Prop :=
  forall (registered : string -> bool) (default : option ServiceConfig.t)
         (history : list Resolution)
         (serviceConfig : option ServiceConfig.t)
         (serviceConfigError : option StatusObject),
    code_choice (run registered (resolutions history) (initial default))
                serviceConfig serviceConfigError
    = fst (spec_select default (spec_previous default history)
                       serviceConfig serviceConfigError).

(** The selection the code makes, with [previousServiceConfig] in its three
    forms: step 2 assigns null, and an assigned null is then used like any
    other previous value. *)
Definition code_select (default : option ServiceConfig.t) (previous : Previous)
    (serviceConfig : option ServiceConfig.t)
    (serviceConfigError : option StatusObject) : Choice * Previous :=
  match serviceConfig with
  | Some sc => (Use (Some sc), Assigned (Some sc))
  | None =>
      match serviceConfigError with
      | None => (Use default, Assigned None)
      | Some error =>
          match previous with
          | Assigned p => (Use p, previous)
          | Undefined =>
              match default with
              | Some d => (Use (Some d), previous)
              | None => (Failure error, previous)
              end
          end
      end
  end.

Definition code_previous (default : option ServiceConfig.t)
    (history : list Resolution) : Previous :=
  fold_left
    (fun prev ev => snd (code_select default prev (resServiceConfig ev) (resError ev)))
    history Undefined.

(** ** Examples *)

(** A registry with the two usual policies. *)
Definition two_policies (name : string) : bool :=
  String.eqb name "pick_first" || String.eqb name "round_robin".

Definition round_robin_config : ServiceConfig.t :=
  ServiceConfig.mk [[("round_robin", "{}")]] [].

Definition txt_failed : StatusObject := mkStatus UNAVAILABLE "TXT query failed" [].

(** A READY pick-first balancer with a round-robin replacement pending. *)
Definition swapping : t :=
  run two_policies
      [OpSuccessfulResolution ["10.0.0.1:80"] None None;
       OpInnerUpdateState READY (BalancerPicker 0);
       OpSuccessfulResolution ["10.0.0.1:80"] (Some round_robin_config) None]
      (fst (construct None)).

(** ** Histories and what they do to the outside *)

(** The status of a service config none of whose policies is supported. *)
Definition incompatible : StatusObject :=
  mkStatus UNAVAILABLE
    "All load balancer options in service config are not compatible" [].

(** What [handleResolutionFailure] shows the channel: TRANSIENT_FAILURE
    with the error, when there is no inner balancer or it is IDLE. *)
Definition failure_report (error : StatusObject) (s : t) : list Event :=
  if is_null (innerLoadBalancer s) || ConnectivityState_eqb (innerBalancerState s) IDLE
  then [UpdateState TRANSIENT_FAILURE (UnavailablePicker (Some error))]
  else [].

(** The calls of [innerResolver.updateResolution] an event list records. *)
Fixpoint resolver_updates (evs : list Event) : nat :=
  match evs with
  | [] => 0%nat
  | ResolverUpdateResolution :: evs' => S (resolver_updates evs')
  | _ :: evs' => resolver_updates evs'
  end.

(** A request of a load balancer for a new resolution. *)
Definition is_request (op : Op) : Prop :=
  op = OpInnerRequestReresolution \/ op = OpReplacementRequestReresolution.

(** Whether a request for a new resolution is heeded: one of the
    replacement balancer always, one of the inner balancer only while no
    replacement is pending. *)
Definition heeded (s : t) (op : Op) : bool :=
  match op with
  | OpReplacementRequestReresolution => true
  | OpInnerRequestReresolution => is_null (pendingReplacementLoadBalancer s)
  | _ => false
  end.

(** The load balancers whose methods an event list calls. *)
Fixpoint targets (evs : list Event) : list nat :=
  match evs with
  | [] => []
  | (UpdateAddressList lb _ _ | Destroy lb | ExitIdle lb | ResetBackoff lb
     | ReplaceChannelControlHelper lb) :: evs' => lb :: targets evs'
  | _ :: evs' => targets evs'
  end.

(** The load balancers an event list destroys. *)
Fixpoint destroyed (evs : list Event) : list nat :=
  match evs with
  | [] => []
  | Destroy lb :: evs' => lb :: destroyed evs'
  | _ :: evs' => destroyed evs'
  end.

(** No method of a load balancer is called after its [destroy]. *)
Fixpoint well_used (evs : list Event) : Prop :=
  match evs with
  | [] => True
  | e :: evs' =>
      match e with
      | Destroy lb => ~ In lb (targets evs')
      | _ => True
      end /\ well_used evs'
  end.

Definition ids (o : option LoadBalancer) : list nat :=
  match o with
  | Some b => [lbId b]
  | None => []
  end.

(** The load balancers the object holds. *)
Definition live (s : t) : list nat :=
  ids (innerLoadBalancer s) ++ ids (pendingReplacementLoadBalancer s).

(** The two balancers are different objects, made before the next one. *)
Definition live_ok (s : t) : Prop :=
  NoDup (live s) /\ forall lb, In lb (live s) -> (lb < nextBalancer s)%nat.

(** What one operation keeps: it calls balancers it holds or has just
    made, holds afterwards none it has destroyed, and calls none after
    destroying it. *)
Definition lifecycle_step (s s' : t) (evs : list Event) : Prop :=
  (nextBalancer s <= nextBalancer s')%nat
  /\ (forall lb, In lb (targets evs) ->
        In lb (live s) \/ (nextBalancer s <= lb < nextBalancer s')%nat)
  /\ live_ok s'
  /\ (forall lb, In lb (live s') ->
        ~ In lb (destroyed evs) /\ (In lb (live s) \/ (nextBalancer s <= lb)%nat))
  /\ well_used evs.

Section History.
Variable registered : string -> bool.

(** No own key of the entry names a registered type. *)
Definition unsupported (lbConfig : ServiceConfig.LoadBalancingConfig) : Prop :=
  Forall (fun kv => registered (fst kv) = false) lbConfig.

(** What a history of operations does to the outside. *)
Fixpoint trace (ops : list Op) (s : t) : list Event :=
  match ops with
  | [] => []
  | op :: ops' =>
      events_of (perform registered op s) ++ trace ops' (step registered op s)
  end.

End History.

(** A pick-first balancer that is READY, after a first resolution. *)
Definition serving : t :=
  run two_policies
      [OpSuccessfulResolution ["10.0.0.1:80"] None None;
       OpInnerUpdateState READY (BalancerPicker 0)]
      (fst (construct None)).

(** A resolving load balancer backing off after a failed resolution. *)
Definition backing_off : t :=
  run two_policies [OpError txt_failed] (fst (construct None)).

End ResolvingLoadBalancer.

(* ===================================================================== *)
(** * Channel (channel.js)

    Picking, the pick queue and the connectivity-state watchers of
    [ChannelImplementation].  Call streams, subchannels, filters and timers
    are other objects; calls on them are events.  A picker is the function
    of its [pick] method. *)
(* ===================================================================== *)

Module Channel.
Import Eff Eff.Notations.
Local Open Scope eff_scope.

(** [picker.js] is not among the sources: the result of a pick. *)
Module PickResultType.
Inductive t : Type := COMPLETE | QUEUE | TRANSIENT_FAILURE.
End PickResultType.

Definition CallId : Type := nat.
Definition CallbackId : Type := nat.
Definition WatcherId : Type := nat.

Record PickResult : Type := mkPick {
  pickResultType : PickResultType.t;
  (** the subchannel picked, [None] for null *)
  subchannel : option Subchannel.t;
  status : option StatusObject
}.

(** The metadata of a call with its options. *)
Record CallMetadata : Type := mkCallMetadata {
  entries : Metadata;
  waitForReady : bool
}.

Definition Picker : Type := CallMetadata -> PickResult.

Record Watcher : Type := mkWatcher {
  watcherId : WatcherId;       (** the identity of [watcherObject]; also names its timer *)
  watchedState : ConnectivityState;   (** [currentState] *)
  callback : CallbackId
}.

Record t : Type := mk {
  connectivityState : ConnectivityState;
  currentPicker : Picker;
  pickQueue : list (CallId * CallMetadata);
  connectivityStateWatchers : list Watcher;
  nextWatcher : WatcherId
}.

Definition deadlinePassed : string :=
  "Deadline passed without connectivity state change".

Inductive Event : Type :=
| CancelWithStatus (c : CallId) (code : Status) (details : string)
| SendMetadata (c : CallId) (md : CallMetadata)
| StartCallStream (c : CallId) (finalMetadata : Metadata)
| NextTick (cb : CallbackId) (error : string)
| Invoke (cb : CallbackId) (error : option string)
| SetTimeout (w : WatcherId) (ms : option Z)   (** [None] is NaN *)
| ClearTimeout (w : WatcherId)
| DestroyResolvingLoadBalancer
| ExitIdleResolvingLoadBalancer
| UnrefUnusedSubchannels.

Definition Ch : Type -> Type := M t Event.

Definition set_connectivityState v (s : t) : t :=
  mk v (currentPicker s) (pickQueue s) (connectivityStateWatchers s) (nextWatcher s).
Definition set_currentPicker v (s : t) : t :=
  mk (connectivityState s) v (pickQueue s) (connectivityStateWatchers s) (nextWatcher s).
Definition set_pickQueue v (s : t) : t :=
  mk (connectivityState s) (currentPicker s) v (connectivityStateWatchers s) (nextWatcher s).
Definition set_connectivityStateWatchers v (s : t) : t :=
  mk (connectivityState s) (currentPicker s) (pickQueue s) v (nextWatcher s).

(** The fields as the first statements of the constructor set them, before
    the resolving load balancer is constructed; [unavailable] is
    [new UnavailablePicker()]. *)
Definition initial (unavailable : Picker) : t := mk IDLE unavailable [] [] O.

Definition push (c : CallId) (md : CallMetadata) : Ch unit :=
  q <- gets pickQueue ;;
  modify (set_pickQueue (q ++ [(c, md)])).

Definition tryPick (callStream : CallId) (callMetadata : CallMetadata) : Ch unit :=
  picker <- gets currentPicker ;;
  let pickResult := picker callMetadata in
  match pickResultType pickResult with
  | PickResultType.COMPLETE =>
      match subchannel pickResult with
      | None =>
          emit (CancelWithStatus callStream UNAVAILABLE
                  "Request dropped by load balancing policy")
      | Some _ => emit (SendMetadata callStream callMetadata)
      end
  | PickResultType.QUEUE => push callStream callMetadata
  | PickResultType.TRANSIENT_FAILURE =>
      if waitForReady callMetadata then push callStream callMetadata
      else
        match status pickResult with
        | Some st => emit (CancelWithStatus callStream (code st) (details st))
        | None => throw "TypeError: Cannot read property 'code' of undefined"
        end
  end.




(** [findIndex(value => value === watcherObject)] then [splice]. *)
Fixpoint remove_watcher (w : WatcherId) (ws : list Watcher) : list Watcher :=
  match ws with
  | [] => []
  | x :: ws' => if Nat.eqb (watcherId x) w then ws' else x :: remove_watcher w ws'
  end.

Definition removeConnectivityStateWatcher (w : Watcher) : Ch unit :=
  ws <- gets connectivityStateWatchers ;;
  modify (set_connectivityStateWatchers (remove_watcher (watcherId w) ws)).

Definition updateState (newState : ConnectivityState) : Ch unit :=
  modify (set_connectivityState newState) ;;
  watchersCopy <- gets connectivityStateWatchers ;;
  for_each watchersCopy
    (fun watcherObject =>
       if negb (ConnectivityState_eqb newState (watchedState watcherObject)) then
         emit (Invoke (callback watcherObject) None) ;;
         emit (ClearTimeout (watcherId watcherObject)) ;;
         removeConnectivityStateWatcher watcherObject
       else ret tt).

(** [channelControlHelper.updateState] *)
Definition helperUpdateState (state : ConnectivityState) (picker : Picker)
    : Ch unit :=
  modify (set_currentPicker picker) ;;
  queueCopy <- gets pickQueue ;;
  modify (set_pickQueue []) ;;
  for_each queueCopy (fun e => tryPick (fst e) (snd e)) ;;
  updateState state.

(** The constructor.  [new ResolvingLoadBalancer(...)] ends its own
    constructor with [this.updateState(IDLE, new QueuePicker(this))]
    (resolving-load-balancer.js:96), which calls
    [channelControlHelper.updateState]: the channel the constructor returns
    holds that picker, [queue], and not the [UnavailablePicker] of the field
    initialiser.  The other statements of the constructor set fields that
    nothing modelled here reads. *)
Definition create (unavailable queue : Picker)
    : result unit * t * list Event :=
  helperUpdateState IDLE queue (initial unavailable).

(** [metadata.js] is not among the sources: [clone] is the function of
    [metadata.clone()]. *)
Definition _startCallStream (clone : CallMetadata -> CallMetadata)
    (stream : CallId) (metadata : CallMetadata) : Ch unit :=
  tryPick stream (clone metadata).

Definition close : Ch unit :=
  emit DestroyResolvingLoadBalancer ;;
  updateState SHUTDOWN ;;
  emit UnrefUnusedSubchannels.

Definition getConnectivityState (tryToConnect : bool) : Ch ConnectivityState :=
  s <- gets connectivityState ;;
  when tryToConnect (emit ExitIdleResolvingLoadBalancer) ;;
  ret s.







(** The timer of a watcher. *)
Definition onWatcherTimeout (w : Watcher) : Ch unit :=
  removeConnectivityStateWatcher w ;;
  emit (Invoke (callback w) (Some deadlinePassed)).

Definition createCall : Ch unit :=
  s <- gets connectivityState ;;
  if ConnectivityState_eqb s SHUTDOWN
  then throw "Channel has been shut down"
  else ret tt.

(** The callbacks an event list invokes directly. *)
Fixpoint invoked (evs : list Event) : list CallbackId :=
  match evs with
  | [] => []
  | Invoke cb _ :: evs' => cb :: invoked evs'
  | _ :: evs' => invoked evs'
  end.

(** ** Vocabulary of the statements *)


Definition no_connection : StatusObject :=
  mkStatus UNAVAILABLE "No connection established" [].

Definition failing_picker : Picker :=
  fun _ => mkPick PickResultType.TRANSIENT_FAILURE None (Some no_connection).


(** The loop of [updateState] over the copy of the watcher list. *)
Definition notify (newState : ConnectivityState) (watcherObject : Watcher)
    : Ch unit :=
  if negb (ConnectivityState_eqb newState (watchedState watcherObject)) then
    bind (emit (Invoke (callback watcherObject) None))
      (fun _ => bind (emit (ClearTimeout (watcherId watcherObject)))
         (fun _ => removeConnectivityStateWatcher watcherObject))
  else ret tt.




(** A channel with one watcher waiting for a change away from IDLE. *)
Definition watched_channel : t :=
  mk IDLE failing_picker [] [mkWatcher O IDLE 1%nat] 1%nat.

(** ** The pick queue and the watchers, as a whole *)

(** Whether a pick with [picker] leaves a call in the queue. *)
Definition stays_queued (picker : Picker) (e : CallId * CallMetadata) : bool :=
  match pickResultType (picker (snd e)) with
  | PickResultType.COMPLETE => false
  | PickResultType.QUEUE => true
  | PickResultType.TRANSIENT_FAILURE => waitForReady (snd e)
  end.

(** The calls an event list cancels or sends on to the filters, in
    order. *)
Fixpoint dispatched (evs : list Event) : list CallId :=
  match evs with
  | [] => []
  | CancelWithStatus c _ _ :: evs' => c :: dispatched evs'
  | SendMetadata c _ :: evs' => c :: dispatched evs'
  | _ :: evs' => dispatched evs'
  end.

(** A picker whose failures carry a status. *)
Definition failures_have_status (picker : Picker) : Prop :=
  forall md,
    pickResultType (picker md) = PickResultType.TRANSIENT_FAILURE ->
    status (picker md) <> None.

(** Whether a watcher waits for a change away from [state]. *)
Definition watches (state : ConnectivityState) (w : Watcher) : bool :=
  ConnectivityState_eqb state (watchedState w).

(** What [updateState] does for the sake of one watcher. *)
Definition notification (state : ConnectivityState) (w : Watcher) : list Event :=
  if watches state w then []
  else [Invoke (callback w) None; ClearTimeout (watcherId w)].

(** A channel with two calls in its queue, of which the first waits for
    ready. *)
Definition queueing_channel : t :=
  mk IDLE failing_picker
     [(1%nat, mkCallMetadata [] true); (2%nat, mkCallMetadata [] false)] [] O.

End Channel.

(* ===================================================================== *)
(** * Properties of the subchannel state machine *)
(* ===================================================================== *)

Module SubchannelFacts.
Import Eff Subchannel.

Example KEEPALIVE_MAX_TIME_MS_value : KEEPALIVE_MAX_TIME_MS = 2147483647.
Proof. reflexivity. Qed.

Lemma transitions_app (a b : list Event) :
  transitions (a ++ b) = transitions a ++ transitions b.
Proof.
  induction a as [|e a IH]; [reflexivity|].
  destruct e; simpl; rewrite ?IH; reflexivity.
Qed.

Lemma for_each_notify (ls : list ListenerId) (a b : ConnectivityState) (s : t) :
  for_each ls (fun (l : nat) (s0 : t) => (Ok tt, s0, [Notify l a b])) s
  = (Ok tt, s, map (fun l => Notify l a b) ls).
Proof.
  induction ls as [|l ls IH]; [reflexivity|].
  simpl. unfold bind at 1. rewrite IH. reflexivity.
Qed.

Lemma transitions_notify (ls : list ListenerId) (a b : ConnectivityState) :
  transitions (map (fun l => Notify l a b) ls) = [].
Proof. induction ls; simpl; auto. Qed.

Ltac sub_eval :=
  repeat (cbv -[for_each transitions map app Z.eqb Z.add Z.sub Z.mul Z.min
                KEEPALIVE_MAX_TIME_MS String.eqb Nat.eqb nth_error code_permits];
          rewrite ?for_each_notify);
  repeat (cbn [transitions app fst snd];
          rewrite ?transitions_app, ?transitions_notify).









(** ** Histories *)

Lemma after_cons (op : Op) (ops : list Op) (s : t) :
  after (op :: ops) s = after ops (state_of (perform op s)).
Proof.
  unfold after. simpl. unfold step.
  destruct (run ops (state_of (perform op s))) as [s2 rest]. reflexivity.
Qed.

Lemma after_invariant (P : t -> Prop) :
  (forall op s, P s -> P (state_of (perform op s))) ->
  forall ops s, P s -> P (after ops s).
Proof.
  intros Hstep ops. induction ops as [|op ops IH]; intros s Hs; [exact Hs|].
  rewrite after_cons. apply IH, Hstep, Hs.
Qed.

Ltac sub_cases :=
  repeat match goal with
    | |- context [Nat.eqb ?a ?b] => destruct (Nat.eqb a b); sub_eval
    | |- context [Z.eqb ?a ?b] => destruct (Z.eqb a b); sub_eval
    | |- context [String.eqb ?a ?b] => destruct (String.eqb a b); sub_eval
    | |- context [@nth_error ?T ?a ?b] => destruct (@nth_error T a b); sub_eval
    end.

Ltac sub_data :=
  try match goal with d : option string |- _ => destruct d end.

(** ** The session and the state *)

Lemma perform_session (op : Op) (s : t) :
  session_matches_state s -> session_matches_state (state_of (perform op s)).
Proof.
  unfold session_matches_state. intros HI.
  destruct s as [cs ses cc sl dl kt kto cr r ns].
  simpl in HI.
  destruct op; unfold perform, state_of.
  all: destruct cs; destruct ses as [sid0|]; try contradiction; try congruence; clear HI.
  all: destruct cc.
  all: sub_data.
  all: sub_eval.
  all: sub_cases.
  all: try congruence.
Qed.

Lemma create_session_matches (kt kto : option Z) :
  session_matches_state (create kt kto).
Proof. reflexivity. Qed.

Lemma reachable_session_matches (kt kto : option Z) (ops : list Op) :
  session_matches_state (after ops (create kt kto)).
Proof.
  apply after_invariant; [exact perform_session|apply create_session_matches].
Qed.



(** X1: whatever the history of a subchannel since its construction, its
    [session] is null exactly when its state is IDLE or TRANSIENT_FAILURE
    (the invariant the constructor's comment states), and its state is
    never SHUTDOWN. *)
Theorem X1_session_matches_state (kt kto : option Z) (ops : list Op) :
  let s := after ops (create kt kto) in
  (session s = None <->
   connectivityState s = IDLE \/ connectivityState s = TRANSIENT_FAILURE)
  /\ connectivityState s <> SHUTDOWN.
Proof.
  intros s.
  pose proof (reachable_session_matches kt kto ops) as H.
  fold s in H. unfold session_matches_state in H.
  destruct (connectivityState s); try contradiction; repeat split;
    try congruence; try tauto.
  all: try (intros [E|E]; discriminate E).
Qed.



(** ** The keepalive time *)

Lemma perform_keepaliveTimeMs (op : Op) (s : t) :
  keepaliveTimeMs (state_of (perform op s)) = keepaliveTimeMs s
  \/ keepaliveTimeMs (state_of (perform op s))
     = Z.min (2 * keepaliveTimeMs s) KEEPALIVE_MAX_TIME_MS.
Proof.
  destruct s as [cs ses cc sl dl kt kto cr r ns].
  destruct op; unfold perform, state_of.
  all: destruct cs; destruct ses as [sid0|]; destruct cc.
  all: sub_data.
  all: sub_eval.
  all: sub_cases.
  all: try (left; reflexivity).
  all: try (right; reflexivity).
Qed.

Lemma perform_keepalive (k0 : Z) (op : Op) (s : t) :
  0 <= k0 ->
  keepalive_within k0 s -> keepalive_within k0 (state_of (perform op s)).
Proof.
  unfold keepalive_within. intros H0 HI.
  destruct (perform_keepaliveTimeMs op s) as [E|E]; rewrite E; [exact HI|].
  change KEEPALIVE_MAX_TIME_MS with 2147483647 in *. lia.
Qed.

Lemma goaway_doubles (s : t) (sid : SessionId) :
  session s = Some sid ->
  keepaliveTimeMs
    (state_of (perform (OpGoaway sid NGHTTP2_ENHANCE_YOUR_CALM (Some tooManyPingsData)) s))
  = Z.min (2 * keepaliveTimeMs s) KEEPALIVE_MAX_TIME_MS.
Proof.
  destruct s as [cs ses cc sl dl kt kto cr r ns]. simpl. intros ->.
  unfold perform, state_of, onGoaway, bind, gets. simpl.
  rewrite Nat.eqb_refl.
  destruct cs; sub_eval; reflexivity.
Qed.

(** X3: with a keepalive time between 0 and the largest timer value
    (2^31 - 1) at construction (the default is that largest value), the
    keepalive time never falls below its initial value and never exceeds
    2^31 - 1, whatever the history; a GOAWAY of the current session with
    ENHANCE_YOUR_CALM and the data "too_many_pings" doubles it, capped at
    2^31 - 1. *)
Theorem X3_keepalive_time_bounds (kt kto : option Z) (ops : list Op) :
  let k0 := keepaliveTimeMs (create kt kto) in
  0 <= k0 <= KEEPALIVE_MAX_TIME_MS ->
  let s := after ops (create kt kto) in
  k0 <= keepaliveTimeMs s <= KEEPALIVE_MAX_TIME_MS
  /\ forall sid,
       session s = Some sid ->
       keepaliveTimeMs
         (state_of (perform (OpGoaway sid NGHTTP2_ENHANCE_YOUR_CALM (Some tooManyPingsData)) s))
       = Z.min (2 * keepaliveTimeMs s) KEEPALIVE_MAX_TIME_MS.
Proof.
  intros k0 H s. split.
  - apply (@after_invariant (keepalive_within k0)).
    + intros op s0. apply perform_keepalive. lia.
    + unfold keepalive_within. fold k0. lia.
  - intros sid. apply goaway_doubles.
Qed.

Lemma X3_keepalive_time_bounds_witness :
  1000 <= keepaliveTimeMs
            (after [OpStartConnecting; OpGoaway O 11 (Some "too_many_pings")]
                   (create (Some 1000) None))
       <= KEEPALIVE_MAX_TIME_MS.
Proof.
  apply (X3_keepalive_time_bounds (Some 1000) None
           [OpStartConnecting; OpGoaway O 11 (Some "too_many_pings")]).
  vm_compute. split; discriminate.
Defined.

(** ** State listeners *)

Lemma notifications_app (a b : list Event) :
  notifications (a ++ b) = notifications a ++ notifications b.
Proof.
  induction a as [|e a IH]; [reflexivity|].
  destruct e; simpl; rewrite ?IH; reflexivity.
Qed.

Lemma notifications_notify (ls : list ListenerId) (a b : ConnectivityState) :
  notifications (map (fun l => Notify l a b) ls) = map (fun l => (l, (a, b))) ls.
Proof. induction ls as [|l ls IH]; simpl; [reflexivity|rewrite IH; reflexivity]. Qed.

Ltac note_eval :=
  repeat (cbv -[for_each transitions notifications all_notified map app Z.eqb Z.add
                Z.sub Z.mul Z.min KEEPALIVE_MAX_TIME_MS String.eqb Nat.eqb nth_error];
          rewrite ?for_each_notify);
  repeat (cbn [transitions notifications app fst snd];
          rewrite ?transitions_app, ?transitions_notify,
                  ?notifications_app, ?notifications_notify).

Lemma perform_notifies (op : Op) (s : t) :
  session_matches_state s ->
  notifications (events_of (perform op s))
  = all_notified (stateListeners s) (transitions (events_of (perform op s))).
Proof.
  unfold session_matches_state. intros HI.
  destruct s as [cs ses cc sl dl kt kto cr r ns].
  simpl in HI.
  destruct op; unfold perform, events_of.
  all: destruct cs; destruct ses as [sid0|]; try contradiction; try congruence; clear HI.
  all: destruct cc.
  all: sub_data.
  all: note_eval.
  all: repeat match goal with
    | |- context [Nat.eqb ?a ?b] => destruct (Nat.eqb a b); note_eval
    | |- context [Z.eqb ?a ?b] => destruct (Z.eqb a b); note_eval
    | |- context [String.eqb ?a ?b] => destruct (String.eqb a b); note_eval
    | |- context [@nth_error ?T ?a ?b] => destruct (@nth_error T a b); note_eval
    end.
  all: unfold all_notified; cbn [flat_map app]; rewrite ?app_nil_r; try reflexivity.
Qed.

(** X4: after any history, an operation calls the state listeners exactly
    as follows: for each state transition it makes, in order, every
    listener registered when the operation starts, once and in registration
    order, with the previous and the new state; no listener is called
    without a transition. *)
Theorem X4_listeners_notified (kt kto : option Z) (ops : list Op) (op : Op) :
  let s := after ops (create kt kto) in
  notifications (events_of (perform op s))
  = all_notified (stateListeners s) (transitions (events_of (perform op s))).
Proof.
  intros s. apply perform_notifies, reachable_session_matches.
Qed.

(** ** The end of the backoff *)

Lemma connects_app (a b : list Event) :
  connects (a ++ b) = connects a ++ connects b.
Proof.
  induction a as [|e a IH]; [reflexivity|].
  destruct e; simpl; rewrite ?IH; reflexivity.
Qed.

Lemma connects_notify (ls : list ListenerId) (a b : ConnectivityState) :
  connects (map (fun l => Notify l a b) ls) = [].
Proof. induction ls; simpl; auto. Qed.

Ltac conn_eval :=
  repeat (cbv -[for_each transitions connects map app String.eqb Nat.eqb];
          rewrite ?for_each_notify);
  repeat (cbn [transitions connects app fst snd];
          rewrite ?transitions_app, ?transitions_notify,
                  ?connects_app, ?connects_notify).

(** X5: in TRANSIENT_FAILURE, [startConnecting] only records the wish to
    connect ([continueConnecting]); when the backoff timer then ends, the
    subchannel goes to CONNECTING, with one call of [http2.connect] whose
    session becomes the current one, and the wish is cleared.  Without
    that wish the end of the backoff takes the subchannel to IDLE with no
    session and no connection attempt. *)
Theorem X5_backoff_end (s : t) :
  connectivityState s = TRANSIENT_FAILURE ->
  (let s1 := after [OpStartConnecting] s in
   let r := perform OpBackoffCallback s1 in
   s1 = set_continueConnecting true s
   /\ value_of r = Ok tt
   /\ connectivityState (state_of r) = CONNECTING
   /\ session (state_of r) = Some (nextSession s)
   /\ continueConnecting (state_of r) = false
   /\ connects (events_of r) = [nextSession s]
   /\ transitions (events_of r) = [(TRANSIENT_FAILURE, CONNECTING)])
  /\
  (continueConnecting s = false ->
   let r := perform OpBackoffCallback s in
   value_of r = Ok tt
   /\ connectivityState (state_of r) = IDLE
   /\ session (state_of r) = None
   /\ connects (events_of r) = []
   /\ transitions (events_of r) = [(TRANSIENT_FAILURE, IDLE)]).
Proof.
  intros Hs.
  destruct s as [cs ses cc sl dl kt kto cr r ns]. simpl in Hs. subst cs.
  split.
  - rewrite after_cons. unfold after, run, fst.
    unfold perform, state_of, value_of, events_of.
    destruct ses; destruct cc; conn_eval;
      repeat split; reflexivity.
  - simpl. intros ->.
    unfold perform, state_of, value_of, events_of.
    destruct ses; conn_eval; repeat split; reflexivity.
Qed.

Lemma X5_backoff_end_witness :
  connectivityState
    (state_of (perform OpBackoffCallback (after [OpStartConnecting] failed_subchannel)))
  = CONNECTING
  /\ connectivityState (state_of (perform OpBackoffCallback failed_subchannel)) = IDLE.
Proof.
  assert (H : connectivityState failed_subchannel = TRANSIENT_FAILURE) by reflexivity.
  split.
  - exact (proj1 (proj2 (proj2 (proj1 (X5_backoff_end failed_subchannel H))))).
  - exact (proj1 (proj2 (proj2 (X5_backoff_end failed_subchannel H) eq_refl))).
Defined.

(** ** References *)

(** X6: a subchannel that is not in TRANSIENT_FAILURE and is held by one
    call and one channel or pool keeps its state and its session when the
    first of the two references is dropped, and goes to TRANSIENT_FAILURE,
    with its session given up, when the second one is dropped, whichever of
    [callUnref] and [unref] comes first. *)
Theorem X6_last_reference (s : t) (first second : Op) :
  callRefcount s = 1 -> refcount s = 1 ->
  session_matches_state s ->
  connectivityState s <> TRANSIENT_FAILURE ->
  (first = OpCallUnref /\ second = OpUnref) \/ (first = OpUnref /\ second = OpCallUnref) ->
  let r1 := perform first s in
  let r2 := perform second (state_of r1) in
  transitions (events_of r1) = []
  /\ connectivityState (state_of r1) = connectivityState s
  /\ session (state_of r1) = session s
  /\ value_of r2 = Ok tt
  /\ transitions (events_of r2) = [(connectivityState s, TRANSIENT_FAILURE)]
  /\ connectivityState (state_of r2) = TRANSIENT_FAILURE
  /\ session (state_of r2) = None
  /\ callRefcount (state_of r2) = 0 /\ refcount (state_of r2) = 0.
Proof.
  intros Hc Hr HI Hn Ho.
  destruct s as [cs ses cc sl dl kt kto cr r ns].
  unfold session_matches_state in HI. simpl in Hc, Hr, HI, Hn. subst cr r.
  destruct Ho as [[-> ->]|[-> ->]];
    unfold perform, state_of, value_of, events_of;
    destruct cs; destruct ses as [sid0|]; try contradiction; try congruence;
    destruct cc; conn_eval; repeat split; reflexivity.
Qed.

Lemma X6_last_reference_witness :
  connectivityState (state_of (perform OpUnref subchannel_in_use)) = READY
  /\ connectivityState
       (state_of (perform OpCallUnref (state_of (perform OpUnref subchannel_in_use))))
     = TRANSIENT_FAILURE.
Proof.
  assert (Hs : session_matches_state subchannel_in_use).
  { unfold session_matches_state. simpl. discriminate. }
  assert (Hn : connectivityState subchannel_in_use <> TRANSIENT_FAILURE).
  { simpl. discriminate. }
  pose proof (@X6_last_reference subchannel_in_use OpUnref OpCallUnref
                eq_refl eq_refl Hs Hn (or_intror (conj eq_refl eq_refl))) as H.
  split.
  - exact (proj1 (proj2 H)).
  - exact (proj1 (proj2 (proj2 (proj2 (proj2 (proj2 H)))))).
Defined.

(** ** Adding and removing listeners *)

Lemma remove_first_absent (l : ListenerId) (ls : list ListenerId) :
  ~ In l ls -> remove_first l ls = ls.
Proof.
  induction ls as [|x ls IH]; intros H; [reflexivity|].
  simpl. destruct (Nat.eqb_spec x l) as [->|Hx].
  - exfalso. apply H. left. reflexivity.
  - f_equal. apply IH. intros Hin. apply H. right. exact Hin.
Qed.

Lemma remove_first_added (l : ListenerId) (ls : list ListenerId) :
  ~ In l ls -> remove_first l (ls ++ [l]) = ls.
Proof.
  induction ls as [|x ls IH]; intros H.
  - simpl. rewrite Nat.eqb_refl. reflexivity.
  - simpl. destruct (Nat.eqb_spec x l) as [->|Hx].
    + exfalso. apply H. left. reflexivity.
    + f_equal. apply IH. intros Hin. apply H. right. exact Hin.
Qed.

(** The loop of the socket's ['close'] handler walks the live array: with
    two call streams on a subchannel, the listener called in turn 0 removes
    itself, the listener registered second moves to index 0, and turn 1
    finds nothing: the second call stream is not told of the
    disconnection. *)
Example socket_close_live_array :
  let s := after [OpCallRef; OpAddDisconnectListener 1%nat;
                  OpCallRef; OpAddDisconnectListener 2%nat]
                 (after [OpStartConnecting; OpConnect O; OpRef] (create None None)) in
  socketCloseLoop callStreamReaction 2 0 s
  = [OpSocketClose 0; OpCallUnref; OpRemoveDisconnectListener 1%nat]
  /\ flat_map snd (snd (run (socketCloseLoop callStreamReaction 2 0 s) s))
     = [NotifyDisconnect 1%nat]
  /\ disconnectListeners (after (socketCloseLoop callStreamReaction 2 0 s) s)
     = [2%nat].
Proof. repeat split; reflexivity. Qed.

(** X7: adding a state listener (or a disconnect listener) that is not
    registered and then removing it leaves the subchannel as it was, and
    removing a listener that is not registered changes nothing. *)
Theorem X7_listener_round_trip (s : t) (l : ListenerId) :
  (~ In l (stateListeners s) ->
   after [OpAddStateListener l; OpRemoveStateListener l] s = s
   /\ after [OpRemoveStateListener l] s = s)
  /\
  (~ In l (disconnectListeners s) ->
   after [OpAddDisconnectListener l; OpRemoveDisconnectListener l] s = s
   /\ after [OpRemoveDisconnectListener l] s = s).
Proof.
  destruct s as [cs ses cc sl dl kt kto cr r ns]. simpl.
  split; intros H; split.
  - unfold after. cbv -[remove_first app]. f_equal. apply remove_first_added, H.
  - unfold after. cbv -[remove_first app]. f_equal. apply remove_first_absent, H.
  - unfold after. cbv -[remove_first app]. f_equal. apply remove_first_added, H.
  - unfold after. cbv -[remove_first app]. f_equal. apply remove_first_absent, H.
Qed.

Lemma X7_listener_round_trip_witness :
  after [OpAddStateListener 3%nat; OpRemoveStateListener 3%nat] subchannel_in_use
  = subchannel_in_use.
Proof.
  apply (proj1 (proj1 (X7_listener_round_trip subchannel_in_use 3%nat)
                  (fun H : In 3%nat (stateListeners subchannel_in_use) => H))).
Defined.

End SubchannelFacts.

(* ===================================================================== *)
(** * Properties of the matcher *)
(* ===================================================================== *)

Module RegexFacts.
Import Regex.
Local Open Scope nat_scope.

Section Provenance.
Variable R : Type.
Variable ignoreCase : bool.


End Provenance.

Section Fuel.
Variable R : Type.
Variable ignoreCase : bool.

Lemma agree_later (pos pos1 : nat) (s s1 : list ascii) (k k' : cont R) :
  agree pos s k k' ->
  pos1 + List.length s1 = pos + List.length s ->
  pos <= pos1 ->
  agree pos1 s1 k k'.
Proof.
  intros H E L p2 s2 c2 E2 L2. apply H; lia.
Qed.

(** With at least [S (min + length s)] rounds allowed the repeat matcher
    does not depend on the number of rounds allowed: the bound it is
    started with is never the reason for a failure. *)
Lemma repeat_forward (mb : nat -> list ascii -> captures -> cont R -> option R) gs :
  forward mb ->
  forall fuel1 fuel2 min max pos s caps k k',
    S (min + List.length s) <= fuel1 ->
    S (min + List.length s) <= fuel2 ->
    agree pos s k k' ->
    repeat mb gs k fuel1 min max pos s caps
    = repeat mb gs k' fuel2 min max pos s caps.
Proof.
  intros Hmb. induction fuel1 as [|fuel1 IH];
    intros fuel2 min max pos s caps k k' H1 H2 Hk; [lia|].
  destruct fuel2 as [|fuel2]; [lia|].
  cbn [repeat].
  assert (Hhere : k pos s caps = k' pos s caps) by (apply Hk; lia).
  destruct (is_zero max); [exact Hhere|].
  assert (Hd : mb pos s (clear_captures gs caps)
                 (fun pos1 s1 caps1 =>
                    if (Nat.eqb min 0 && Nat.eqb pos1 pos)%bool then None
                    else repeat mb gs k fuel1 (Nat.pred min) (dec max) pos1 s1 caps1)
               = mb pos s (clear_captures gs caps)
                 (fun pos1 s1 caps1 =>
                    if (Nat.eqb min 0 && Nat.eqb pos1 pos)%bool then None
                    else repeat mb gs k' fuel2 (Nat.pred min) (dec max) pos1 s1 caps1)).
  { apply Hmb. intros pos1 s1 caps1 E L.
    destruct (Nat.eqb min 0) eqn:Emin; destruct (Nat.eqb pos1 pos) eqn:Epos;
      cbn [andb]; try reflexivity.
    - apply Nat.eqb_eq in Emin. apply Nat.eqb_neq in Epos.
      apply IH; [lia|lia|]. eapply agree_later; [exact Hk|lia|lia].
    - apply Nat.eqb_neq in Emin.
      apply IH; [lia|lia|]. eapply agree_later; [exact Hk|lia|lia].
    - apply Nat.eqb_neq in Emin.
      apply IH; [lia|lia|]. eapply agree_later; [exact Hk|lia|lia]. }
  rewrite Hd, Hhere. reflexivity.
Qed.

Lemma m_forward (r : re) : @forward R (m ignoreCase r).
Proof.
  induction r as [ranges| |a IHa b IHb|a IHa b IHb|min max r IH|n r IH| |];
    intros pos s caps k k' Hk; cbn [m].
  - destruct s as [|c s']; [reflexivity|].
    destruct (class_matches _ _ _); [|reflexivity].
    apply Hk; simpl; lia.
  - apply Hk; lia.
  - apply IHa. intros p1 s1 c1 E L. apply IHb. eapply agree_later; [exact Hk|lia|lia].
  - rewrite (IHa pos s caps k k' Hk), (IHb pos s caps k k' Hk). reflexivity.
  - apply repeat_forward; [exact IH|lia|lia|exact Hk].
  - apply IH. intros p1 s1 c1 E L. apply Hk; lia.
  - destruct (Nat.eqb pos 0); [apply Hk; lia|reflexivity].
  - destruct s; [apply Hk; lia|reflexivity].
Qed.

(** More rounds than [m] allows itself change nothing. *)
Lemma repeat_fuel_enough (r : re) (k : cont R) (fuel min : nat)
    (max : option nat) (pos : nat) (s : list ascii) (caps : captures) :
  S (min + List.length s) <= fuel ->
  repeat (m ignoreCase r) (groups_of r) k fuel min max pos s caps
  = m ignoreCase (Rep min max r) pos s caps k.
Proof.
  intros H. cbn [m]. apply repeat_forward.
  - apply m_forward.
  - exact H.
  - lia.
  - intros p1 s1 c1 _ _. reflexivity.
Qed.
End Fuel.

Section Greedy.
Variable R : Type.
Variable ignoreCase : bool.

Lemma clear_captures_nil (caps : captures) : clear_captures [] caps = caps.
Proof.
  unfold clear_captures. induction caps as [|p caps IH]; [reflexivity|].
  simpl. f_equal. exact IH.
Qed.

(** A greedy repetition of a class takes all of a run [ds] of characters of
    the class, when what follows lets the match go on. *)
Lemma rep_class_greedy (ranges : list (ascii * ascii)) (ds : list ascii) :
  Forall (fun c => class_matches ignoreCase ranges c = true) ds ->
  forall (min : nat) (max : option nat) (pos : nat) (rest : list ascii)
         (caps : captures) (k : cont R) (x : R),
    min <= List.length ds ->
    within max (List.length ds) ->
    stops ignoreCase ranges max (List.length ds) rest ->
    k (pos + List.length ds) rest caps = Some x ->
    m ignoreCase (Rep min max (Class ranges)) pos (ds ++ rest) caps k = Some x.
Proof.
  induction 1 as [|c ds Hc Hds IH];
    intros min max pos rest caps k x Hmin Hmax Hstop Hk.
  - simpl in Hmin. assert (min = 0) by lia. subst min.
    rewrite Nat.add_0_r in Hk. cbn [m app List.length Nat.add repeat groups_of].
    destruct (is_zero max) eqn:Ez; [exact Hk|].
    cbn [Nat.eqb]. rewrite clear_captures_nil. unfold orelse.
    destruct Hstop as [->|[->|(c & rest' & -> & Hc)]].
    + discriminate Ez.
    + cbn [m]. exact Hk.
    + cbn [m]. rewrite Hc. exact Hk.
  - cbn [m app List.length repeat groups_of].
    destruct (is_zero max) eqn:Ez.
    { destruct max as [[|b]|]; try discriminate Ez. simpl in Hmax. lia. }
    rewrite clear_captures_nil. cbn [m]. rewrite Hc.
    assert (Hnext :
      repeat (m ignoreCase (Class ranges)) [] k
             (min + S (List.length (ds ++ rest))) (Nat.pred min) (dec max)
             (S pos) (ds ++ rest) caps = Some x).
    { change (@nil nat) with (groups_of (Class ranges)).
      rewrite repeat_fuel_enough by lia.
      apply IH.
      - simpl in Hmin. lia.
      - destruct max as [b|]; simpl in *; [lia|exact I].
      - destruct Hstop as [->|[->|Hs]].
        + left. reflexivity.
        + right. left. reflexivity.
        + right. right. exact Hs.
      - rewrite <- Hk. f_equal. simpl. lia. }
    assert (Hpos : Nat.eqb (S pos) pos = false) by (apply Nat.eqb_neq; lia).
    rewrite Hpos, Bool.andb_false_r.
    destruct (Nat.eqb min 0); [|exact Hnext].
    unfold orelse.
    match goal with
    | |- match ?t with _ => _ end = _ =>
        replace t with (Some x) by (symmetry; exact Hnext)
    end.
    reflexivity.
Qed.
End Greedy.




(** ** The characters a pattern can match *)

Section Alphabet.
Variable R : Type.
Variable ignoreCase : bool.
Variable sigma : ascii -> Prop.

Lemma repeat_consumes (mb : nat -> list ascii -> captures -> cont R -> option R)
    gs (k : cont R) :
  consumes sigma mb ->
  forall fuel min max pos s caps x,
    repeat mb gs k fuel min max pos s caps = Some x ->
    exists pre pos' s' caps',
      s = pre ++ s' /\ Forall sigma pre /\ k pos' s' caps' = Some x.
Proof.
  intros Hmb. induction fuel as [|fuel IH]; intros min max pos s caps x H.
  - discriminate H.
  - cbn [repeat] in H.
    destruct (is_zero max).
    + exists [], pos, s, caps. repeat split; [constructor|exact H].
    + assert (Hd : forall y,
                mb pos s (clear_captures gs caps)
                   (fun pos1 s1 caps1 =>
                      if (Nat.eqb min 0 && Nat.eqb pos1 pos)%bool then None
                      else repeat mb gs k fuel (Nat.pred min) (dec max) pos1 s1 caps1)
                = Some y ->
                exists pre pos' s' caps',
                  s = pre ++ s' /\ Forall sigma pre /\ k pos' s' caps' = Some y).
      { intros y E. apply Hmb in E.
        destruct E as (pre1 & p1 & s1 & c1 & -> & Hpre1 & E).
        destruct (Nat.eqb min 0 && Nat.eqb p1 pos)%bool; [discriminate E|].
        apply IH in E. destruct E as (pre2 & p2 & s2 & c2 & -> & Hpre2 & E).
        exists (pre1 ++ pre2), p2, s2, c2. repeat split.
        - apply app_assoc.
        - apply Forall_app. split; assumption.
        - exact E. }
      destruct (Nat.eqb min 0).
      * unfold orelse in H.
        destruct (mb pos s (clear_captures gs caps) _) as [y|] eqn:E.
        -- injection H as ->. apply Hd. reflexivity.
        -- exists [], pos, s, caps. repeat split; [constructor|exact H].
      * apply Hd. exact H.
Qed.

Lemma m_consumes (r : re) :
  within_alphabet ignoreCase sigma r -> @consumes R sigma (m ignoreCase r).
Proof.
  induction r as [ranges| |a IHa b IHb|a IHa b IHb|min max r IH|n r IH| |];
    intros Hw pos s caps k x H; cbn [m] in H; cbn [within_alphabet] in Hw.
  - destruct s as [|c s']; [discriminate H|].
    destruct (class_matches ignoreCase ranges c) eqn:E; [|discriminate H].
    exists [c], (S pos), s', caps. repeat split; [|exact H].
    constructor; [apply Hw, E|constructor].
  - exists [], pos, s, caps. repeat split; [constructor|exact H].
  - destruct Hw as [Ha Hb].
    apply (IHa Ha) in H. destruct H as (pre1 & p1 & s1 & c1 & -> & Hpre1 & H).
    apply (IHb Hb) in H. destruct H as (pre2 & p2 & s2 & c2 & -> & Hpre2 & H).
    exists (pre1 ++ pre2), p2, s2, c2. repeat split.
    + apply app_assoc.
    + apply Forall_app. split; assumption.
    + exact H.
  - destruct Hw as [Ha Hb]. unfold orelse in H.
    destruct (m ignoreCase a pos s caps k) eqn:E.
    + injection H as ->. apply (IHa Ha) in E. exact E.
    + apply (IHb Hb) in H. exact H.
  - eapply repeat_consumes; [exact (IH Hw)|exact H].
  - apply (IH Hw) in H. destruct H as (pre1 & p1 & s1 & c1 & -> & Hpre1 & H).
    do 4 eexists. repeat split; [exact Hpre1|exact H].
  - destruct (Nat.eqb pos 0); [|discriminate H].
    exists [], pos, s, caps. repeat split; [constructor|exact H].
  - destruct s; [|discriminate H].
    exists [], pos, [], caps. repeat split; [constructor|exact H].
Qed.

(** A pattern closed by [$] only matches an input made of characters of
    [sigma]. *)
Lemma m_whole_input (r : re) :
  within_alphabet ignoreCase sigma r -> ends_with_eol r ->
  forall pos s caps (k : cont R) x,
    m ignoreCase r pos s caps k = Some x -> Forall sigma s.
Proof.
  induction r as [ranges| |a IHa b IHb|a IHa b IHb|min max r IH|n r IH| |];
    intros Hw He pos s caps k x H; cbn [ends_with_eol] in He; try contradiction.
  - destruct Hw as [Ha Hb]. cbn [m] in H.
    apply (@m_consumes a Ha) in H.
    destruct H as (pre1 & p1 & s1 & c1 & -> & Hpre1 & H).
    apply Forall_app. split; [exact Hpre1|].
    eapply IHb; eassumption.
  - cbn [m] in H. destruct s; [constructor|discriminate H].
Qed.
End Alphabet.

(** A pattern that opens with [^] matches at index 0 or not at all. *)
Lemma exec_from_anchored (rx : regexp) (r : re) (start : nat) (s : list ascii) :
  pattern rx = Seq Bol r -> start <> 0 -> exec_from rx start s = None.
Proof.
  intros Hp. revert start. induction s as [|c s IH]; intros start Hs.
  - simpl. rewrite Hp. cbn [m].
    destruct (Nat.eqb_spec start 0); [contradiction|reflexivity].
  - simpl. rewrite Hp. cbn [m].
    destruct (Nat.eqb_spec start 0); [contradiction|]. apply IH. lia.
Qed.

Lemma exec_alphabet (sigma : ascii -> Prop) (rx : regexp) (r : re)
    (input : string) (a : match_array) :
  pattern rx = Seq Bol r ->
  within_alphabet (flag_i rx) sigma r ->
  ends_with_eol r ->
  exec rx input = Some a ->
  Forall sigma (list_ascii_of_string input).
Proof.
  intros Hp Hw He. unfold exec.
  destruct (list_ascii_of_string input) as [|c s]; simpl.
  - intros _. constructor.
  - rewrite Hp. cbn [m Nat.eqb].
    destruct (m (flag_i rx) r 0 (c :: s) [] _) as [y|] eqn:E.
    + intros _. eapply m_whole_input; eassumption.
    + rewrite (@exec_from_anchored rx r 1 s Hp) by lia. discriminate.
Qed.

End RegexFacts.

From Stdlib Require Import Permutation.

(* ===================================================================== *)
(** * Properties of the DNS resolver *)
(* ===================================================================== *)

Module ResolverDnsFacts.
Import Eff Regex ResolverDns.

(** ** Target parsing *)

Example parseIP_ipv4_port : parseIP "1.2.3.4:81" = Some ["1.2.3.4:81"].
Proof. vm_compute. reflexivity. Qed.

Example parseIP_ipv6_bracket : parseIP "[::1]:50051" = Some ["[::1]:50051"].
Proof. vm_compute. reflexivity. Qed.

Example parseIP_ipv6_plain : parseIP "::1" = Some ["[::1]:443"].
Proof. vm_compute. reflexivity. Qed.

Example parseIP_dns_name : parseIP "dns:example.com" = None.
Proof. vm_compute. reflexivity. Qed.

Example DNS_REGEX_authority :
  exec DNS_REGEX "dns://authority.org/example.com:80"
  = Some [Some "dns://authority.org/example.com:80"; Some "example.com"; Some "80"].
Proof. vm_compute. reflexivity. Qed.






(** ** Dotted quads

    [IPV4_REGEX] matches every target made of four groups of one to three
    digits separated by periods, with or without a colon and a port
    number. *)

Section DottedQuad.
Local Open Scope nat_scope.
Local Open Scope char_scope.

Lemma after_group_stops (n : nat) (rest : list ascii) :
  after_group rest ->
  stops false [("0", "9")] (Some 3) n rest.
Proof.
  intros [->|(c & rest' & -> & [->| ->])].
  - right. left. reflexivity.
  - right. right. exists ".", rest'. split; reflexivity.
  - right. right. exists ":", rest'. split; reflexivity.
Qed.

(** One round of [(?:\.\d{1,3}){n}] over a period and a group. *)
Lemma repeat_dot_group (R : Type) (k : cont R) (fuel n pos : nat)
    (g rest : list ascii) (caps : captures) (x : R) :
  octet g ->
  after_group rest ->
  repeat (m false dot_group) [] k fuel n (Some n) (S pos + List.length g) rest caps
  = Some x ->
  repeat (m false dot_group) [] k (S fuel) (S n) (Some (S n)) pos
         ("." :: g ++ rest) caps
  = Some x.
Proof.
  intros [Hd [Hlo Hhi]] Hafter Hnext.
  cbn [repeat is_zero Nat.eqb]. rewrite RegexFacts.clear_captures_nil.
  unfold dot_group at 1. cbn [m lit].
  change (class_matches false [(".", ".")] ".") with true. cbv iota.
  apply RegexFacts.rep_class_greedy.
  - exact Hd.
  - exact Hlo.
  - exact Hhi.
  - apply after_group_stops, Hafter.
  - cbn [Nat.eqb andb Nat.pred dec option_map]. exact Hnext.
Qed.

Lemma exec_from_first (rx : regexp) (s : list ascii) (start : nat)
    (a : match_array) :
  m (flag_i rx) (pattern rx) start s []
    (fun stop _ caps => Some (build_array rx s start stop caps)) = Some a ->
  exec_from rx start s = Some a.
Proof. intros H. destruct s; simpl; rewrite H; reflexivity. Qed.

Lemma firstn_all_app {A} (l r : list A) : firstn (List.length l) (l ++ r) = l.
Proof.
  rewrite firstn_app, Nat.sub_diag, firstn_all. simpl. apply app_nil_r.
Qed.

Lemma dotted_app (a b c d tail : list ascii) :
  dotted a b c d tail = dotted a b c d [] ++ tail.
Proof.
  unfold dotted. rewrite app_nil_r.
  repeat (rewrite <- ?app_assoc; cbn [app]). reflexivity.
Qed.

Lemma length_dotted (a b c d : list ascii) :
  List.length (dotted a b c d [])
  = S (S (S (List.length a) + List.length b) + List.length c) + List.length d.
Proof.
  unfold dotted. rewrite app_nil_r.
  repeat (rewrite length_app; cbn [List.length]). lia.
Qed.

Lemma IPV4_REGEX_dotted (a b c d : list ascii) (p : option (list ascii)) :
  octet a -> octet b -> octet c -> octet d ->
  (forall ds, p = Some ds -> port_number ds) ->
  exec IPV4_REGEX (string_of_list_ascii (dotted a b c d (port_suffix p)))
  = Some [Some (string_of_list_ascii (dotted a b c d (port_suffix p)));
          Some (string_of_list_ascii (dotted a b c d []));
          option_map string_of_list_ascii p].
Proof.
  intros Ha Hb Hc Hd Hp.
  unfold exec. rewrite list_ascii_of_string_of_list_ascii.
  apply exec_from_first.
  set (s := dotted a b c d (port_suffix p)).
  cbn [IPV4_REGEX pattern flag_i seq m Nat.eqb].
  unfold s at 1, dotted at 1.
  destruct Ha as [Hda [Hlo Hhi]].
  apply RegexFacts.rep_class_greedy;
    [exact Hda|exact Hlo|exact Hhi| |].
  { apply after_group_stops. right. do 2 eexists. split; [reflexivity|left; reflexivity]. }
  cbn [m Nat.add].
  assert (Hsuffix : after_group (port_suffix p)).
  { destruct p; [|left; reflexivity].
    right. do 2 eexists. split; [reflexivity|right; reflexivity]. }
  apply (@repeat_dot_group _ _ _ 2 _ b);
    [exact Hb|right; do 2 eexists; split; [reflexivity|left; reflexivity]|].
  apply (@repeat_dot_group _ _ _ 1 _ c);
    [exact Hc|right; do 2 eexists; split; [reflexivity|left; reflexivity]|].
  apply (@repeat_dot_group _ _ _ 0 _ d); [exact Hd|exact Hsuffix|].
  cbn [repeat is_zero].
  rewrite <- length_dotted.
  change (a ++ "." :: b ++ "." :: c ++ "." :: d ++ port_suffix p)
    with (dotted a b c d (port_suffix p)).
  fold s.
  assert (Hg1 : consumed s 0 (List.length (dotted a b c d []))
                = string_of_list_ascii (dotted a b c d [])).
  { unfold consumed, s.
    rewrite Nat.sub_0_r, (dotted_app a b c d (port_suffix p)), firstn_all_app.
    reflexivity. }
  rewrite Hg1.
  destruct p as [ds|].
  - (* a port follows *)
    destruct (Hp ds eq_refl) as [Hdd Hdl].
    cbn [port_suffix opt m List.length Nat.add repeat is_zero Nat.eqb groups_of
         app lit].
    change (clear_captures [2] (set_capture 1 _ [])) with
      (set_capture 1 (string_of_list_ascii (dotted a b c d [])) []).
    change (class_matches false [(":", ":")] ":") with true. cbv iota.
    unfold plus.
    assert (Hne : Nat.eqb (S (List.length (dotted a b c d [])) + List.length ds)
                          (List.length (dotted a b c d [])) = false)
      by (apply Nat.eqb_neq; lia).
    assert (Hall : firstn (S (List.length (dotted a b c d [])) + List.length ds - 0) s = s).
    { unfold s. rewrite (dotted_app a b c d (port_suffix (Some ds))).
      cbn [port_suffix]. rewrite Nat.sub_0_r.
      replace (S (List.length (dotted a b c d [])) + List.length ds)
        with (List.length (dotted a b c d [] ++ ":" :: ds))
        by (rewrite length_app; simpl; lia).
      apply firstn_all. }
    assert (Hg2 : consumed ds (S (List.length (dotted a b c d [])))
                           (S (List.length (dotted a b c d [])) + List.length ds)
                  = string_of_list_ascii ds).
    { unfold consumed.
      replace (S (List.length (dotted a b c d [])) + List.length ds
               - S (List.length (dotted a b c d []))) with (List.length ds) by lia.
      rewrite firstn_all. reflexivity. }
    match goal with
    | |- orelse (m false (Rep 1 None digit) ?pos ds ?caps ?K) _ = Some ?X =>
        assert (Hm : m false (Rep 1 None digit) pos (ds ++ []) caps K = Some X)
    end.
    { unfold digit. apply RegexFacts.rep_class_greedy;
        [exact Hdd|exact Hdl|exact I|right; left; reflexivity|].
      cbv beta. rewrite Hne.
      cbn [andb is_zero dec option_map Nat.pred].
      unfold build_array.
      cbn [ngroups IPV4_REGEX List.seq map capture set_capture Nat.eqb option_map].
      rewrite Hall, Hg2. reflexivity. }
    rewrite app_nil_r in Hm. rewrite Hm. reflexivity.
  - (* no port *)
    cbn [port_suffix opt m List.length Nat.add repeat is_zero Nat.eqb groups_of lit].
    unfold orelse, build_array.
    cbn [ngroups IPV4_REGEX List.seq map capture set_capture Nat.eqb option_map].
    assert (Hall : firstn (List.length (dotted a b c d []) - 0) s = s).
    { unfold s. rewrite (dotted_app a b c d (port_suffix None)).
      cbn [port_suffix]. rewrite Nat.sub_0_r, app_nil_r. apply firstn_all. }
    rewrite Hall. reflexivity.
Qed.
End DottedQuad.

(** ** Hexadecimal groups

    [IPV6_REGEX] matches the text of every IPv6 address written in
    hexadecimal groups, and [IPV6_BRACKET_REGEX] that text in square
    brackets, with or without a colon and a port number. *)

Ltac by_character :=
  let c := fresh "c" in
  intros c; destruct c as [[] [] [] [] [] [] [] []]; vm_compute; congruence.

Section HexGroups.
Local Open Scope nat_scope.
Local Open Scope char_scope.
















(** *** From groups to rounds *)







(** *** The other expressions do not match *)

Lemma lit_matches (c x : ascii) :
  class_matches false [(c, c)] x = true -> x = c.
Proof.
  unfold class_matches, existsb, in_range. cbn [fst snd].
  rewrite Bool.orb_false_r, Bool.andb_true_iff.
  intros [H1 H2]. apply N.leb_le in H1, H2.
  rewrite <- (ascii_N_embedding x), <- (ascii_N_embedding c).
  f_equal. lia.
Qed.








(** *** What [parseIP] makes of the text of an IPv6 address *)




End HexGroups.

(** ** IP literal targets *)













(** ** Merging the address families *)

Lemma mergeArrays_two {A} (a b : list A) :
  mergeArrays [a; b]
  = flat_map (fun i => cell a i ++ cell b i)
             (List.seq 0 (Nat.max (List.length a) (List.length b))).
Proof.
  unfold mergeArrays, max_length. simpl. rewrite Nat.max_0_r.
  apply flat_map_ext. intros i. unfold cell. rewrite app_nil_r. reflexivity.
Qed.

Lemma flat_map_seq_shift {A} (F : nat -> list A) (n start : nat) :
  flat_map F (List.seq (S start) n)
  = flat_map (fun i => F (S i)) (List.seq start n).
Proof.
  revert start. induction n as [|n IH]; intros start; simpl; [reflexivity|].
  rewrite IH. reflexivity.
Qed.

Lemma cells_of_one {A} (a : list A) :
  flat_map (fun i => cell a i) (List.seq 0 (List.length a)) = a.
Proof.
  induction a as [|x a IH]; [reflexivity|].
  cbn [List.length List.seq flat_map].
  rewrite flat_map_seq_shift.
  rewrite (flat_map_ext (fun i => cell (x :: a) (S i)) (fun i => cell a i))
    by reflexivity.
  rewrite IH. reflexivity.
Qed.

Lemma cell_nil {A} (i : nat) : @cell A [] i = [].
Proof. unfold cell. destruct i; reflexivity. Qed.

Lemma mergeArrays_interleave {A} (a b : list A) :
  mergeArrays [a; b] = interleave a b.
Proof.
  rewrite mergeArrays_two. revert b.
  induction a as [|x a IH]; intros b.
  - cbn [interleave List.length Nat.max].
    rewrite <- (cells_of_one b) at 2.
    apply flat_map_ext. intros i. rewrite cell_nil. reflexivity.
  - destruct b as [|y b].
    + cbn [interleave]. change (List.length (@nil A)) with 0%nat.
      rewrite Nat.max_0_r.
      rewrite <- (cells_of_one (x :: a)) at 2.
      apply flat_map_ext. intros i. rewrite cell_nil, app_nil_r. reflexivity.
    + cbn [interleave List.length Nat.max List.seq flat_map].
      rewrite flat_map_seq_shift.
      rewrite (flat_map_ext (fun i => cell (x :: a) (S i) ++ cell (y :: b) (S i))
                            (fun i => cell a i ++ cell b i)) by reflexivity.
      rewrite IH. reflexivity.
Qed.

Lemma interleave_nil_r {A} (a : list A) : interleave a [] = a.
Proof. destruct a; reflexivity. Qed.

(** The two lists the code makes of the answers. *)
Lemma lookup_families (ipv6Supported : bool) (A B : list string)
    (addressList : list LookupAddress) (port : option string) :
  lookup_of A B addressList ->
  ip4Addresses addressList port = map (ipv4_with_port port) A
  /\ ip6Addresses ipv6Supported addressList port
     = if ipv6Supported then map (ipv6_with_port port) B else [].
Proof.
  unfold ip4Addresses, ip6Addresses.
  induction 1 as [|a A B l _ [IH4 IH6]|b A B l _ [IH4 IH6]].
  - destruct ipv6Supported; split; reflexivity.
  - cbn [filter family]. split.
    + change (4 =? 4) with true. cbv iota. cbn [map]. rewrite IH4. reflexivity.
    + change (4 =? 6) with false. cbv iota. exact IH6.
  - cbn [filter family]. split.
    + change (6 =? 4) with false. cbv iota. exact IH4.
    + change (6 =? 6) with true. cbv iota.
      destruct ipv6Supported; [|reflexivity].
      cbn [map]. rewrite IH6. reflexivity.
Qed.

Lemma mixed_answer_families :
  lookup_of ["10.0.0.1"; "10.0.0.2"] ["fe80::1"] mixed_answer.
Proof. repeat constructor. Qed.

(** C8, as stated, does not hold: where IPv6 literals are not supported
    (Node before 12.6) the resolver leaves the IPv6 answers out, and the
    listener receives the IPv4 addresses alone. *)
Lemma C8_ipv6_unsupported_counterexample : ~ delivers_interleaving.
Proof.
  intros H.
  assert (Hne : ["10.0.0.1"; "10.0.0.2"] <> [] \/ ["fe80::1"] <> [])
    by (left; discriminate).
  destruct (H (fun _ _ => Ok None) false named_resolver
              ["10.0.0.1"; "10.0.0.2"] ["fe80::1"] mixed_answer TxtError
              mixed_answer_families Hne)
    as (sc & err & E).
  unfold onResolved, events_of, bind, modify, gets, emit in E.
  simpl in E. discriminate E.
Qed.

Lemma onResolved_call extract (ipv6Supported : bool) (r : t)
    (addressList : list LookupAddress) (txt : TxtResult) :
  let all := interleave (ip4Addresses addressList (port r))
                        (ip6Addresses ipv6Supported addressList (port r)) in
  exists call,
    events_of (onResolved extract ipv6Supported addressList txt r) = [Call call]
    /\ match all with
       | [] => call = OnError (defaultResolutionError r)
       | _ :: _ => exists sc err, call = OnSuccessfulResolution all sc err
       end.
Proof.
  intros all.
  unfold onResolved, events_of, bind, modify, gets, emit. simpl.
  rewrite mergeArrays_interleave. fold all.
  destruct all as [|x l] eqn:E; simpl.
  - eexists. split; reflexivity.
  - destruct txt as [records|].
    + destruct (extract records (percentage r)) as [sc|msg];
        eexists; (split; [reflexivity|]); eauto.
    + eexists; (split; [reflexivity|]); eauto.
Qed.

(** C8, amended: [mergeArrays] of two lists is their round-robin
    interleaving, the first list first, the tail of the longer list at the
    end.  When the lookup has answered with the IPv4 addresses [A] and the
    IPv6 addresses [B], the resolver calls its listener once: where IPv6
    literals are supported, with the interleaving of the addresses of [A]
    as [ip:port] and those of [B] as [[ip]:port], IPv4 first; where they
    are not, with the addresses of [A] alone, the IPv6 answers being left
    out; and with the resolution error instead when that list is empty.  In
    particular [a1; a2] and [b1] give [a1; b1; a2]. *)
Theorem C8_round_robin_addresses_amended :
  (forall (A : Type) (a b : list A), mergeArrays [a; b] = interleave a b)
  /\
  (forall extract (ipv6Supported : bool) (r : t) (A B : list string)
          (addressList : list LookupAddress) (txt : TxtResult),
      lookup_of A B addressList ->
      let delivered :=
        if ipv6Supported
        then interleave (map (ipv4_with_port (port r)) A)
                        (map (ipv6_with_port (port r)) B)
        else map (ipv4_with_port (port r)) A in
      exists call,
        events_of (onResolved extract ipv6Supported addressList txt r) = [Call call]
        /\ match delivered with
           | [] => call = OnError (defaultResolutionError r)
           | _ :: _ => exists sc err, call = OnSuccessfulResolution delivered sc err
           end)
  /\
  (forall a1 a2 b1 : string, mergeArrays [[a1; a2]; [b1]] = [a1; b1; a2]).
Proof.
  split; [|split].
  - intros A a b. apply mergeArrays_interleave.
  - intros extract ipv6 r A B addressList txt Hl delivered.
    destruct (@lookup_families ipv6 A B addressList (port r) Hl) as [E4 E6].
    pose proof (onResolved_call extract ipv6 r addressList txt) as H.
    cbv zeta in H. rewrite E4, E6 in H.
    unfold delivered. destruct ipv6; [exact H|].
    rewrite interleave_nil_r in H. exact H.
  - intros a1 a2 b1. reflexivity.
Qed.

Lemma C8_round_robin_addresses_amended_witness :
  (exists call,
     events_of (onResolved (fun _ _ => Ok None) true mixed_answer TxtError
                  named_resolver)
     = [Call call]
     /\ exists sc err,
          call = OnSuccessfulResolution
                   ["10.0.0.1:80"; "[fe80::1]:80"; "10.0.0.2:80"] sc err)
  /\ (exists call,
        events_of (onResolved (fun _ _ => Ok None) false mixed_answer TxtError
                     named_resolver)
        = [Call call]
        /\ exists sc err,
             call = OnSuccessfulResolution ["10.0.0.1:80"; "10.0.0.2:80"] sc err).
Proof.
  split.
  - exact (proj1 (proj2 C8_round_robin_addresses_amended)
             (fun _ _ => Ok None) true named_resolver
             ["10.0.0.1"; "10.0.0.2"] ["fe80::1"] mixed_answer TxtError
             mixed_answer_families).
  - exact (proj1 (proj2 C8_round_robin_addresses_amended)
             (fun _ _ => Ok None) false named_resolver
             ["10.0.0.1"; "10.0.0.2"] ["fe80::1"] mixed_answer TxtError
             mixed_answer_families).
Defined.

(** ** Merging any number of arrays *)

Lemma mergeArrays_rows {A} (arrays : list (list A)) :
  mergeArrays arrays = flat_map (row arrays) (List.seq 0 (max_length arrays)).
Proof. reflexivity. Qed.

Lemma cell_beyond {A} (a : list A) (i : nat) :
  (List.length a <= i)%nat -> cell a i = [].
Proof.
  intros H. unfold cell. apply nth_error_None in H. rewrite H. reflexivity.
Qed.

Lemma flat_map_nil {A B} (f : A -> list B) (l : list A) :
  (forall x, In x l -> f x = []) -> flat_map f l = [].
Proof.
  induction l as [|x l IH]; intros H; [reflexivity|].
  simpl. rewrite (H x (or_introl eq_refl)). apply IH.
  intros y Hy. apply H. right. exact Hy.
Qed.

Lemma cells_up_to {A} (a : list A) (n : nat) :
  (List.length a <= n)%nat ->
  flat_map (fun i => cell a i) (List.seq 0 n) = a.
Proof.
  intros H.
  replace n with (List.length a + (n - List.length a))%nat by lia.
  rewrite seq_app, flat_map_app, cells_of_one.
  rewrite flat_map_nil; [apply app_nil_r|].
  intros i Hi. apply in_seq in Hi. apply cell_beyond. lia.
Qed.

Lemma flat_map_split {A B} (f g : A -> list B) (l : list A) :
  Permutation (flat_map (fun x => f x ++ g x) l) (flat_map f l ++ flat_map g l).
Proof.
  induction l as [|x l IH]; [constructor|].
  simpl. rewrite IH.
  rewrite <- !app_assoc. apply Permutation_app_head.
  rewrite !app_assoc. apply Permutation_app_tail.
  apply Permutation_app_comm.
Qed.

Lemma rows_permutation {A} (arrays : list (list A)) (n : nat) :
  (max_length arrays <= n)%nat ->
  Permutation (flat_map (row arrays) (List.seq 0 n)) (List.concat arrays).
Proof.
  revert n. induction arrays as [|a arrays IH]; intros n H.
  - simpl. rewrite flat_map_nil; [constructor|]. reflexivity.
  - unfold max_length in H. simpl in H. fold (max_length arrays) in H.
    rewrite (flat_map_ext (row (a :: arrays)) (fun i => cell a i ++ row arrays i))
      by reflexivity.
    rewrite flat_map_split. simpl.
    rewrite cells_up_to by lia.
    apply Permutation_app_head. apply IH. lia.
Qed.

Lemma mergeArrays_one {A} (a : list A) : mergeArrays [a] = a.
Proof.
  rewrite mergeArrays_rows.
  rewrite (flat_map_ext (row [a]) (fun i => cell a i)).
  - apply cells_up_to. unfold max_length. simpl. lia.
  - intros i. unfold row. simpl. apply app_nil_r.
Qed.

(** X8: [mergeArrays], for any number of arrays, neither loses nor
    repeats an element: its result is a rearrangement of the arrays put
    end to end, so its length is the sum of their lengths.  One array
    alone comes back unchanged, and no array at all gives the empty
    array. *)
Theorem X8_mergeArrays_keeps_elements :
  (forall (A : Type) (arrays : list (list A)),
     Permutation (mergeArrays arrays) (List.concat arrays)
     /\ List.length (mergeArrays arrays)
        = fold_right Nat.add 0%nat (map (@List.length A) arrays))
  /\ (forall (A : Type) (a : list A), mergeArrays [a] = a)
  /\ (forall A : Type, mergeArrays (@nil (list A)) = []).
Proof.
  split; [|split].
  - intros A arrays.
    assert (P : Permutation (mergeArrays arrays) (List.concat arrays)).
    { rewrite mergeArrays_rows. apply rows_permutation. lia. }
    split; [exact P|].
    rewrite (Permutation_length P). clear P.
    induction arrays as [|a arrays IH]; [reflexivity|].
    simpl. rewrite length_app, IH. reflexivity.
  - intros A a. apply mergeArrays_one.
  - intros A. reflexivity.
Qed.

(** ** The default authority *)

(** X9: the default authority of a target made of four groups of one to
    three digits, with or without a port, is the address without the
    port. *)
Theorem X9_default_authority_ipv4 (a b c d : list ascii) (p : option (list ascii)) :
  octet a -> octet b -> octet c -> octet d ->
  (forall ds, p = Some ds -> port_number ds) ->
  getDefaultAuthority (string_of_list_ascii (dotted a b c d (port_suffix p)))
  = Ok (string_of_list_ascii (dotted a b c d [])).
Proof.
  intros Ha Hb Hc Hd Hp. unfold getDefaultAuthority.
  rewrite (IPV4_REGEX_dotted Ha Hb Hc Hd Hp). reflexivity.
Qed.

Lemma X9_default_authority_ipv4_witness :
  getDefaultAuthority "10.0.0.1:8080" = Ok "10.0.0.1".
Proof.
  apply (@X9_default_authority_ipv4
           ["1"; "0"]%char ["0"]%char ["0"]%char ["1"]%char
           (Some ["8"; "0"; "8"; "0"]%char)).
  all: try (split; [repeat constructor|simpl; lia]).
  intros ds E. injection E as <-. split; [repeat constructor|simpl; lia].
Defined.

(** ** Queries in flight *)

Section Queries.
Variable extractAndSelectServiceConfig :
  list (list string) -> Z -> result (option ServiceConfig.t).
Variable ipv6Supported : bool.

Lemma onResolved_state (addressList : list LookupAddress) (txtRecord : TxtResult)
    (r : t) :
  state_of (onResolved extractAndSelectServiceConfig ipv6Supported
              addressList txtRecord r)
  = set_pendingResultPromise false r.
Proof.
  unfold onResolved, state_of, bind, modify, gets, emit. simpl.
  destruct (Nat.eqb _ 0); [reflexivity|].
  destruct txtRecord as [records|]; [|reflexivity].
  destruct (extractAndSelectServiceConfig _ _); reflexivity.
Qed.

Lemma step_one_at_a_time (op : Op) (w : World) :
  one_at_a_time w ->
  one_at_a_time (fst (step extractAndSelectServiceConfig ipv6Supported op w)).
Proof.
  destruct w as [r n]. destruct r as [tg ip h p pct e pend].
  unfold one_at_a_time. simpl.
  intros [[-> ->]|[-> ->]]; destruct op; simpl.
  - left. split; reflexivity.
  - right. rewrite onResolved_state. split; reflexivity.
  - right. split; reflexivity.
  - unfold updateResolution, startResolution, state_of, events_of, bind, gets.
    simpl. destruct ip; simpl.
    + right. split; reflexivity.
    + destruct h; simpl.
      * left. split; reflexivity.
      * right. split; reflexivity.
  - right. split; reflexivity.
  - right. split; reflexivity.
Qed.

Lemma run_one_at_a_time (ops : list Op) (w : World) :
  one_at_a_time w ->
  one_at_a_time (run extractAndSelectServiceConfig ipv6Supported ops w).
Proof.
  revert w. induction ops as [|op ops IH]; intros w H; [exact H|].
  simpl. apply IH, step_one_at_a_time, H.
Qed.

(** X10: whatever requests for a resolution and whatever answers of the
    queries follow the construction of a resolver, there is never more than
    one pair of queries in flight, [pendingResultPromise] is non-null
    exactly while one is, and [updateResolution] during that time does
    nothing at all. *)
Theorem X10_one_query_at_a_time (target : string) (random100 : Z) (r : t)
    (ops : list Op) :
  construct target random100 = Ok r ->
  let w := run extractAndSelectServiceConfig ipv6Supported ops (mkWorld r 0) in
  (outstanding w <= 1)%nat
  /\ (pendingResultPromise (resolver w) = true <-> outstanding w = 1%nat)
  /\ (outstanding w = 1%nat ->
      step extractAndSelectServiceConfig ipv6Supported OpUpdateResolution w
      = (w, [])).
Proof.
  intros Hc w.
  assert (H : one_at_a_time w).
  { apply run_one_at_a_time. right. split; [|reflexivity].
    unfold construct in Hc. destruct (exec DNS_REGEX target); injection Hc as <-;
      reflexivity. }
  destruct w as [rv n]. unfold one_at_a_time in H. simpl in *.
  destruct H as [[Hp ->]|[Hp ->]].
  - split; [lia|]. split; [tauto|]. intros _.
    unfold step, updateResolution, bind, gets, state_of, events_of. simpl.
    rewrite Hp. simpl. destruct rv; simpl in *; subst; reflexivity.
  - split; [lia|]. split; [|intros H; discriminate H].
    rewrite Hp. split; intros H; discriminate H.
Qed.
End Queries.

Lemma X10_one_query_at_a_time_witness :
  (outstanding
     (run no_service_config true [OpUpdateResolution; OpUpdateResolution]
          (mkWorld example_resolver 0)) <= 1)%nat.
Proof.
  apply (@X10_one_query_at_a_time no_service_config true "dns:example.com" 7
           example_resolver [OpUpdateResolution; OpUpdateResolution]).
  vm_compute. reflexivity.
Defined.

(** ** Host name targets *)

Section DnsTargets.
Local Open Scope nat_scope.
Local Open Scope char_scope.

Lemma label_char_separators (c : ascii) :
  is_label_char c ->
  class_matches false [(".", ".")] c = false
  /\ class_matches false [(":", ":")] c = false
  /\ class_matches false [("/", "/")] c = false.
Proof.
  unfold is_label_char.
  destruct c as [[] [] [] [] [] [] [] []]; vm_compute; intros H;
    repeat split; congruence.
Qed.

Lemma after_host_stops (n : nat) (rest : list ascii) :
  after_host rest -> stops false label_ranges None n rest.
Proof.
  intros [->|(rest' & ->)].
  - right. left. reflexivity.
  - right. right. exists ":", rest'. split; reflexivity.
Qed.

Lemma plus_label_fails (R : Type) (rest : list ascii) (pos : nat) (caps : captures)
    (k : cont R) :
  after_host rest \/ (exists rest', rest = "." :: rest') ->
  m false (plus label_char) pos rest caps k = None.
Proof.
  intros [[->|(rest' & ->)]|(rest' & ->)]; reflexivity.
Qed.

Lemma opt_dot_taken (R : Type) (pos : nat) (s : list ascii) (caps : captures)
    (d : cont R) (x : R) :
  d (S pos) s caps = Some x ->
  m false (opt (lit ".")) pos ("." :: s) caps d = Some x.
Proof.
  intros Hd. unfold opt, lit.
  cbn [m repeat is_zero groups_of List.length Nat.add].
  rewrite RegexFacts.clear_captures_nil.
  change (Nat.eqb 0 0) with true. cbv iota.
  cbn [m].
  change (class_matches false [(".", ".")] ".") with true. cbv iota.
  replace (Nat.eqb (S pos) pos) with false
    by (symmetry; apply Nat.eqb_neq; lia).
  cbn [andb dec option_map Nat.pred repeat is_zero].
  unfold orelse. rewrite Hd. reflexivity.
Qed.

(** The rounds of [(?:[a-zA-Z0-9-]+\.?)+] over the labels of a host. *)
Lemma repeat_labels (R : Type) (k : cont R) (labels : list (list ascii)) :
  labels <> [] ->
  Forall label labels ->
  forall (fuel min pos : nat) (rest : list ascii) (caps : captures) (x : R),
    List.length labels < fuel ->
    min <= 1 ->
    after_host rest ->
    k (pos + List.length (join labels)) rest caps = Some x ->
    repeat (m false label_group) [] k fuel min None pos (join labels ++ rest) caps
    = Some x.
Proof.
  induction labels as [|l labels IH]; intros Hne Hall; [congruence|].
  intros fuel min pos rest caps x Hfuel Hmin Hrest Hk.
  inversion Hall as [|? ? [Hl Hlen] Hall']; subst.
  destruct fuel as [|fuel]; [simpl in Hfuel; lia|].
  cbn [repeat is_zero]. rewrite RegexFacts.clear_captures_nil.
  assert (Hbody :
    m false label_group pos (join (l :: labels) ++ rest) caps
      (fun pos1 s1 caps1 =>
         if (Nat.eqb min 0 && Nat.eqb pos1 pos)%bool then None
         else repeat (m false label_group) [] k fuel (Nat.pred min) (dec None)
                     pos1 s1 caps1)
    = Some x).
  { unfold label_group at 1. cbn [m].
    destruct labels as [|l2 labels].
    - (* the last label *)
      cbn [join].
      unfold plus, label_char.
      apply RegexFacts.rep_class_greedy;
        [exact Hl|exact Hlen|exact I|apply after_host_stops, Hrest|].
      assert (Hopt : forall (d : cont R),
                 m false (opt (lit ".")) (pos + List.length l) rest caps d
                 = d (pos + List.length l) rest caps).
      { intros d. destruct Hrest as [->|(rest' & ->)]; reflexivity. }
      rewrite Hopt.
      replace (Nat.eqb (pos + List.length l) pos) with false
        by (symmetry; apply Nat.eqb_neq; lia).
      rewrite Bool.andb_false_r.
      destruct fuel as [|fuel]; [simpl in Hfuel; lia|].
      cbn [repeat is_zero dec option_map Nat.eqb Nat.pred].
      replace (Nat.pred min) with 0 by lia.
      cbn [Nat.eqb]. rewrite RegexFacts.clear_captures_nil.
      unfold label_group at 1. cbn [m].
      rewrite plus_label_fails by (left; exact Hrest).
      unfold orelse. simpl in Hk. exact Hk.
    - (* a label followed by a period and more labels *)
      change (join (l :: l2 :: labels)) with (l ++ "." :: join (l2 :: labels)).
      rewrite <- app_assoc. cbn [app].
      unfold plus, label_char.
      apply RegexFacts.rep_class_greedy;
        [exact Hl|exact Hlen|exact I| |].
      { right. right. exists ".", (join (l2 :: labels) ++ rest).
        split; reflexivity. }
      apply opt_dot_taken.
      replace (Nat.eqb (S (pos + List.length l)) pos) with false
        by (symmetry; apply Nat.eqb_neq; lia).
      rewrite Bool.andb_false_r.
      assert (Hnext :
        repeat (m false label_group) [] k fuel (Nat.pred min) None
               (S (pos + List.length l)) (join (l2 :: labels) ++ rest) caps
        = Some x).
      { apply IH.
        - discriminate.
        - exact Hall'.
        - simpl in Hfuel |- *. lia.
        - lia.
        - exact Hrest.
        - rewrite <- Hk. f_equal.
          change (join (l :: l2 :: labels)) with (l ++ "." :: join (l2 :: labels)).
          rewrite length_app. simpl. lia. }
      exact Hnext. }
  destruct (Nat.eqb min 0); [|exact Hbody].
  unfold orelse. rewrite Hbody. reflexivity.
Qed.

Lemma m_port_tail (R : Type) (p : option (list ascii)) (pos : nat)
    (caps : captures) (K : cont R) (x : R) :
  (forall ds, p = Some ds -> port_number ds) ->
  K (pos + List.length (port_suffix p)) [] (with_port p caps) = Some x ->
  m false port_tail pos (port_suffix p) caps K = Some x.
Proof.
  intros Hp HK. unfold port_tail. cbn [m].
  destruct p as [ds|].
  - destruct (Hp ds eq_refl) as [Hdd Hdl].
    cbn [port_suffix with_port List.length] in *.
    unfold opt at 1.
    cbn [m repeat is_zero groups_of List.length Nat.add app].
    change (Nat.eqb 0 0) with true. cbv iota.
    unfold lit at 1. cbn [m].
    change (class_matches false [(":", ":")] ":") with true. cbv iota.
    match goal with
    | |- orelse (m false (plus digit) ?P ds ?C ?K') _ = Some ?X =>
        assert (Hm : m false (plus digit) P (ds ++ []) C K' = Some X)
    end.
    { unfold plus, digit. apply RegexFacts.rep_class_greedy;
        [exact Hdd|exact Hdl|exact I|right; left; reflexivity|].
      cbv beta.
      replace (Nat.eqb (S pos + List.length ds) pos) with false
        by (symmetry; apply Nat.eqb_neq; lia).
      cbn [andb dec option_map Nat.pred is_zero].
      unfold consumed.
      replace (S pos + List.length ds - S pos) with (List.length ds) by lia.
      rewrite firstn_all.
      rewrite <- HK. f_equal. lia. }
    rewrite app_nil_r in Hm.
    rewrite Hm. reflexivity.
  - cbn [port_suffix with_port List.length] in *.
    rewrite Nat.add_0_r in HK. cbn. exact HK.
Qed.

Lemma str_dns_fails (R : Type) (s : list ascii) (pos : nat) (caps : captures)
    (k : cont R) :
  ~ starts_with dns_colon s ->
  m false (str "dns:") pos s caps k = None.
Proof.
  intros H.
  change (str "dns:") with (Seq (lit "d") (Seq (lit "n") (Seq (lit "s") (lit ":")))).
  unfold lit. cbn [m].
  destruct s as [|c1 s]; [reflexivity|].
  destruct (class_matches false [("d", "d")] c1) eqn:E1; [|reflexivity].
  apply lit_matches in E1. subst c1.
  destruct s as [|c2 s]; [reflexivity|].
  destruct (class_matches false [("n", "n")] c2) eqn:E2; [|reflexivity].
  apply lit_matches in E2. subst c2.
  destruct s as [|c3 s]; [reflexivity|].
  destruct (class_matches false [("s", "s")] c3) eqn:E3; [|reflexivity].
  apply lit_matches in E3. subst c3.
  destruct s as [|c4 s]; [reflexivity|].
  destruct (class_matches false [(":", ":")] c4) eqn:E4; [|reflexivity].
  apply lit_matches in E4. subst c4.
  exfalso. apply H. exists s. reflexivity.
Qed.

Lemma length_labels (labels : list (list ascii)) :
  Forall label labels -> List.length labels <= List.length (join labels).
Proof.
  induction 1 as [|l labels [_ Hl] _ IH]; [simpl; lia|].
  destruct labels as [|l2 labels].
  - simpl. lia.
  - change (join (l :: l2 :: labels)) with (l ++ "." :: join (l2 :: labels)).
    rewrite length_app. simpl in *. lia.
Qed.

Lemma join_head (labels : list (list ascii)) :
  labels <> [] -> Forall label labels ->
  exists c rest, join labels = c :: rest /\ is_label_char c.
Proof.
  intros Hne Hall. destruct labels as [|l labels]; [congruence|].
  inversion Hall as [|? ? [Hl Hlen] _]; subst.
  destruct l as [|c l]; [simpl in Hlen; lia|].
  inversion Hl; subst.
  destruct labels; simpl; eauto.
Qed.

(** The optional authority does not start at a label character. *)
Lemma authority_skipped (R : Type) (c : ascii) (s : list ascii) (pos : nat)
    (caps : captures) (k : cont R) :
  is_label_char c ->
  m false (opt (seq [str "//"; dns_labels; lit "/"])) pos (c :: s) caps k
  = k pos (c :: s) caps.
Proof.
  intros Hc. destruct (label_char_separators Hc) as (_ & _ & Hs).
  unfold opt.
  cbn [m repeat is_zero]. change (Nat.eqb 0 0) with true. cbv iota.
  change (seq [str "//"; dns_labels; lit "/"])
    with (Seq (Seq (lit "/") (lit "/")) (Seq dns_labels (lit "/"))).
  unfold lit at 1. cbn [m]. rewrite Hs. reflexivity.
Qed.

Lemma DNS_REGEX_host (prefixed : bool) (labels : list (list ascii))
    (p : option (list ascii)) :
  labels <> [] ->
  Forall label labels ->
  (forall ds, p = Some ds -> port_number ds) ->
  (prefixed = false -> ~ starts_with dns_colon (join labels ++ port_suffix p)) ->
  exec DNS_REGEX
    (string_of_list_ascii (dns_prefix prefixed ++ join labels ++ port_suffix p))
  = Some [Some (string_of_list_ascii
                  (dns_prefix prefixed ++ join labels ++ port_suffix p));
          Some (string_of_list_ascii (join labels));
          option_map string_of_list_ascii p].
Proof.
  intros Hne Hall Hp Hpre.
  unfold exec. rewrite list_ascii_of_string_of_list_ascii.
  apply exec_from_first.
  set (host := join labels) in *.
  set (target := dns_prefix prefixed ++ host ++ port_suffix p).
  change (flag_i DNS_REGEX) with false.
  destruct (join_head Hne Hall) as (c & hrest & Hhost & Hc). fold host in Hhost.
  set (after_prefix :=
         Seq (opt (seq [str "//"; dns_labels; lit "/"]))
             (Seq (Group 1 dns_labels) port_tail)).
  (* after the optional prefix *)
  assert (Hafter : forall (pos : nat),
    pos = List.length (dns_prefix prefixed) ->
    m false after_prefix pos (host ++ port_suffix p) []
      (fun stop _ caps => Some (build_array DNS_REGEX target 0 stop caps))
    = Some (build_array DNS_REGEX target 0 (List.length target)
              (with_port p [(1, string_of_list_ascii host)]))).
  { intros pos Hpos. unfold after_prefix. cbn [m].
    rewrite Hhost. cbn [app]. rewrite authority_skipped by exact Hc.
    change (c :: hrest ++ port_suffix p) with ((c :: hrest) ++ port_suffix p).
    rewrite <- Hhost.
    unfold dns_labels at 1, plus at 1.
    cbn [m groups_of app].
    change (Seq (plus label_char) (opt (lit "."))) with label_group.
    apply repeat_labels.
    - exact Hne.
    - exact Hall.
    - pose proof (length_labels Hall). fold host in H.
      rewrite length_app. lia.
    - lia.
    - destruct p; [right; eexists; reflexivity|left; reflexivity].
    - fold host. unfold consumed.
      replace (pos + List.length host - pos) with (List.length host) by lia.
      rewrite firstn_all_app.
      apply m_port_tail; [exact Hp|].
      replace (pos + List.length host + List.length (port_suffix p))
        with (List.length target)
        by (unfold target; rewrite !length_app; lia).
      reflexivity. }
  assert (Hfinal :
    build_array DNS_REGEX target 0 (List.length target)
      (with_port p [(1, string_of_list_ascii host)])
    = [Some (string_of_list_ascii target); Some (string_of_list_ascii host);
       option_map string_of_list_ascii p]).
  { unfold build_array. rewrite Nat.sub_0_r, firstn_all.
    destruct p; reflexivity. }
  rewrite Hfinal in Hafter.
  change (pattern DNS_REGEX)
    with (Seq Bol (Seq (opt (str "dns:")) after_prefix)).
  clearbody after_prefix.
  cbn [m Nat.eqb].
  destruct prefixed.
  - (* [dns:] is there and is taken *)
    unfold target at 1. cbn [dns_prefix dns_colon app].
    unfold opt at 1.
    cbn [m repeat is_zero groups_of List.length Nat.add].
    change (Nat.eqb 0 0) with true. cbv iota.
    change (str "dns:") with (Seq (lit "d") (Seq (lit "n") (Seq (lit "s") (lit ":")))).
    unfold lit. cbn [m].
    change (class_matches false [("d", "d")] "d") with true.
    change (class_matches false [("n", "n")] "n") with true.
    change (class_matches false [("s", "s")] "s") with true.
    change (class_matches false [(":", ":")] ":") with true.
    cbv iota.
    change (Nat.eqb 4 0) with false.
    cbn [andb dec option_map Nat.pred repeat is_zero].
    rewrite RegexFacts.clear_captures_nil.
    unfold orelse.
    rewrite (Hafter 4 eq_refl). reflexivity.
  - (* no prefix *)
    unfold target at 1. cbn [dns_prefix app].
    unfold opt at 1.
    cbn [m repeat is_zero groups_of].
    change (Nat.eqb 0 0) with true. cbv iota.
    rewrite RegexFacts.clear_captures_nil.
    rewrite str_dns_fails by (apply Hpre; reflexivity).
    unfold orelse.
    rewrite (Hafter 0 eq_refl). reflexivity.
Qed.
End DnsTargets.

(** ** Targets that are no IP literals *)

Section IpAlphabet.
Local Open Scope char_scope.

Lemma IPV4_alphabet :
  exists r, pattern IPV4_REGEX = Seq Bol r
            /\ within_alphabet (flag_i IPV4_REGEX) only_ip_chars r
            /\ ends_with_eol r.
Proof.
  eexists. split; [reflexivity|]. split; [|exact I].
  cbn -[class_matches only_ip_chars]. repeat split; by_character.
Qed.

Lemma IPV6_alphabet :
  exists r, pattern IPV6_REGEX = Seq Bol r
            /\ within_alphabet (flag_i IPV6_REGEX) only_ip_chars r
            /\ ends_with_eol r.
Proof.
  eexists. split; [reflexivity|]. split; [|exact I].
  cbn -[class_matches only_ip_chars]. repeat split; by_character.
Qed.

Lemma IPV6_BRACKET_alphabet :
  exists r, pattern IPV6_BRACKET_REGEX = Seq Bol r
            /\ within_alphabet (flag_i IPV6_BRACKET_REGEX) only_ip_chars r
            /\ ends_with_eol r.
Proof.
  eexists. split; [reflexivity|]. split; [|exact I].
  cbn -[class_matches only_ip_chars]. repeat split; by_character.
Qed.

Lemma exec_ip_chars (rx : regexp) (input : string) :
  (exists r, pattern rx = Seq Bol r
             /\ within_alphabet (flag_i rx) only_ip_chars r
             /\ ends_with_eol r) ->
  has_other_character (list_ascii_of_string input) ->
  exec rx input = None.
Proof.
  intros (r & Hp & Hw & He) Hex.
  destruct (exec rx input) as [a|] eqn:E; [|reflexivity].
  exfalso. pose proof (@RegexFacts.exec_alphabet _ _ _ _ _ Hp Hw He E) as Hall.
  rewrite Forall_forall in Hall. apply Exists_exists in Hex.
  destruct Hex as (c & Hin & Hc). specialize (Hall c Hin).
  unfold only_ip_chars in Hall. congruence.
Qed.

Lemma parseIP_other_characters (target : string) :
  has_other_character (list_ascii_of_string target) ->
  parseIP target = None.
Proof.
  intros H. unfold parseIP.
  rewrite (@exec_ip_chars _ _ IPV4_alphabet H), (@exec_ip_chars _ _ IPV6_alphabet H),
          (@exec_ip_chars _ _ IPV6_BRACKET_alphabet H).
  reflexivity.
Qed.

Lemma construct_fields (target : string) (random100 : Z) (r : t) :
  construct target random100 = Ok r ->
  ipResult r = parseIP target
  /\ dnsHostname r = option_map (fun mt => template (group mt 1)) (exec DNS_REGEX target)
  /\ port r = option_map port_of (exec DNS_REGEX target)
  /\ pendingResultPromise r = false
  /\ ResolverDns.target r = target.
Proof.
  unfold construct. intros H.
  destruct (exec DNS_REGEX target); injection H as <-; repeat split; reflexivity.
Qed.

(** X12: a target with a character that is neither a hexadecimal digit
    nor a period, a colon or a square bracket is never taken for an IP
    literal: [parseIP] returns null for it, the resolver constructed for it
    holds no IP result, and [startResolution] on it never reports a
    resolution through [setImmediate]. *)
Theorem X12_not_an_ip_literal (target : string) (random100 : Z) (r : t) :
  has_other_character (list_ascii_of_string target) ->
  construct target random100 = Ok r ->
  parseIP target = None
  /\ ipResult r = None
  /\ forall call, ~ In (SetImmediate call) (events_of (startResolution r)).
Proof.
  intros H Hc.
  pose proof (parseIP_other_characters _ H) as Hn.
  destruct (construct_fields _ _ Hc) as (Hip & _).
  rewrite Hn in Hip.
  split; [exact Hn|]. split; [exact Hip|].
  intros call. unfold startResolution, events_of, bind, gets. simpl.
  rewrite Hip. simpl. destruct (dnsHostname r); simpl; intuition discriminate.
Qed.

Lemma nonempty_not_empty_string (ds : list ascii) :
  (1 <= List.length ds)%nat -> String.eqb (string_of_list_ascii ds) "" = false.
Proof. destruct ds; simpl; [lia|reflexivity]. Qed.

(** X11: for a target [host], [host:port], [dns:host] or [dns:host:port],
    where [host] is one or more labels of letters, digits and hyphens
    separated by periods and [port] is a number (a target without the
    prefix not beginning with [dns:] itself), the constructor records
    [host] as the DNS host name and the port, 443 when none is given.  When
    the target has a character no IP literal has, [startResolution] starts
    the address query and the TXT query for [host], calls the listener with
    nothing yet, and the default authority of the target is [host]. *)
Theorem X11_dns_target (prefixed : bool) (labels : list (list ascii))
    (p : option (list ascii)) (random100 : Z) (r : t) :
  labels <> [] ->
  Forall label labels ->
  (forall ds, p = Some ds -> port_number ds) ->
  (prefixed = false -> ~ starts_with dns_colon (join labels ++ port_suffix p)) ->
  construct (string_of_list_ascii (dns_target prefixed labels p)) random100 = Ok r ->
  let host := string_of_list_ascii (join labels) in
  dnsHostname r = Some host
  /\ port r = Some (port_or_default p)
  /\ (has_other_character (dns_target prefixed labels p) ->
      startResolution r
      = (Ok tt, set_pendingResultPromise true r,
         [DnsLookupAll host; DnsResolveTxt host])
      /\ getDefaultAuthority (string_of_list_ascii (dns_target prefixed labels p))
         = Ok host).
Proof.
  intros Hne Hall Hp Hpre Hc host.
  pose proof (@DNS_REGEX_host prefixed labels p Hne Hall Hp Hpre) as Hx.
  fold (dns_target prefixed labels p) in Hx.
  destruct (construct_fields _ _ Hc) as (Hip & Hh & Hpo & _).
  rewrite Hx in Hh, Hpo. cbn [option_map group nth_error template] in Hh.
  assert (Hport : port r = Some (port_or_default p)).
  { rewrite Hpo. cbn [option_map]. f_equal. unfold port_of, port_or_default.
    cbn [group nth_error]. destruct p as [ds|]; cbn [option_map truthy]; [|reflexivity].
    destruct (Hp ds eq_refl) as [_ Hl].
    rewrite (nonempty_not_empty_string _ Hl). reflexivity. }
  split; [exact Hh|]. split; [exact Hport|].
  intros Hother.
  rewrite <- (list_ascii_of_string_of_list_ascii (dns_target prefixed labels p))
    in Hother.
  pose proof (parseIP_other_characters _ Hother) as Hn.
  rewrite Hn in Hip. split.
  - unfold startResolution, bind, gets, emit, modify. simpl.
    rewrite Hip, Hh. reflexivity.
  - unfold getDefaultAuthority.
    rewrite (@exec_ip_chars _ _ IPV4_alphabet Hother),
            (@exec_ip_chars _ _ IPV6_alphabet Hother),
            (@exec_ip_chars _ _ IPV6_BRACKET_alphabet Hother).
    cbn [or_else]. rewrite Hx. reflexivity.
Qed.

End IpAlphabet.

Lemma construct_localhost : construct "localhost:50051" 7 = Ok localhost_resolver.
Proof. vm_compute. reflexivity. Qed.

Lemma construct_example : construct "dns:example.com" 7 = Ok example_resolver.
Proof. vm_compute. reflexivity. Qed.

Lemma X12_not_an_ip_literal_witness : parseIP "dns:example.com" = None.
Proof.
  apply (@X12_not_an_ip_literal "dns:example.com" 7 example_resolver).
  - right. left. reflexivity.
  - exact construct_example.
Defined.

Lemma X11_dns_target_witness :
  startResolution localhost_resolver
  = (Ok tt, set_pendingResultPromise true localhost_resolver,
     [DnsLookupAll "localhost"; DnsResolveTxt "localhost"])
  /\ port example_resolver = Some "443".
Proof.
  split.
  - apply (@X11_dns_target false localhost_labels (Some port_50051) 7
             localhost_resolver).
    + discriminate.
    + repeat constructor.
    + intros ds E. injection E as <-. split; [repeat constructor|simpl; lia].
    + intros _ [rest E]. discriminate E.
    + exact construct_localhost.
    + left. reflexivity.
  - apply (@X11_dns_target true example_labels None 7 example_resolver).
    + discriminate.
    + repeat constructor.
    + intros ds E. discriminate E.
    + intros E. discriminate E.
    + exact construct_example.
Defined.

End ResolverDnsFacts.

(* ===================================================================== *)
(** * Properties of the call stream *)
(* ===================================================================== *)

Module CallStreamFacts.
Import Eff CallStream.

(** ** [callUnref] on the subchannel *)

Lemma callUnref_spec (s : Subchannel.t) :
  exists s' evs,
    Subchannel.callUnref s = (Ok tt, s', evs)
    /\ Subchannel.callRefcount s' = Subchannel.callRefcount s - 1
    /\ Subchannel.disconnectListeners s' = Subchannel.disconnectListeners s.
Proof.
  destruct s as [cs ses cc sl dl kt kto cr r ns].
  unfold Subchannel.callUnref.
  destruct cs; destruct ses as [sid|];
    SubchannelFacts.sub_eval;
    repeat match goal with
    | |- context [Z.eqb ?a ?b] => destruct (Z.eqb a b); SubchannelFacts.sub_eval
    end;
    do 2 eexists; (split; [reflexivity|split; reflexivity]).
Qed.

Lemma removeDisconnectListener_spec (l : Subchannel.ListenerId) (s : Subchannel.t) :
  Subchannel.removeDisconnectListener l s
  = (Ok tt,
     Subchannel.set_disconnectListeners
       (Subchannel.remove_first l (Subchannel.disconnectListeners s)) s,
     []).
Proof. reflexivity. Qed.

(** ** [endCall] *)

Lemma status_events_of_subchannel (evs : list Subchannel.Event) :
  status_events (map OfSubchannel evs) = [].
Proof. induction evs; simpl; auto. Qed.

Lemma endCall_ended (status : StatusObject) (w : World) :
  finalStatus (call w) <> None -> endCall status w = (Ok tt, w, []).
Proof.
  intros H. unfold endCall, bind, gets.
  destruct (finalStatus (call w)); [reflexivity|congruence].
Qed.

Lemma endCall_open (status : StatusObject) (w : World) :
  finalStatus (call w) = None ->
  exists evs,
    endCall status w
    = (Ok tt,
       mkWorld (set_finalStatus (Some status) (call w))
               (if subchannel (call w)
                then released (disconnectListener (call w)) (sub w)
                else sub w),
       NextTickEmitStatus status :: map OfSubchannel evs).
Proof.
  intros H. destruct w as [c s]. simpl in H.
  unfold endCall, bind, gets, modify, emit, on_call, liftSub, released, state_of.
  simpl. rewrite H. simpl.
  destruct (subchannel c) eqn:Esub.
  - destruct (callUnref_spec s) as (s' & evs & E & _ & _).
    unfold bind. simpl. rewrite !E. simpl.
    exists evs. rewrite app_nil_r. reflexivity.
  - exists []. reflexivity.
Qed.

Lemma for_each_endCall_ended (rest : list StatusObject) (w : World) :
  finalStatus (call w) <> None ->
  for_each rest endCall w = (Ok tt, w, []).
Proof.
  intros H. induction rest as [|s rest IH]; [reflexivity|].
  simpl. unfold bind. rewrite (@endCall_ended s w H). rewrite IH. reflexivity.
Qed.

Lemma remove_first_without (l : Subchannel.ListenerId)
    (ls : list Subchannel.ListenerId) :
  without_first l ls (Subchannel.remove_first l ls).
Proof.
  induction ls as [|x ls IH].
  - left. split; [intros []|reflexivity].
  - simpl. destruct (Nat.eqb_spec x l) as [->|Hx].
    + right. exists [], ls. split; [reflexivity|]. split; [intros []|reflexivity].
    + destruct IH as [[Hn E]|(pre & post & E & Hn & E')].
      * left. split; [|rewrite E; reflexivity].
        intros [H|H]; [exact (Hx H)|exact (Hn H)].
      * right. exists (x :: pre), post. split; [rewrite E; reflexivity|].
        split; [|rewrite E'; reflexivity].
        intros [H|H]; [exact (Hx H)|exact (Hn H)].
Qed.

Lemma without_first_count (l : Subchannel.ListenerId)
    (ls ls' : list Subchannel.ListenerId) :
  without_first l ls ls' ->
  In l ls ->
  S (count_occ Nat.eq_dec ls' l) = count_occ Nat.eq_dec ls l.
Proof.
  intros [[Hn _]|(pre & post & -> & _ & ->)] Hin; [contradiction|].
  rewrite !count_occ_app. simpl.
  destruct (Nat.eq_dec l l) as [_|Hne]; [|contradiction].
  rewrite Nat.add_succ_r. reflexivity.
Qed.

(** C4: on any call stream, [endCall(s1); ...; endCall(sN)] does what
    [endCall(s1)] alone does: same result, same objects afterwards, same
    calls to the outside.  On a call that has not ended, that is:
    [finalStatus] becomes [s1], one ['status'] event with [s1] is scheduled,
    and, when a subchannel is attached, its call count drops by one and the
    disconnect listener is removed once: the list of disconnect listeners
    loses the first occurrence of the call's listener and nothing else, so a
    listener that was registered is registered one time less.  With no
    subchannel attached the subchannel is left alone.  Any [endCall] on a
    call that has ended does nothing. *)
Theorem C4_endCall_idempotent (w : World) (s1 : StatusObject)
    (rest : list StatusObject) :
  for_each (s1 :: rest) endCall w = endCall s1 w
  /\
  (finalStatus (call w) = None ->
     let r := endCall s1 w in
     finalStatus (call (state_of r)) = Some s1
     /\ status_events (events_of r) = [s1]
     /\ (subchannel (call w) = true ->
           sub (state_of r) = released (disconnectListener (call w)) (sub w)
           /\ Subchannel.callRefcount (sub (state_of r))
              = Subchannel.callRefcount (sub w) - 1
           /\ Subchannel.disconnectListeners (sub (state_of r))
              = Subchannel.remove_first (disconnectListener (call w))
                  (Subchannel.disconnectListeners (sub w))
           /\ without_first (disconnectListener (call w))
                (Subchannel.disconnectListeners (sub w))
                (Subchannel.disconnectListeners (sub (state_of r)))
           /\ (In (disconnectListener (call w))
                  (Subchannel.disconnectListeners (sub w)) ->
               S (count_occ Nat.eq_dec
                    (Subchannel.disconnectListeners (sub (state_of r)))
                    (disconnectListener (call w)))
               = count_occ Nat.eq_dec
                   (Subchannel.disconnectListeners (sub w))
                   (disconnectListener (call w))))
     /\ (subchannel (call w) = false -> sub (state_of r) = sub w))
  /\
  (forall (w' : World) (s : StatusObject),
     finalStatus (call w') <> None -> endCall s w' = (Ok tt, w', [])).
Proof.
  split; [|split].
  - simpl. unfold bind.
    destruct (finalStatus (call w)) eqn:E.
    + assert (H : finalStatus (call w) <> None) by congruence.
      rewrite (@endCall_ended s1 w H), (@for_each_endCall_ended rest w H). reflexivity.
    + destruct (@endCall_open s1 w E) as (evs & ->).
      rewrite for_each_endCall_ended by (simpl; discriminate).
      rewrite app_nil_r. reflexivity.
  - intros E. destruct (@endCall_open s1 w E) as (evs & Hr).
    cbv zeta. rewrite Hr. unfold state_of, events_of. simpl.
    rewrite status_events_of_subchannel.
    split; [reflexivity|]. split; [reflexivity|]. split.
    + intros ->. split; [reflexivity|]. unfold released, state_of, bind.
      destruct (callUnref_spec (sub w)) as (s' & evs' & E1 & Hc & Hd).
      rewrite E1. simpl. rewrite Hd. split; [exact Hc|].
      split; [reflexivity|].
      split; [apply remove_first_without|].
      apply without_first_count, remove_first_without.
    + intros ->. reflexivity.
  - intros w' s H. apply endCall_ended, H.
Qed.

Lemma C4_endCall_idempotent_witness :
  for_each [status_a; status_b] endCall attached_call
  = endCall status_a attached_call
  /\ finalStatus (call (state_of (endCall status_a attached_call)))
     = Some status_a
  /\ endCall status_b (state_of (endCall status_a attached_call))
     = (Ok tt, state_of (endCall status_a attached_call), [])
  /\ S (count_occ Nat.eq_dec
          (Subchannel.disconnectListeners
             (sub (state_of (endCall status_a attached_call))))
          (disconnectListener (call attached_call)))
     = count_occ Nat.eq_dec
         (Subchannel.disconnectListeners (sub attached_call))
         (disconnectListener (call attached_call)).
Proof.
  destruct (C4_endCall_idempotent attached_call status_a [status_b])
    as (H1 & H2 & H3).
  split; [exact H1|]. split; [|split].
  - exact (proj1 (H2 eq_refl)).
  - apply H3. vm_compute. discriminate.
  - apply (proj2 (proj2 (proj2 (proj2
             (proj1 (proj2 (proj2 (H2 eq_refl))) eq_refl))))).
    vm_compute. left. reflexivity.
Defined.

(** ** The HTTP status *)

(** C9, as stated, does not hold: with response headers [:status = 404]
    (no END_STREAM) and the stream then closing without trailers, the call
    ends with the code of the close handler, INTERNAL, not UNIMPLEMENTED. *)
Lemma C9_close_without_trailers_counterexample : ~ final_code_is_mapped.
Proof.
  intros H.
  specialize (H 404 [] 0 (mkStatus INTERNAL "" []) eq_refl).
  discriminate H.
Qed.

Lemma mapStatus_other (n : Z) :
  n <> 400 -> n <> 401 -> n <> 403 -> n <> 404 ->
  n <> 429 -> n <> 502 -> n <> 503 -> n <> 504 ->
  mapStatus (HNumber n) = UNKNOWN.
Proof.
  intros. unfold mapStatus.
  repeat match goal with
  | H : n <> ?k |- context [n =? ?k] =>
      rewrite (proj2 (Z.eqb_neq n k) H)
  end.
  reflexivity.
Qed.

Lemma existsb_here (p : nat) (l : list nat) : existsb (Nat.eqb p) (p :: l) = true.
Proof. simpl. rewrite Nat.eqb_refl. reflexivity. Qed.

Ltac call_eval :=
  repeat (cbv -[endCall Nat.eqb Z.land Z.eqb mapStatus existsb filter app
                String.eqb];
          cbn [app]).

Lemma trailers_only_response (w : World) (n flags : Z) (parsed : result Metadata) :
  open_call w ->
  Z.land flags NGHTTP2_FLAG_END_STREAM <> 0 ->
  let status := mkStatus (mapStatus (HNumber n)) "" (metadata_of parsed) in
  let p := nextPromise (call w) in
  events_of (perform (OpResponse (HNumber n) flags parsed) w)
  = [ReceiveTrailers p status]
  /\ finalStatus
       (call (run [OpResponse (HNumber n) flags parsed;
                   OpTrailersFiltered p (Ok status)] w))
     = Some status.
Proof.
  intros (Hfs & (stream & Hst) & Hset & Hjobs) Hflags.
  destruct w as [c s].
  destruct c as [fs msc hs sd sb hh ht st fm ft js np dl].
  simpl in *. subst fs hs js.
  apply Z.eqb_neq in Hflags. unfold NGHTTP2_FLAG_END_STREAM in Hflags.
  split.
  - call_eval. rewrite Hflags. destruct parsed; reflexivity.
  - unfold run, fold_left, step.
    call_eval. rewrite Hflags. call_eval.
    rewrite existsb_here. call_eval. rewrite Hset. call_eval.
    match goal with
    | |- context [endCall ?st0 ?w0] =>
        destruct (@endCall_open st0 w0 eq_refl) as (evs & ->)
    end.
    destruct parsed; reflexivity.
Qed.

Lemma response_then_trailers (w : World) (n flags : Z) (md md' : Metadata)
    (parsed : result Metadata) :
  open_call w ->
  Z.land flags NGHTTP2_FLAG_END_STREAM = 0 ->
  let status := mkStatus (mapStatus (HNumber n)) "" (metadata_of parsed) in
  let p := nextPromise (call w) in
  finalStatus
    (call (run [OpResponse (HNumber n) flags (Ok md);
                OpMetadataFiltered p (Ok md');
                OpTrailers parsed;
                OpTrailersFiltered (S p) (Ok status)] w))
  = Some status.
Proof.
  intros (Hfs & (stream & Hst) & Hset & Hjobs) Hflags.
  destruct w as [c s].
  destruct c as [fs msc hs sd sb hh ht st fm ft js np dl].
  simpl in *. subst fs hs js.
  apply Z.eqb_eq in Hflags. unfold NGHTTP2_FLAG_END_STREAM in Hflags.
  unfold run, fold_left, step.
  call_eval. rewrite Hflags. call_eval.
  rewrite !existsb_here. call_eval.
  rewrite !existsb_here. call_eval.
  match goal with
  | |- context [endCall ?st0 ?w0] =>
      destruct (@endCall_open st0 w0 eq_refl) as (evs & ->)
  end.
  destruct parsed; reflexivity.
Qed.

Lemma trailers_event (w : World) (n flags : Z) (md md' : Metadata)
    (parsed : result Metadata) :
  open_call w ->
  Z.land flags NGHTTP2_FLAG_END_STREAM = 0 ->
  let status := mkStatus (mapStatus (HNumber n)) "" (metadata_of parsed) in
  let p := nextPromise (call w) in
  events_of (perform (OpTrailers parsed)
               (step (OpResponse (HNumber n) flags (Ok md)) w))
  = [ReceiveTrailers (S p) status]
  /\ events_of (perform (OpTrailers parsed)
                  (run [OpResponse (HNumber n) flags (Ok md);
                        OpMetadataFiltered p (Ok md')] w))
     = [ReceiveTrailers (S p) status].
Proof.
  intros (Hfs & (stream & Hst) & Hset & Hjobs) Hflags.
  destruct w as [c s].
  destruct c as [fs msc hs sd sb hh ht st fm ft js np dl].
  simpl in *. subst fs hs js.
  apply Z.eqb_eq in Hflags. unfold NGHTTP2_FLAG_END_STREAM in Hflags.
  split.
  - unfold step. call_eval. rewrite Hflags. call_eval.
    destruct parsed; reflexivity.
  - unfold run, fold_left, step. call_eval. rewrite Hflags. call_eval.
    rewrite !existsb_here. call_eval.
    destruct parsed; reflexivity.
Qed.

Lemma close_without_trailers (w : World) (n flags rstCode : Z) (md : Metadata) :
  open_call w ->
  existsb (Nat.eqb (handlingTrailers (call w))) (settled (call w)) = true ->
  Z.land flags NGHTTP2_FLAG_END_STREAM = 0 ->
  finalStatus
    (call (run [OpResponse (HNumber n) flags (Ok md); OpClose rstCode] w))
  = Some (rstStatus rstCode).
Proof.
  intros (Hfs & (stream & Hst) & Hset & Hjobs) Htr Hflags.
  destruct w as [c s].
  destruct c as [fs msc hs sd sb hh ht st fm ft js np dl].
  simpl in *. subst fs hs js.
  apply Z.eqb_eq in Hflags. unfold NGHTTP2_FLAG_END_STREAM in Hflags.
  unfold run, fold_left, step. call_eval. rewrite Hflags. call_eval.
  rewrite Htr. call_eval.
  match goal with
  | |- context [endCall ?st0 ?w0] =>
      destruct (@endCall_open st0 w0 eq_refl) as (evs & ->)
  end.
  reflexivity.
Qed.

(** C9, amended: the code mapped from [:status] is 400 -> INTERNAL,
    401 -> UNAUTHENTICATED, 403 -> PERMISSION_DENIED, 404 -> UNIMPLEMENTED,
    429, 502, 503, 504 -> UNAVAILABLE, any other value -> UNKNOWN.  On a
    call that is still open, the status handed to the trailers filters
    carries that code, empty details and the metadata of the trailers, both
    when the response itself carries END_STREAM and when a ['trailers']
    event follows the response (before or after the filters are done with
    the headers); when the filters return that status unchanged, as they do
    without [grpc-status], it is the final status.  A stream that closes
    after the response with no trailers handled ends with the status of its
    RST_STREAM code instead. *)
Theorem C9_http_status_mapping_amended :
  (mapStatus (HNumber 400) = INTERNAL
   /\ mapStatus (HNumber 401) = UNAUTHENTICATED
   /\ mapStatus (HNumber 403) = PERMISSION_DENIED
   /\ mapStatus (HNumber 404) = UNIMPLEMENTED
   /\ mapStatus (HNumber 429) = UNAVAILABLE
   /\ mapStatus (HNumber 502) = UNAVAILABLE
   /\ mapStatus (HNumber 503) = UNAVAILABLE
   /\ mapStatus (HNumber 504) = UNAVAILABLE
   /\ forall n : Z,
        n <> 400 -> n <> 401 -> n <> 403 -> n <> 404 ->
        n <> 429 -> n <> 502 -> n <> 503 -> n <> 504 ->
        mapStatus (HNumber n) = UNKNOWN)
  /\
  (forall (w : World) (n flags : Z) (parsed : result Metadata),
     open_call w ->
     Z.land flags NGHTTP2_FLAG_END_STREAM <> 0 ->
     let status := mkStatus (mapStatus (HNumber n)) "" (metadata_of parsed) in
     let p := nextPromise (call w) in
     events_of (perform (OpResponse (HNumber n) flags parsed) w)
     = [ReceiveTrailers p status]
     /\ finalStatus
          (call (run [OpResponse (HNumber n) flags parsed;
                      OpTrailersFiltered p (Ok status)] w))
        = Some status)
  /\
  (forall (w : World) (n flags : Z) (md md' : Metadata)
          (parsed : result Metadata),
     open_call w ->
     Z.land flags NGHTTP2_FLAG_END_STREAM = 0 ->
     let status := mkStatus (mapStatus (HNumber n)) "" (metadata_of parsed) in
     let p := nextPromise (call w) in
     events_of (perform (OpTrailers parsed)
                  (step (OpResponse (HNumber n) flags (Ok md)) w))
     = [ReceiveTrailers (S p) status]
     /\ events_of (perform (OpTrailers parsed)
                     (run [OpResponse (HNumber n) flags (Ok md);
                           OpMetadataFiltered p (Ok md')] w))
        = [ReceiveTrailers (S p) status]
     /\ finalStatus
          (call (run [OpResponse (HNumber n) flags (Ok md);
                      OpMetadataFiltered p (Ok md');
                      OpTrailers parsed;
                      OpTrailersFiltered (S p) (Ok status)] w))
        = Some status)
  /\
  (forall (w : World) (n flags rstCode : Z) (md : Metadata),
     open_call w ->
     existsb (Nat.eqb (handlingTrailers (call w))) (settled (call w)) = true ->
     Z.land flags NGHTTP2_FLAG_END_STREAM = 0 ->
     finalStatus
       (call (run [OpResponse (HNumber n) flags (Ok md); OpClose rstCode] w))
     = Some (rstStatus rstCode)).
Proof.
  split; [|split; [|split]].
  - repeat split. exact mapStatus_other.
  - exact trailers_only_response.
  - intros w n flags md md' parsed Ho Hf.
    destruct (@trailers_event w n flags md md' parsed Ho Hf) as [E1 E2].
    split; [exact E1|]. split; [exact E2|].
    exact (@response_then_trailers w n flags md md' parsed Ho Hf).
  - exact close_without_trailers.
Qed.

Lemma attached_call_open : open_call attached_call.
Proof.
  unfold open_call. repeat split; try reflexivity.
  exists O. reflexivity.
Qed.

Lemma C9_http_status_mapping_amended_witness :
  finalStatus
    (call (run [OpResponse (HNumber 404) 1 (Ok []);
                OpTrailersFiltered 1%nat (Ok (mkStatus UNIMPLEMENTED "" []))]
               attached_call))
  = Some (mkStatus UNIMPLEMENTED "" [])
  /\ events_of (perform (OpTrailers (Ok []))
                  (step (OpResponse (HNumber 404) 0 (Ok [])) attached_call))
     = [ReceiveTrailers 2%nat (mkStatus UNIMPLEMENTED "" [])]
  /\ finalStatus
       (call (run [OpResponse (HNumber 404) 0 (Ok []); OpClose 0] attached_call))
     = Some (rstStatus 0).
Proof.
  split; [|split].
  - refine (proj2 (proj1 (proj2 C9_http_status_mapping_amended)
                     attached_call 404 1 (Ok []) attached_call_open _)).
    vm_compute. discriminate.
  - refine (proj1 (proj1 (proj2 (proj2 C9_http_status_mapping_amended))
                     attached_call 404 0 [] [] (Ok []) attached_call_open _)).
    reflexivity.
  - refine (proj2 (proj2 (proj2 C9_http_status_mapping_amended))
              attached_call 404 0 0 [] attached_call_open _ _);
      reflexivity.
Defined.

(** ** Cancellation *)


(** ** Rules that every piece of the call stream respects *)

Section Rules.
Variable R : Rule.
Hypothesis R_refl : forall w, R w w [].
Hypothesis R_trans :
  forall w w1 w2 e1 e2, R w w1 e1 -> R w1 w2 e2 -> R w w2 (e1 ++ e2).
Hypothesis R_modify : forall g, keeps g -> respects R (modify (on_call g)).
Hypothesis R_emit : forall e, plain e -> respects R (emit e).
Hypothesis R_endCall : forall status, respects R (endCall status).

Lemma respects_ret {A} (a : A) : respects R (ret a : W A).
Proof. intros w. apply R_refl. Qed.

Lemma respects_gets {A} (f : World -> A) : respects R (gets f).
Proof. intros w. apply R_refl. Qed.

Lemma respects_throw {A} (msg : string) : respects R (throw msg : W A).
Proof. intros w. apply R_refl. Qed.

Lemma respects_bind {A B} (c : W A) (k : A -> W B) :
  respects R c -> (forall a, respects R (k a)) -> respects R (bind c k).
Proof.
  intros Hc Hk w. unfold bind, state_of, events_of.
  specialize (Hc w). unfold state_of, events_of in Hc.
  destruct (c w) as [[[a|msg] w1] e1]; cbn [fst snd] in *.
  - specialize (Hk a w1). unfold state_of, events_of in Hk.
    destruct (k a w1) as [[r w2] e2]; cbn [fst snd] in *.
    eapply R_trans; eassumption.
  - exact Hc.
Qed.

Ltac keeps_done :=
  let c := fresh "c" in
  intros c; destruct c; repeat split.

Ltac rule_step :=
  lazymatch goal with
  | |- respects _ (bind _ _) => apply respects_bind; [|intros ?]
  | |- respects _ (ret _) => apply respects_ret
  | |- respects _ (gets _) => apply respects_gets
  | |- respects _ (throw _) => apply respects_throw
  | |- respects _ (modify (on_call _)) => apply R_modify; keeps_done
  | |- respects _ (emit _) => apply R_emit; exact I
  | |- respects _ (endCall _) => apply R_endCall
  | |- respects _ (match ?x with _ => _ end) => destruct x
  | |- respects _ (if ?b then _ else _) => destruct b
  end.

Ltac rule_solve := cbv zeta; repeat rule_step.

Lemma respects_destroyHttp2Stream : respects R destroyHttp2Stream.
Proof. unfold destroyHttp2Stream. rule_solve. Qed.

Lemma respects_freshPromise : respects R freshPromise.
Proof. unfold freshPromise. rule_solve. Qed.

Lemma respects_settle (p : PromiseId) : respects R (settle p).
Proof. unfold settle. rule_solve. Qed.

Lemma respects_await (p : PromiseId) (j : Job) : respects R (await p j).
Proof. unfold await. rule_solve. Qed.

Lemma respects_runJob (j : Job) : respects R (runJob j).
Proof.
  unfold runJob. destruct j; rule_solve. apply respects_settle.
Qed.

Lemma respects_runJobs (fuel : nat) : respects R (runJobs fuel).
Proof.
  induction fuel as [|fuel IH]; cbn [runJobs]; rule_solve.
  - apply respects_runJob.
  - exact IH.
Qed.

Lemma respects_microtasks : respects R microtasks.
Proof. unfold microtasks. rule_solve. apply respects_runJobs. Qed.

Lemma respects_handleTrailers (parsed : result Metadata) :
  respects R (handleTrailers parsed).
Proof.
  unfold handleTrailers. rule_solve. apply respects_freshPromise.
Qed.

Lemma respects_trailersFiltered (p : PromiseId) (r : result StatusObject) :
  respects R (trailersFiltered p r).
Proof.
  unfold trailersFiltered. rule_solve; apply respects_await.
Qed.

Lemma respects_onResponse (status : HeaderValue) (flags : Z)
    (parsed : result Metadata) :
  respects R (onResponse status flags parsed).
Proof.
  unfold onResponse. rule_solve;
    first [apply respects_handleTrailers | apply respects_freshPromise].
Qed.

Lemma respects_metadataFiltered (p : PromiseId) (r : result Metadata) :
  respects R (metadataFiltered p r).
Proof.
  unfold metadataFiltered. rule_solve;
    first [apply respects_settle | apply respects_destroyHttp2Stream].
Qed.

Lemma respects_onClose (rstCode : Z) : respects R (onClose rstCode).
Proof. unfold onClose. rule_solve. apply respects_await. Qed.

Lemma respects_cancelWithStatus (status : Status) (details : string) :
  respects R (cancelWithStatus status details).
Proof.
  unfold cancelWithStatus. rule_solve;
    first [apply respects_destroyHttp2Stream | apply respects_await].
Qed.

Lemma respects_ifAttached (c : W unit) : respects R c -> respects R (ifAttached c).
Proof. intros H. unfold ifAttached. rule_solve. exact H. Qed.

(** Every operation but the attachment of the stream. *)
Lemma respects_perform (op : Op) :
  (forall stream, op <> OpAttach stream) -> respects R (perform op).
Proof.
  intros Hop. unfold perform. apply respects_bind; [|intros _; apply respects_microtasks].
  destruct op.
  - exfalso. exact (Hop stream eq_refl).
  - apply respects_ifAttached, respects_onResponse.
  - apply respects_ifAttached, respects_handleTrailers.
  - apply respects_metadataFiltered.
  - apply respects_trailersFiltered.
  - apply respects_ifAttached, respects_onClose.
  - apply respects_cancelWithStatus.
  - apply R_endCall.
  - apply R_endCall.
  - rule_solve.
Qed.
End Rules.

Lemma status_events_app (a b : list Event) :
  status_events (a ++ b) = status_events a ++ status_events b.
Proof.
  induction a as [|e a IH]; [reflexivity|].
  destruct e; simpl; rewrite ?IH; reflexivity.
Qed.

Lemma sub_events_app (a b : list Event) :
  sub_events (a ++ b) = sub_events a ++ sub_events b.
Proof.
  induction a as [|e a IH]; [reflexivity|].
  destruct e; simpl; rewrite ?IH; reflexivity.
Qed.

Lemma status_rule_refl (w : World) : status_rule w w [].
Proof.
  split.
  - destruct (finalStatus (call w)); reflexivity.
  - intros st H. auto.
Qed.

Lemma status_rule_trans (w w1 w2 : World) (e1 e2 : list Event) :
  status_rule w w1 e1 -> status_rule w1 w2 e2 -> status_rule w w2 (e1 ++ e2).
Proof.
  intros [H1 K1] [H2 K2]. split.
  - rewrite status_events_app, H1, H2.
    destruct (finalStatus (call w)) as [st|] eqn:E.
    + destruct (K1 st eq_refl) as (E1 & _). rewrite E1. reflexivity.
    + destruct (finalStatus (call w1)) as [st1|] eqn:E1; [|reflexivity].
      destruct (K2 st1 eq_refl) as (E2 & _). rewrite E2. reflexivity.
  - intros st E. destruct (K1 st E) as (E1 & S1 & U1).
    destruct (K2 st E1) as (E2 & S2 & U2).
    rewrite sub_events_app, U1, U2. repeat split; congruence.
Qed.

Lemma status_rule_modify (g : t -> t) :
  keeps g -> respects status_rule (modify (on_call g)).
Proof.
  intros Hg w. destruct (Hg (call w)) as (E & _).
  unfold modify, state_of, events_of, on_call, status_rule. cbn [fst snd call sub].
  rewrite E. split.
  - destruct (finalStatus (call w)); reflexivity.
  - intros st H. auto.
Qed.

Lemma status_rule_emit (e : Event) : plain e -> respects status_rule (emit e).
Proof.
  intros He w. unfold emit, state_of, events_of, status_rule. cbn [fst snd].
  destruct e; try contradiction; (split; [destruct (finalStatus (call w)); reflexivity|]);
    intros st H; auto.
Qed.

Lemma sub_events_of_subchannel (evs : list Subchannel.Event) :
  sub_events (map OfSubchannel evs) = evs.
Proof. induction evs as [|e evs IH]; simpl; [reflexivity|rewrite IH; reflexivity]. Qed.

Lemma status_rule_endCall (status : StatusObject) :
  respects status_rule (endCall status).
Proof.
  intros w. destruct (finalStatus (call w)) as [st|] eqn:E.
  - rewrite endCall_ended by congruence. apply status_rule_refl.
  - destruct (@endCall_open status w E) as (evs & ->).
    unfold state_of, events_of, status_rule. cbn [fst snd call sub].
    rewrite E. split.
    + cbn [status_events]. rewrite status_events_of_subchannel.
      destruct (call w); reflexivity.
    + intros st H. discriminate H.
Qed.

Lemma open_rule_refl (w : World) : open_rule w w [].
Proof. split; reflexivity. Qed.

Lemma open_rule_trans (w w1 w2 : World) (e1 e2 : list Event) :
  open_rule w w1 e1 -> open_rule w1 w2 e2 -> open_rule w w2 (e1 ++ e2).
Proof.
  intros [H1 K1] [H2 K2]. split.
  - rewrite status_events_app, H1, H2. reflexivity.
  - congruence.
Qed.

Lemma open_rule_liftSub {A} (c : Subchannel.Sub A) : respects open_rule (liftSub c).
Proof.
  intros w. unfold liftSub, state_of, events_of, open_rule.
  destruct (c (sub w)) as [[r s'] evs]. cbn [fst snd call].
  split; [apply status_events_of_subchannel|reflexivity].
Qed.

Lemma open_rule_modify (g : t -> t) :
  (forall c, finalStatus (g c) = finalStatus c) ->
  respects open_rule (modify (on_call g)).
Proof.
  intros Hg w. unfold modify, state_of, events_of, on_call, open_rule.
  cbn [fst snd call]. split; [reflexivity|apply Hg].
Qed.

Lemma status_rule_attach (stream : StreamId) :
  respects status_rule (attachHttp2Stream stream).
Proof.
  intros w. destruct (finalStatus (call w)) as [st|] eqn:E.
  - unfold attachHttp2Stream, bind, gets. cbn [fst snd]. rewrite E.
    unfold emit, state_of, events_of, status_rule. cbn [fst snd app].
    rewrite E. split; [reflexivity|]. intros st' H. auto.
  - assert (H : open_rule w (state_of (attachHttp2Stream stream w))
                  (events_of (attachHttp2Stream stream w))).
    { unfold attachHttp2Stream.
      apply (respects_bind open_rule_trans).
      - intros w0. apply open_rule_refl.
      - intros fs. destruct fs.
        + intros w0. unfold emit, state_of, events_of. split; reflexivity.
        + repeat (apply (respects_bind open_rule_trans); [|intros ?]);
            try (apply open_rule_modify; intros c; destruct c; reflexivity);
            try apply open_rule_liftSub.
          intros w0. apply open_rule_refl. }
    destruct H as [H1 H2]. split.
    + rewrite E, H1, H2, E. reflexivity.
    + intros st K. congruence.
Qed.

Lemma status_rule_perform (op : Op) : respects status_rule (perform op).
Proof.
  destruct op as [stream| | | | | | | | |];
    try (apply (respects_perform status_rule_refl status_rule_trans
                  status_rule_modify status_rule_emit status_rule_endCall);
         intros stream; discriminate).
  unfold perform.
  apply (respects_bind status_rule_trans); [apply status_rule_attach|].
  intros _.
  apply (respects_microtasks status_rule_refl status_rule_trans
           status_rule_modify status_rule_endCall).
Qed.

Lemma status_rule_trace (ops : list Op) (w : World) :
  status_rule w (run ops w) (trace ops w).
Proof.
  revert w. induction ops as [|op ops IH]; intros w.
  - apply status_rule_refl.
  - cbn [run fold_left trace]. eapply status_rule_trans.
    + apply status_rule_perform.
    + apply IH.
Qed.

(** X18: over any history of operations, from a call that has not ended,
    the ['status'] event is scheduled exactly when the call ends, once, and
    with the final status; from a call that has ended, the final status
    stays what it is, no further ['status'] event is scheduled and the
    subchannel is neither changed nor called. *)
Theorem X18_status_once (ops : list Op) (w : World) :
  (finalStatus (call w) = None ->
   status_events (trace ops w) = opt_list (finalStatus (call (run ops w))))
  /\
  (forall st,
     finalStatus (call w) = Some st ->
     finalStatus (call (run ops w)) = Some st
     /\ sub (run ops w) = sub w
     /\ status_events (trace ops w) = []
     /\ sub_events (trace ops w) = []).
Proof.
  destruct (status_rule_trace ops w) as [H K]. split.
  - intros E. rewrite H, E. reflexivity.
  - intros st E. destruct (K st E) as (E1 & E2 & E3).
    rewrite H, E. auto.
Qed.

Lemma X18_status_once_witness :
  status_events (trace [OpClose 8; OpCancelWithStatus CANCELLED "late"] attached_call)
  = opt_list (finalStatus (call (run [OpClose 8; OpCancelWithStatus CANCELLED "late"]
                                     attached_call))).
Proof.
  apply (proj1 (X18_status_once [OpClose 8; OpCancelWithStatus CANCELLED "late"]
                                attached_call)).
  reflexivity.
Defined.

(** ** Trailers and a late close *)

Ltac end_now :=
  match goal with
  | |- context [endCall ?st0 ?w0] =>
      destruct (@endCall_open st0 w0 eq_refl) as (? & ->)
  end.

(** X19: when the trailers arrive on a call that has not ended, has a
    stream attached and has its headers promise settled with no job
    waiting, and the stream then closes, or the call is cancelled, before
    the trailers filters have finished, the call stays open until they
    finish and then ends with the
    status they leave (or with INTERNAL, "Failed to process received
    status", if they fail): the status of the close or of the cancellation
    is not used. *)
Theorem X19_trailers_before_close (w : World) (parsed : result Metadata)
    (r : result StatusObject) (late : Op) :
  open_call w ->
  is_settled (call w) (nextPromise (call w)) = false ->
  (exists rstCode, late = OpClose rstCode)
  \/ (exists status details, late = OpCancelWithStatus status details) ->
  let p := nextPromise (call w) in
  finalStatus (call (run [OpTrailers parsed; late] w)) = None
  /\ finalStatus (call (run [OpTrailers parsed; late; OpTrailersFiltered p r] w))
     = Some (filtered_status r).
Proof.
  intros (Hfs & (stream & Hst) & Hset & Hjobs) Hnp Hlate.
  destruct w as [c s].
  destruct c as [fs msc hs sd sb hh ht st fm ft js np dl].
  unfold is_settled in Hnp.
  simpl in *. subst fs hs js.
  destruct sd; (split;
    [ destruct Hlate as [(rstCode & ->)|(status & details & ->)];
      unfold run, fold_left, step; call_eval; rewrite Hnp; reflexivity
    | destruct Hlate as [(rstCode & ->)|(status & details & ->)]; destruct r;
      unfold run, fold_left, step; call_eval; rewrite Hnp; call_eval;
      rewrite !existsb_here; call_eval; rewrite Hnp, Hset; call_eval ]).
  all: end_now; call_eval; rewrite existsb_here; call_eval.
  all: rewrite endCall_ended by (simpl; discriminate).
  all: reflexivity.
Qed.

Lemma X19_trailers_before_close_witness :
  finalStatus (call (run [OpTrailers (Ok []); OpClose 8] attached_call)) = None
  /\ finalStatus
       (call (run [OpTrailers (Ok []); OpClose 8;
                   OpTrailersFiltered (nextPromise (call attached_call))
                                      (Ok (mkStatus OK "" []))]
                  attached_call))
     = Some (filtered_status (Ok (mkStatus OK "" []))).
Proof.
  apply (@X19_trailers_before_close attached_call (Ok []) (Ok (mkStatus OK "" []))
           (OpClose 8)).
  - exact attached_call_open.
  - reflexivity.
  - left. exists 8. reflexivity.
Defined.

(** ** The call's hold on its subchannel *)

Lemma balance_rule_refl (w : World) : balance_rule w w [].
Proof. repeat split. Qed.

Lemma balance_rule_trans (w w1 w2 : World) (e1 e2 : list Event) :
  balance_rule w w1 e1 -> balance_rule w1 w2 e2 -> balance_rule w w2 (e1 ++ e2).
Proof.
  intros (A1 & B1 & C1 & D1) (A2 & B2 & C2 & D2).
  repeat split; try congruence; try lia.
Qed.

Lemma balance_rule_modify (g : t -> t) :
  keeps g -> respects balance_rule (modify (on_call g)).
Proof.
  intros Hg w. destruct (Hg (call w)) as (E1 & E2 & E3 & _).
  unfold modify, state_of, events_of, on_call, balance_rule, holds, is_open, registered.
  cbn [fst snd call sub]. rewrite E1, E2, E3. repeat split.
Qed.

Lemma balance_rule_emit (e : Event) : plain e -> respects balance_rule (emit e).
Proof. intros _ w. apply balance_rule_refl. Qed.

Lemma count_remove_first (l : nat) (ls : list nat) :
  (1 <= count_occ Nat.eq_dec ls l)%nat ->
  (count_occ Nat.eq_dec (Subchannel.remove_first l ls) l + 1
   = count_occ Nat.eq_dec ls l)%nat.
Proof.
  induction ls as [|x ls IH]; cbn [count_occ Subchannel.remove_first].
  - lia.
  - intros H. destruct (Nat.eq_dec x l) as [->|Hne].
    + rewrite Nat.eqb_refl. lia.
    + destruct (Nat.eqb_spec x l) as [|_]; [contradiction|].
      cbn [count_occ]. destruct (Nat.eq_dec x l); [contradiction|].
      apply IH, H.
Qed.

Lemma released_spec (l : Subchannel.ListenerId) (s : Subchannel.t) :
  Subchannel.callRefcount (released l s) = Subchannel.callRefcount s - 1
  /\ Subchannel.disconnectListeners (released l s)
     = Subchannel.remove_first l (Subchannel.disconnectListeners s).
Proof.
  unfold released, bind, state_of.
  destruct (callUnref_spec s) as (s' & evs & -> & Hc & Hl).
  rewrite removeDisconnectListener_spec. cbn [fst snd].
  destruct s'. cbn in *. subst. split; reflexivity.
Qed.

Lemma balance_rule_endCall (status : StatusObject) :
  respects balance_rule (endCall status).
Proof.
  intros w. destruct (finalStatus (call w)) as [st|] eqn:E.
  - rewrite endCall_ended by congruence. apply balance_rule_refl.
  - destruct (@endCall_open status w E) as (evs & ->).
    unfold state_of, events_of, balance_rule, holds, is_open, registered.
    cbn [fst snd call sub]. rewrite E.
    destruct w as [c s]. destruct c as [fs msc hs sd sb hh ht st fm ft js np dl].
    cbn in *. subst fs.
    destruct sb; cbn.
    + destruct (released_spec dl s) as (Hc & Hl). rewrite Hc, Hl.
      repeat split; try lia.
      intros H. pose proof (count_remove_first _ _ H). lia.
    + repeat split; lia.
Qed.

Lemma balance_rule_perform (op : Op) :
  no_attach op -> respects balance_rule (perform op).
Proof.
  apply (respects_perform balance_rule_refl balance_rule_trans
           balance_rule_modify balance_rule_emit balance_rule_endCall).
Qed.

Lemma balance_rule_trace (ops : list Op) (w : World) :
  Forall no_attach ops -> balance_rule w (run ops w) (trace ops w).
Proof.
  intros H. revert w. induction H as [|op ops Hop Hops IH]; intros w.
  - apply balance_rule_refl.
  - cbn [run fold_left trace]. eapply balance_rule_trans.
    + apply balance_rule_perform, Hop.
    + apply IH.
Qed.

Lemma callRef_spec (s : Subchannel.t) :
  Subchannel.session s <> None ->
  exists s' evs,
    Subchannel.callRef s = (Ok tt, s', evs)
    /\ Subchannel.callRefcount s' = Subchannel.callRefcount s + 1
    /\ Subchannel.disconnectListeners s' = Subchannel.disconnectListeners s.
Proof.
  destruct s as [cs ses cc sl dl kt kto cr r ns].
  intros Hses. unfold Subchannel.callRef.
  destruct ses as [sid|]; [clear Hses|exfalso; exact (Hses eq_refl)].
  SubchannelFacts.sub_eval;
    repeat match goal with
    | |- context [Z.eqb ?a ?b] => destruct (Z.eqb a b); SubchannelFacts.sub_eval
    end;
    do 2 eexists; (split; [reflexivity|split; reflexivity]).
Qed.

Lemma count_added (l : nat) (ls : list nat) :
  count_occ Nat.eq_dec (ls ++ [l]) l = S (count_occ Nat.eq_dec ls l).
Proof.
  rewrite count_occ_app. cbn [count_occ].
  destruct (Nat.eq_dec l l); [lia|contradiction].
Qed.

(** The attachment of a stream to an open call that holds no subchannel
    yet. *)
Lemma attach_open (stream : StreamId) (w : World) :
  finalStatus (call w) = None ->
  subchannel (call w) = false ->
  Subchannel.session (sub w) <> None ->
  let w1 := state_of (attachHttp2Stream stream w) in
  value_of (attachHttp2Stream stream w) = Ok tt
  /\ holds w1 = true
  /\ disconnectListener (call w1) = disconnectListener (call w)
  /\ Subchannel.callRefcount (sub w1) = Subchannel.callRefcount (sub w) + 1
  /\ registered w1 = S (registered w).
Proof.
  intros Hfs Hsb Hses. destruct w as [c s].
  destruct c as [fs msc hs sd sb hh ht st fm ft js np dl].
  cbn in Hfs, Hsb, Hses. subst fs sb.
  unfold attachHttp2Stream, bind, gets, modify, on_call, liftSub, state_of, value_of.
  cbn [fst snd call sub finalStatus disconnectListener set_http2Stream
       set_subchannel mappedStatusCode http2Stream streamDestroyed subchannel
       handlingHeaders handlingTrailers settled filteringMetadata
       filteringTrailers jobs nextPromise].
  unfold Subchannel.addDisconnectListener, bind, gets, modify.
  cbn [fst snd].
  match goal with
  | |- context [Subchannel.callRef ?s1] =>
      destruct (@callRef_spec s1) as (s' & evs & -> & Hc & Hl);
        [destruct s; exact Hses|]
  end.
  cbn [fst snd call sub]. unfold holds, is_open, registered.
  cbn [call sub subchannel finalStatus disconnectListener andb].
  rewrite Hc, Hl. destruct s. cbn.
  repeat split. apply count_added.
Qed.

Lemma attach_ended (stream : StreamId) (w : World) :
  finalStatus (call w) <> None ->
  attachHttp2Stream stream w = (Ok tt, w, [StreamClose stream NGHTTP2_CANCEL]).
Proof.
  intros H. unfold attachHttp2Stream, bind, gets.
  destruct (finalStatus (call w)); [reflexivity|congruence].
Qed.

(** The turn of the event loop that attaches the stream. *)
Lemma attach_step (stream : StreamId) (w : World) :
  subchannel (call w) = false ->
  Subchannel.session (sub w) <> None ->
  let w2 := step (OpAttach stream) w in
  subchannel (call w2) = is_open w
  /\ Subchannel.callRefcount (sub w2)
     = Subchannel.callRefcount (sub w) + Z.b2z (holds w2)
  /\ registered w2 = (registered w + b2n (holds w2))%nat.
Proof.
  intros Hsb Hses.
  pose proof (respects_microtasks balance_rule_refl balance_rule_trans
                balance_rule_modify balance_rule_endCall) as Hm.
  unfold step, perform, is_open. destruct (finalStatus (call w)) as [st|] eqn:E.
  - unfold bind, state_of. rewrite attach_ended by congruence.
    specialize (Hm w). unfold state_of in Hm.
    destruct (microtasks w) as [[r w2] evs]. cbn [fst snd] in *.
    destruct Hm as (A & B & C & D).
    assert (Hw : holds w = false) by (unfold holds; rewrite Hsb; reflexivity).
    assert (Hw2 : holds w2 = false) by (unfold holds; rewrite A, Hsb; reflexivity).
    rewrite Hw, Hw2 in *. cbn [b2n Z.b2z] in *.
    repeat split; try lia; try congruence.
  - destruct (@attach_open stream w E Hsb Hses) as (Hv & Hh & Hd & Hc & Hr).
    unfold bind, state_of, value_of in *.
    destruct (attachHttp2Stream stream w) as [[r w1] e1]. cbn [fst snd] in *.
    subst r. specialize (Hm w1). unfold state_of in Hm.
    destruct (microtasks w1) as [[r w2] evs]. cbn [fst snd] in *.
    destruct Hm as (A & B & C & D).
    rewrite Hh in *. cbn [b2n Z.b2z] in *.
    assert (Hs1 : subchannel (call w1) = true).
    { unfold holds in Hh. apply andb_prop in Hh. tauto. }
    repeat split; try lia; try congruence.
Qed.

(** X21: a stream is attached, on a subchannel with a session, to a call
    that holds no subchannel yet; whatever happens afterwards, short of a
    second attachment, the call accounts for exactly one call reference on
    the subchannel and one registration of its disconnect listener while
    it has not ended, and for none once it has ended. *)
Theorem X21_reference_balance (stream : StreamId) (ops : list Op) (w : World) :
  subchannel (call w) = false ->
  Subchannel.session (sub w) <> None ->
  Forall no_attach ops ->
  Subchannel.callRefcount (sub (run (OpAttach stream :: ops) w))
  = Subchannel.callRefcount (sub w)
    + Z.b2z (is_open (run (OpAttach stream :: ops) w))
  /\ registered (run (OpAttach stream :: ops) w)
     = (registered w + b2n (is_open (run (OpAttach stream :: ops) w)))%nat.
Proof.
  intros Hsb Hses Hops.
  destruct (status_rule_trace (OpAttach stream :: ops) w) as [_ K].
  cbn [run fold_left] in *. fold (run ops (step (OpAttach stream) w)) in *.
  destruct (@attach_step stream w Hsb Hses) as (A2 & C2 & D2).
  destruct (@balance_rule_trace ops (step (OpAttach stream) w) Hops)
    as (A & _ & C & D).
  set (w2 := step (OpAttach stream) w) in *.
  set (w' := run ops w2) in *.
  assert (Hh : holds w' = is_open w').
  { unfold holds, is_open in *. rewrite A, A2.
    destruct (finalStatus (call w)) as [st|] eqn:E; [|reflexivity].
    destruct (K st eq_refl) as (-> & _). reflexivity. }
  rewrite Hh in *. lia.
Qed.

Lemma X21_reference_balance_witness :
  Subchannel.callRefcount
    (sub (run [OpAttach O; OpClose 8] (mkWorld (create O) ready_subchannel)))
  = Subchannel.callRefcount ready_subchannel
    + Z.b2z (is_open (run [OpAttach O; OpClose 8]
                          (mkWorld (create O) ready_subchannel)))
  /\ registered (run [OpAttach O; OpClose 8] (mkWorld (create O) ready_subchannel))
     = (registered (mkWorld (create O) ready_subchannel)
        + b2n (is_open (run [OpAttach O; OpClose 8]
                            (mkWorld (create O) ready_subchannel))))%nat.
Proof.
  apply (@X21_reference_balance O [OpClose 8] (mkWorld (create O) ready_subchannel)).
  - reflexivity.
  - discriminate.
  - constructor; [|constructor]. intros stream. discriminate.
Defined.

(** ** Trailers that overtake the headers *)

(** X20: the response headers are being filtered when the trailers arrive
    and their filters finish first; the call then stays open until the
    metadata filters finish, and ends with UNKNOWN and the error message
    if they fail, with the status left by the trailers filters if they
    succeed. *)
Theorem X20_headers_failure_first (w : World) (status : HeaderValue) (flags : Z)
    (md : Metadata) (parsed : result Metadata) (st : StatusObject)
    (r : result Metadata) :
  open_call w ->
  Z.land flags NGHTTP2_FLAG_END_STREAM = 0 ->
  is_settled (call w) (nextPromise (call w)) = false ->
  is_settled (call w) (S (nextPromise (call w))) = false ->
  finalStatus (call (run (trailers_overtake w status flags md parsed st) w)) = None
  /\ finalStatus
       (call (run (trailers_overtake w status flags md parsed st
                   ++ [OpMetadataFiltered (nextPromise (call w)) r]) w))
     = Some (headers_then r st).
Proof.
  intros (Hfs & (stream & Hst) & Hset & Hjobs) Hflags Hnp Hnp'.
  destruct w as [c s].
  destruct c as [fs msc hs sd sb hh ht sl fm ft js np dl].
  unfold is_settled in Hnp, Hnp'.
  simpl in *. subst fs hs js.
  apply Z.eqb_eq in Hflags. unfold NGHTTP2_FLAG_END_STREAM in Hflags.
  split.
  - unfold trailers_overtake, run, fold_left, step. call_eval.
    rewrite Hflags. call_eval. rewrite ?existsb_here. call_eval.
    rewrite ?Hnp, ?Hnp'. reflexivity.
  - destruct r; destruct sd;
      unfold trailers_overtake, app, run, fold_left, step; call_eval;
      rewrite Hflags; call_eval; rewrite ?existsb_here; call_eval;
      rewrite ?Hnp, ?Hnp'; call_eval; rewrite ?existsb_here; call_eval.
    all: repeat (end_now; call_eval; rewrite ?existsb_here; call_eval).
    all: rewrite ?endCall_ended by (simpl; discriminate).
    all: reflexivity.
Qed.

Lemma X20_headers_failure_first_witness :
  finalStatus
    (call (run (trailers_overtake attached_call (HNumber 200) 4 [] (Ok [])
                  (mkStatus OK "" []))
               attached_call)) = None
  /\ finalStatus
       (call (run (trailers_overtake attached_call (HNumber 200) 4 [] (Ok [])
                     (mkStatus OK "" [])
                   ++ [OpMetadataFiltered (nextPromise (call attached_call))
                                          (Throw "bad metadata")])
                  attached_call))
     = Some (headers_then (Throw "bad metadata") (mkStatus OK "" [])).
Proof.
  apply (@X20_headers_failure_first attached_call (HNumber 200) 4 [] (Ok [])
           (mkStatus OK "" []) (Throw "bad metadata")).
  - exact attached_call_open.
  - reflexivity.
  - reflexivity.
  - reflexivity.
Defined.

(** ** What stays *)

Lemma stays_rule_refl (w : World) : stays_rule w w [].
Proof. split; auto. Qed.

Lemma stays_rule_trans (w w1 w2 : World) (e1 e2 : list Event) :
  stays_rule w w1 e1 -> stays_rule w1 w2 e2 -> stays_rule w w2 (e1 ++ e2).
Proof. intros [H1 K1] [H2 K2]. split; auto. Qed.

Lemma stays_rule_modify (g : t -> t) :
  keeps g -> respects stays_rule (modify (on_call g)).
Proof.
  intros Hg w. destruct (Hg (call w)) as (E1 & _ & _ & E4).
  unfold modify, state_of, events_of, on_call, stays_rule. cbn [fst snd call].
  rewrite E1, E4. split; auto.
Qed.

Lemma stays_rule_emit (e : Event) : plain e -> respects stays_rule (emit e).
Proof. intros _ w. apply stays_rule_refl. Qed.

Lemma stays_rule_endCall (status : StatusObject) :
  respects stays_rule (endCall status).
Proof.
  intros w. destruct (finalStatus (call w)) as [st|] eqn:E.
  - rewrite endCall_ended by congruence. apply stays_rule_refl.
  - destruct (@endCall_open status w E) as (evs & ->).
    unfold state_of, events_of, stays_rule. cbn [fst snd call].
    destruct (call w). cbn. split; [discriminate|auto].
Qed.

Lemma stays_rule_microtasks : respects stays_rule microtasks.
Proof.
  apply (respects_microtasks stays_rule_refl stays_rule_trans
           stays_rule_modify stays_rule_endCall).
Qed.

Lemma stays_rule_cancelWithStatus (status : Status) (details : string) :
  respects stays_rule (cancelWithStatus status details).
Proof.
  apply (respects_cancelWithStatus stays_rule_refl stays_rule_trans
           stays_rule_modify stays_rule_emit).
Qed.

Lemma stays_rule_attach (stream : StreamId) :
  respects stays_rule (attachHttp2Stream stream).
Proof.
  intros w. destruct (finalStatus (call w)) as [st|] eqn:E.
  - rewrite attach_ended by congruence. apply stays_rule_refl.
  - destruct (status_rule_attach stream w) as [_ K].
    unfold stays_rule. split; [intros H; congruence|intros _].
    destruct w as [c s]. destruct c as [fs msc hs sd sb hh ht st fm ft js np dl].
    cbn in E. subst fs.
    unfold attachHttp2Stream, bind, gets, modify, on_call, liftSub, state_of.
    cbn [fst snd call sub finalStatus disconnectListener set_http2Stream
         set_subchannel mappedStatusCode http2Stream streamDestroyed subchannel
         handlingHeaders handlingTrailers settled filteringMetadata
         filteringTrailers jobs nextPromise].
    destruct (Subchannel.addDisconnectListener dl s) as [[[u|msg] s1] e1];
      cbn [fst snd call sub http2Stream]; [|discriminate].
    destruct (Subchannel.callRef s1) as [[r s2] e2].
    cbn [fst snd call sub http2Stream]. discriminate.
Qed.

Lemma stays_rule_perform (op : Op) : respects stays_rule (perform op).
Proof.
  destruct op as [stream| | | | | | | | |];
    try (apply (respects_perform stays_rule_refl stays_rule_trans
                  stays_rule_modify stays_rule_emit stays_rule_endCall);
         intros stream; discriminate).
  unfold perform.
  apply (respects_bind stays_rule_trans); [apply stays_rule_attach|].
  intros _. apply stays_rule_microtasks.
Qed.

End CallStreamFacts.

(* ===================================================================== *)
(** * Properties of the message path of the call stream *)
(* ===================================================================== *)

Module CallStreamMessagesFacts.
Import Eff CallStreamMessages.

Lemma pushes_app (a b : list Event) : pushes (a ++ b) = pushes a ++ pushes b.
Proof.
  induction a as [|e a IH]; [reflexivity|].
  destruct e; simpl; rewrite ?IH; reflexivity.
Qed.

Lemma filter_inputs_app (a b : list Event) :
  filter_inputs (a ++ b) = filter_inputs a ++ filter_inputs b.
Proof.
  induction a as [|e a IH]; [reflexivity|].
  destruct e; simpl; rewrite ?IH; reflexivity.
Qed.

Lemma messages_of_app (a b : list (option Message)) :
  messages_of (a ++ b) = messages_of a ++ messages_of b.
Proof.
  induction a as [|[m|] a IH]; simpl; rewrite ?IH; reflexivity.
Qed.

Lemma pushes_OfCall (evs : list CallStream.Event) : pushes (map OfCall evs) = [].
Proof. induction evs; simpl; auto. Qed.

Lemma filter_inputs_OfCall (evs : list CallStream.Event) :
  filter_inputs (map OfCall evs) = [].
Proof. induction evs; simpl; auto. Qed.

Section Rules.
Variable R : Rule.
Hypothesis R_refl : forall w, R w w [].
Hypothesis R_trans :
  forall w w1 w2 e1 e2, R w w1 e1 -> R w1 w2 e2 -> R w w2 (e1 ++ e2).

Lemma rule_ret {A} (a : A) : respects R (ret a : W A).
Proof. intros w. apply R_refl. Qed.

Lemma rule_gets {A} (f : World -> A) : respects R (gets f).
Proof. intros w. apply R_refl. Qed.

Lemma rule_throw {A} (msg : string) : respects R (throw msg : W A).
Proof. intros w. apply R_refl. Qed.

Lemma rule_bind {A B} (c : W A) (k : A -> W B) :
  respects R c -> (forall a, respects R (k a)) -> respects R (bind c k).
Proof.
  intros Hc Hk w. unfold bind, state_of, events_of.
  specialize (Hc w). unfold state_of, events_of in Hc.
  destruct (c w) as [[[a|msg] w1] e1]; cbn [fst snd] in *.
  - specialize (Hk a w1). unfold state_of, events_of in Hk.
    destruct (k a w1) as [[r w2] e2]; cbn [fst snd] in *.
    eapply R_trans; eassumption.
  - exact Hc.
Qed.

(** [gets] followed by code that respects the rule in the state read. *)
Lemma rule_gets_bind {A B} (f : World -> A) (k : A -> W B) :
  (forall w, R w (state_of (k (f w) w)) (events_of (k (f w) w))) ->
  respects R (bind (gets f) k).
Proof.
  intros H w. specialize (H w). unfold bind, gets, state_of, events_of in *.
  destruct (k (f w) w) as [[r w2] e2]. exact H.
Qed.

Lemma rule_for_each {A} (xs : list A) (body : A -> W unit) :
  (forall x, respects R (body x)) -> respects R (for_each xs body).
Proof.
  intros H. induction xs as [|x xs IH]; cbn [for_each].
  - apply rule_ret.
  - apply rule_bind; [apply H|intros _; exact IH].
Qed.
End Rules.

(** [bind] under three rules: one for the first part, one for the second,
    and one that both make up. *)
Lemma bind_rule {A B} (R1 R2 R3 : Rule) (c : W A) (k : A -> W B) (w : World) :
  R1 w (state_of (c w)) (events_of (c w)) ->
  (forall a, respects R2 (k a)) ->
  (forall w1 e1, R1 w w1 e1 -> R3 w w1 e1) ->
  (forall w1 w2 e1 e2, R1 w w1 e1 -> R2 w1 w2 e2 -> R3 w w2 (e1 ++ e2)) ->
  R3 w (state_of (bind c k w)) (events_of (bind c k w)).
Proof.
  intros Hc Hk Hstop Hseq. unfold bind, state_of, events_of in *.
  destruct (c w) as [[[a|msg] w1] e1]; cbn [fst snd] in *.
  - specialize (Hk a w1). unfold state_of, events_of in Hk.
    destruct (k a w1) as [[r w2] e2]; cbn [fst snd] in *.
    eapply Hseq; eassumption.
  - apply Hstop, Hc.
Qed.

(** The same for a first part that returns. *)
Lemma bind_rule_ok {A B} (R1 R2 R3 : Rule) (c : W A) (k : A -> W B) (w : World)
    (a : A) :
  value_of (c w) = Ok a ->
  R1 w (state_of (c w)) (events_of (c w)) ->
  (forall a, respects R2 (k a)) ->
  (forall w1 w2 e1 e2, R1 w w1 e1 -> R2 w1 w2 e2 -> R3 w w2 (e1 ++ e2)) ->
  R3 w (state_of (bind c k w)) (events_of (bind c k w)).
Proof.
  intros Hv Hc Hk Hseq. unfold bind, state_of, events_of, value_of in *.
  destruct (c w) as [[r w1] e1]; cbn [fst snd] in *. subst r.
  specialize (Hk a w1). unfold state_of, events_of in Hk.
  destruct (k a w1) as [[r w2] e2]; cbn [fst snd] in *.
  eapply Hseq; eassumption.
Qed.

Lemma bind_gets {A B} (f : World -> A) (k : A -> W B) (w : World) :
  bind (gets f) k w = k (f w) w.
Proof.
  unfold bind, gets. destruct (k (f w) w) as [[r w2] e2]. reflexivity.
Qed.

(** What a method of the status side does to the message path. *)
Lemma liftCall_quiet {A} (c : CallStream.W A) (w : World) :
  CallStream.respects CallStream.stays_rule c ->
  fields (state_of (liftCall c w)) = fields w
  /\ (finalStatus w <> None -> finalStatus (state_of (liftCall c w)) <> None)
  /\ (http2Stream w <> None -> http2Stream (state_of (liftCall c w)) <> None)
  /\ pushes (events_of (liftCall c w)) = []
  /\ filter_inputs (events_of (liftCall c w)) = [].
Proof.
  intros Hc. specialize (Hc (base w)).
  unfold CallStream.stays_rule, liftCall, state_of, events_of, finalStatus,
    http2Stream in *.
  destruct (c (base w)) as [[r b'] evs]. cbn [fst snd base fields] in *.
  destruct Hc as [H1 H2].
  repeat split; auto using pushes_OfCall, filter_inputs_OfCall.
Qed.

Ltac world_fields w :=
  let b := fresh "b" in
  let r := fresh "r" in
  let c := fresh "c" in
  let s := fresh "s" in
  destruct w as [b r]; destruct b as [c s]; destruct c; destruct r.

Ltac msg_eval :=
  cbv -[app pushes filter_inputs messages_of map String.append repeat
        List.length Nat.add removelast not is_message].

Ltac msg_split :=
  repeat (msg_eval;
          match goal with
          | |- context [match ?x with _ => _ end] => is_var x; destruct x
          | |- context [match ?f ?n with _ => _ end] => is_var f; destruct (f n)
          end).

Lemma ended_rule_refl (w : World) : ended_rule 0 w w [].
Proof. intros H. auto. Qed.

Lemma ended_rule_trans (j k : nat) (w w1 w2 : World) (e1 e2 : list Event) :
  ended_rule j w w1 e1 -> ended_rule k w1 w2 e2 -> ended_rule (j + k) w w2 (e1 ++ e2).
Proof.
  intros H1 H2 H. destruct (H1 H) as (A1 & B1 & C1). destruct (H2 A1) as (A2 & B2 & C2).
  rewrite pushes_app, filter_inputs_app, B1, B2, C1, C2, repeat_app. auto.
Qed.

Lemma ended_rule_liftCall {A} (c : CallStream.W A) :
  CallStream.respects CallStream.stays_rule c ->
  respects (ended_rule 0) (liftCall c).
Proof.
  intros Hc w H. destruct (liftCall_quiet w Hc) as (_ & H1 & _ & H2 & H3). auto.
Qed.

Section Readable.
Variable push_returns : nat -> bool.

Ltac ended_start w H :=
  intros w H; world_fields w; cbn in H;
  match type of H with
  | ?fs <> None => destruct fs; [clear H|exfalso; apply H; reflexivity]
  end.

Lemma ended_rule_tryPush (mb : option Message) :
  respects (ended_rule 0) (tryPush push_returns mb).
Proof. ended_start w H. msg_split; repeat split; discriminate. Qed.

Lemma ended_rule_onData (messages : list Message) :
  respects (ended_rule 0) (onData push_returns messages).
Proof.
  unfold onData. induction messages as [|m ms IH]; cbn [for_each].
  - intros w. apply ended_rule_refl.
  - intros w. apply (@bind_rule _ _ (ended_rule 0) (ended_rule 0) (ended_rule 0)).
    + apply ended_rule_tryPush.
    + intros _. exact IH.
    + auto.
    + intros w1 w2 e1 e2. apply (@ended_rule_trans 0 0).
Qed.

Lemma ended_rule_ifAttached (c : W unit) :
  respects (ended_rule 0) c -> respects (ended_rule 0) (ifAttached c).
Proof.
  intros Hc w. specialize (Hc w). unfold ifAttached, bind, gets, state_of, events_of in *.
  cbn [fst snd]. destruct (http2Stream w).
  - destruct (c w) as [[r w1] e1]. exact Hc.
  - apply ended_rule_refl.
Qed.

Lemma ended_rule_handleFilteredRead (m : Message) :
  respects (ended_rule 0) (handleFilteredRead push_returns m).
Proof. ended_start w H. msg_split; repeat split; discriminate. Qed.

Lemma ended_rule_read : respects (ended_rule 1) (_read push_returns).
Proof. ended_start w H. msg_split; repeat split; discriminate. Qed.

Lemma ended_rule_write (chunk : Message) : respects (ended_rule 0) (_write chunk).
Proof. ended_start w H. msg_split; repeat split; discriminate. Qed.

Lemma ended_rule_final (cb : Callback) : respects (ended_rule 0) (_final cb).
Proof. ended_start w H. msg_split; repeat split; discriminate. Qed.

Lemma stays_handleFilterError (msg : string) :
  CallStream.respects CallStream.stays_rule (CallStream.handleFilterError msg).
Proof. apply CallStreamFacts.stays_rule_cancelWithStatus. Qed.

Lemma ended_rule_sendFiltered (r : result Message) (cb : Callback) :
  respects (ended_rule 0) (sendFiltered r cb).
Proof.
  destruct r as [m|msg].
  - ended_start w H. msg_split; repeat split; discriminate.
  - apply ended_rule_liftCall, stays_handleFilterError.
Qed.

Lemma ended_rule_attach (stream : CallStream.StreamId) :
  respects (ended_rule 0) (attachHttp2Stream stream).
Proof.
  intros w H. destruct (finalStatus w) as [st0|] eqn:E; [|congruence].
  destruct (liftCall_quiet w (CallStreamFacts.stays_rule_attach stream))
    as (_ & H1 & _ & H2 & H3).
  unfold attachHttp2Stream, bind, gets, state_of, events_of in *.
  cbn [fst snd]. rewrite E.
  destruct (liftCall (CallStream.attachHttp2Stream stream) w) as [[[u|msg] w1] e1];
    cbn [fst snd app ret] in *; rewrite ?app_nil_r;
    (repeat split; auto; apply H1; congruence).
Qed.

Lemma ended_rule_perform (op : Op) :
  respects (ended_rule (reads [op])) (perform push_returns op).
Proof.
  assert (Hm : forall u : unit,
             respects (ended_rule 0) (liftCall CallStream.microtasks)).
  { intros _. apply ended_rule_liftCall, CallStreamFacts.stays_rule_microtasks. }
  assert (Hseq : forall k w w1 w2 e1 e2,
             ended_rule k w w1 e1 -> ended_rule 0 w1 w2 e2 ->
             ended_rule k w w2 (e1 ++ e2)).
  { intros k w w1 w2 e1 e2 H1 H2. replace k with (k + 0)%nat by lia.
    eapply ended_rule_trans; eassumption. }
  intros w. destruct op as [op| | | | | | | |]; cbn [reads perform].
  - destruct op;
      try (apply ended_rule_liftCall, CallStreamFacts.stays_rule_perform).
    eapply bind_rule; [apply ended_rule_attach|exact Hm|auto|apply Hseq].
  - eapply bind_rule;
      [apply ended_rule_ifAttached, ended_rule_onData
      |exact Hm|auto|apply Hseq].
  - eapply bind_rule;
      [apply ended_rule_ifAttached, ended_rule_tryPush
      |exact Hm|auto|apply Hseq].
  - eapply bind_rule; [apply ended_rule_handleFilteredRead|exact Hm|auto|apply Hseq].
  - eapply bind_rule;
      [apply ended_rule_liftCall, stays_handleFilterError|exact Hm|auto|apply Hseq].
  - eapply bind_rule; [apply ended_rule_read|exact Hm|auto|apply Hseq].
  - eapply bind_rule; [apply ended_rule_write|exact Hm|auto|apply Hseq].
  - eapply bind_rule; [apply ended_rule_sendFiltered|exact Hm|auto|apply Hseq].
  - eapply bind_rule; [apply ended_rule_final|exact Hm|auto|apply Hseq].
Qed.

(** X26: once the call has ended, whatever arrives and whatever is asked,
    the reader is given nothing but the end of the stream, once for each
    [_read], and the filters are given no message. *)
Theorem X26_nothing_after_the_end (ops : list Op) (w : World) :
  finalStatus w <> None ->
  pushes (trace push_returns ops w) = repeat None (reads ops)
  /\ filter_inputs (trace push_returns ops w) = [].
Proof.
  revert w. induction ops as [|op ops IH]; intros w H.
  - split; reflexivity.
  - cbn [trace]. destruct (@ended_rule_perform op w H) as (H1 & H2 & H3).
    destruct (IH _ H1) as (K2 & K3). fold (step push_returns op w) in K2, K3.
    rewrite pushes_app, filter_inputs_app, H2, H3, K2, K3.
    split; [|reflexivity].
    rewrite <- repeat_app. f_equal. destruct op; reflexivity.
Qed.

Lemma waiting_rule_refl (w : World) : waiting_rule w w [].
Proof. intros H. auto. Qed.

Lemma waiting_rule_trans (w w1 w2 : World) (e1 e2 : list Event) :
  waiting_rule w w1 e1 -> waiting_rule w1 w2 e2 -> waiting_rule w w2 (e1 ++ e2).
Proof.
  intros H1 H2 H. destruct (H1 H) as (A1 & B1). destruct (H2 A1) as (A2 & B2).
  rewrite pushes_app, B1, B2. auto.
Qed.

Lemma waiting_rule_liftCall {A} (c : CallStream.W A) :
  CallStream.respects CallStream.stays_rule c ->
  respects waiting_rule (liftCall c).
Proof.
  intros Hc w H. destruct (liftCall_quiet w Hc) as (H0 & _ & _ & H2 & _).
  rewrite H0. auto.
Qed.

Ltac waiting_start w H :=
  intros w H; world_fields w; cbn in H; subst.

Lemma waiting_rule_tryPush (mb : option Message) :
  respects waiting_rule (tryPush push_returns mb).
Proof. waiting_start w H. msg_split; split; reflexivity. Qed.

Lemma waiting_rule_onData (messages : list Message) :
  respects waiting_rule (onData push_returns messages).
Proof.
  apply (rule_for_each waiting_rule_refl waiting_rule_trans).
  intros m. apply waiting_rule_tryPush.
Qed.

Lemma waiting_rule_ifAttached (c : W unit) :
  respects waiting_rule c -> respects waiting_rule (ifAttached c).
Proof.
  intros Hc w. unfold ifAttached. rewrite bind_gets.
  destruct (http2Stream w); [apply Hc|apply waiting_rule_refl].
Qed.

Lemma waiting_rule_handleFilteredRead (m : Message) :
  respects waiting_rule (handleFilteredRead push_returns m).
Proof. waiting_start w H. msg_split; split; reflexivity. Qed.

Lemma waiting_rule_write (chunk : Message) : respects waiting_rule (_write chunk).
Proof. waiting_start w H. msg_split; split; reflexivity. Qed.

Lemma waiting_rule_final (cb : Callback) : respects waiting_rule (_final cb).
Proof. waiting_start w H. msg_split; split; reflexivity. Qed.

Lemma waiting_rule_sendFiltered (r : result Message) (cb : Callback) :
  respects waiting_rule (sendFiltered r cb).
Proof.
  destruct r as [m|msg].
  - waiting_start w H. msg_split; split; reflexivity.
  - apply waiting_rule_liftCall, stays_handleFilterError.
Qed.

Lemma waiting_rule_attach (stream : CallStream.StreamId) :
  respects waiting_rule (attachHttp2Stream stream).
Proof.
  intros w. unfold attachHttp2Stream. rewrite bind_gets.
  apply (@bind_rule _ _ waiting_rule waiting_rule waiting_rule).
  - apply waiting_rule_liftCall, CallStreamFacts.stays_rule_attach.
  - intros _. destruct (finalStatus w).
    + intros w1. apply waiting_rule_refl.
    + waiting_start w1 H. msg_split; split; reflexivity.
  - auto.
  - apply waiting_rule_trans.
Qed.

Lemma waiting_rule_perform (op : Op) :
  op <> OpRead -> respects waiting_rule (perform push_returns op).
Proof.
  assert (Hm : forall u : unit, respects waiting_rule (liftCall CallStream.microtasks)).
  { intros _. apply waiting_rule_liftCall, CallStreamFacts.stays_rule_microtasks. }
  intros Hop. destruct op as [op| | | | | | | |]; cbn [perform].
  - destruct op;
      try (apply waiting_rule_liftCall, CallStreamFacts.stays_rule_perform).
    apply (rule_bind waiting_rule_trans); [apply waiting_rule_attach|exact Hm].
  - apply (rule_bind waiting_rule_trans);
      [apply waiting_rule_ifAttached, waiting_rule_onData|exact Hm].
  - apply (rule_bind waiting_rule_trans);
      [apply waiting_rule_ifAttached, waiting_rule_tryPush|exact Hm].
  - apply (rule_bind waiting_rule_trans);
      [apply waiting_rule_handleFilteredRead|exact Hm].
  - apply (rule_bind waiting_rule_trans);
      [apply waiting_rule_liftCall, stays_handleFilterError|exact Hm].
  - congruence.
  - apply (rule_bind waiting_rule_trans); [apply waiting_rule_write|exact Hm].
  - apply (rule_bind waiting_rule_trans); [apply waiting_rule_sendFiltered|exact Hm].
  - apply (rule_bind waiting_rule_trans); [apply waiting_rule_final|exact Hm].
Qed.

(** X24: while [canPush] is false, nothing is pushed to the reader until
    it calls [_read], whatever arrives meanwhile, and [canPush] stays
    false. *)
Theorem X24_reader_not_flooded (ops : list Op) (w : World) :
  canPush (fields w) = false ->
  reads ops = O ->
  pushes (trace push_returns ops w) = []
  /\ canPush (fields (run push_returns ops w)) = false.
Proof.
  revert w. induction ops as [|op ops IH]; intros w H Hr.
  - split; [reflexivity|exact H].
  - assert (Hop : op <> OpRead) by (intros ->; discriminate Hr).
    assert (Hr' : reads ops = O) by (destruct op; try exact Hr; congruence).
    cbn [trace run fold_left].
    destruct (@waiting_rule_perform op Hop w H) as (H1 & H2).
    destruct (IH _ H1 Hr') as (K1 & K2).
    rewrite pushes_app, H2. split; assumption.
Qed.

Lemma one_rule_refl (w : World) : one_rule 0 w w [].
Proof. unfold one_rule. cbn. lia. Qed.

Lemma one_rule_trans (j k : nat) (w w1 w2 : World) (e1 e2 : list Event) :
  one_rule j w w1 e1 -> one_rule k w1 w2 e2 -> one_rule (j + k) w w2 (e1 ++ e2).
Proof.
  unfold one_rule. intros H1 H2. rewrite filter_inputs_app, length_app. lia.
Qed.

Lemma one_rule_seq (k : nat) (w w1 w2 : World) (e1 e2 : list Event) :
  one_rule k w w1 e1 -> one_rule 0 w1 w2 e2 -> one_rule k w w2 (e1 ++ e2).
Proof.
  intros H1 H2. replace k with (k + 0)%nat by lia.
  eapply one_rule_trans; eassumption.
Qed.

Lemma one_rule_liftCall {A} (c : CallStream.W A) :
  CallStream.respects CallStream.stays_rule c ->
  respects (one_rule 0) (liftCall c).
Proof.
  intros Hc w. destruct (liftCall_quiet w Hc) as (H0 & _ & _ & _ & H3).
  unfold one_rule. rewrite H0, H3. cbn. lia.
Qed.

Ltac one_simple :=
  let w := fresh "w" in intros w; world_fields w; msg_split; cbn; lia.

Lemma one_rule_tryPush (mb : option Message) :
  respects (one_rule 0) (tryPush push_returns mb).
Proof. one_simple. Qed.

Lemma one_rule_onData (messages : list Message) :
  respects (one_rule 0) (onData push_returns messages).
Proof.
  apply (rule_for_each one_rule_refl (@one_rule_trans 0 0)).
  intros m. apply one_rule_tryPush.
Qed.

Lemma one_rule_ifAttached (c : W unit) :
  respects (one_rule 0) c -> respects (one_rule 0) (ifAttached c).
Proof.
  intros Hc w. unfold ifAttached. rewrite bind_gets.
  destruct (http2Stream w); [apply Hc|apply one_rule_refl].
Qed.

Lemma one_rule_handleFilteredRead (m : Message) :
  respects (one_rule 1) (handleFilteredRead push_returns m).
Proof. one_simple. Qed.

Lemma one_rule_readLoop (waiting : list (option Message)) :
  respects (one_rule 0) (readLoop push_returns waiting).
Proof.
  induction waiting as [|next rest IH]; cbn [readLoop].
  - one_simple.
  - intros w.
    apply (@bind_rule _ _ (one_rule 0) (one_rule 0) (one_rule 0));
      [revert w; one_simple| |auto|apply (@one_rule_trans 0 0)].
    intros _ w1.
    apply (@bind_rule _ _ (one_rule 0) (one_rule 0) (one_rule 0));
      [clear w; revert w1; one_simple| |auto|apply (@one_rule_trans 0 0)].
    intros more w2.
    apply (@bind_rule _ _ (one_rule 0) (one_rule 0) (one_rule 0));
      [clear w w1; revert w2; one_simple| |auto|apply (@one_rule_trans 0 0)].
    intros _.
    destruct (match next with Some _ => false | None => true end || negb more).
    + one_simple.
    + exact IH.
Qed.

Lemma one_rule_read : respects (one_rule 0) (_read push_returns).
Proof.
  intros w. unfold _read. rewrite bind_gets. destruct (finalStatus w).
  - revert w. one_simple.
  - apply (@bind_rule _ _ (one_rule 0) (one_rule 0) (one_rule 0));
      [revert w; one_simple| |auto|apply (@one_rule_trans 0 0)].
    intros _ w1. rewrite bind_gets. destruct (http2Stream w1).
    + rewrite bind_gets. apply one_rule_readLoop.
    + revert w1. clear w. one_simple.
Qed.

Lemma one_rule_write (chunk : Message) : respects (one_rule 0) (_write chunk).
Proof. one_simple. Qed.

Lemma one_rule_final (cb : Callback) : respects (one_rule 0) (_final cb).
Proof. one_simple. Qed.

Lemma one_rule_sendFiltered (r : result Message) (cb : Callback) :
  respects (one_rule 0) (sendFiltered r cb).
Proof.
  destruct r as [m|msg].
  - one_simple.
  - apply one_rule_liftCall, stays_handleFilterError.
Qed.

Lemma one_rule_attach (stream : CallStream.StreamId) :
  respects (one_rule 0) (attachHttp2Stream stream).
Proof.
  intros w. unfold attachHttp2Stream. rewrite bind_gets.
  apply (@bind_rule _ _ (one_rule 0) (one_rule 0) (one_rule 0)).
  - apply one_rule_liftCall, CallStreamFacts.stays_rule_attach.
  - intros _. destruct (finalStatus w).
    + intros w1. apply one_rule_refl.
    + one_simple.
  - auto.
  - apply (@one_rule_trans 0 0).
Qed.

Lemma one_rule_perform (op : Op) :
  respects (one_rule (List.length (filtered [op]))) (perform push_returns op).
Proof.
  assert (Hm : forall u : unit, respects (one_rule 0) (liftCall CallStream.microtasks)).
  { intros _. apply one_rule_liftCall, CallStreamFacts.stays_rule_microtasks. }
  intros w. destruct op as [op| | | | | | | |]; cbn [perform filtered List.length].
  - destruct op;
      try (apply one_rule_liftCall, CallStreamFacts.stays_rule_perform).
    eapply bind_rule; [apply one_rule_attach|exact Hm|auto|apply one_rule_seq].
  - eapply bind_rule;
      [apply one_rule_ifAttached, one_rule_onData|exact Hm|auto|apply one_rule_seq].
  - eapply bind_rule;
      [apply one_rule_ifAttached, one_rule_tryPush|exact Hm|auto|apply one_rule_seq].
  - eapply bind_rule;
      [apply one_rule_handleFilteredRead|exact Hm|auto|apply one_rule_seq].
  - eapply bind_rule;
      [apply one_rule_liftCall, stays_handleFilterError|exact Hm|auto
      |apply one_rule_seq].
  - eapply bind_rule; [apply one_rule_read|exact Hm|auto|apply one_rule_seq].
  - eapply bind_rule; [apply one_rule_write|exact Hm|auto|apply one_rule_seq].
  - eapply bind_rule; [apply one_rule_sendFiltered|exact Hm|auto|apply one_rule_seq].
  - eapply bind_rule; [apply one_rule_final|exact Hm|auto|apply one_rule_seq].
Qed.

(** X25: the filters of received messages work on one message at a time:
    over any history, the messages given to them are at most one more
    than those they gave back, and no more than those while
    [isReadFilterPending] is false. *)
Theorem X25_one_message_in_the_filters (ops : list Op) (w : World) :
  (List.length (filter_inputs (trace push_returns ops w))
   + Nat.b2n (isReadFilterPending (fields w))
   <= List.length (filtered ops)
      + Nat.b2n (isReadFilterPending (fields (run push_returns ops w))))%nat.
Proof.
  revert w. induction ops as [|op ops IH]; intros w.
  - cbn. lia.
  - cbn [trace run fold_left].
    pose proof (@one_rule_perform op w) as H1.
    pose proof (IH (step push_returns op w)) as H2.
    unfold one_rule in H1. unfold run, step in *.
    rewrite filter_inputs_app, length_app.
    assert (E : List.length (filtered (op :: ops))
                = (List.length (filtered [op]) + List.length (filtered ops))%nat).
    { destruct op; reflexivity. }
    rewrite E. lia.
Qed.

Lemma flow_rule_refl (w : World) : flow_rule [] w w [].
Proof.
  split; [auto|split; [auto|]]. intros _ _ H. split; [exact H|].
  cbn. rewrite app_nil_r. reflexivity.
Qed.

Lemma flow_rule_trans (a b : list Message) (w w1 w2 : World) (e1 e2 : list Event) :
  flow_rule a w w1 e1 -> flow_rule b w1 w2 e2 -> flow_rule (a ++ b) w w2 (e1 ++ e2).
Proof.
  intros (H1 & A1 & K1) (H2 & A2 & K2). split; [auto|split; [auto|]].
  intros E2 Hat Ht.
  assert (E1 : finalStatus w1 = None).
  { destruct (finalStatus w1) eqn:E; [|reflexivity].
    exfalso. apply H2; [discriminate|exact E2]. }
  destruct (K1 E1 Hat Ht) as (T1 & Q1).
  destruct (K2 E2 (A1 Hat) T1) as (T2 & Q2).
  split; [exact T2|].
  rewrite pushes_app, messages_of_app, <- app_assoc, Q2, !app_assoc, Q1.
  reflexivity.
Qed.

Lemma flow_rule_seq (a : list Message) (w w1 w2 : World) (e1 e2 : list Event) :
  flow_rule a w w1 e1 -> flow_rule [] w1 w2 e2 -> flow_rule a w w2 (e1 ++ e2).
Proof.
  intros H1 H2. rewrite <- (app_nil_r a). eapply flow_rule_trans; eassumption.
Qed.

Lemma flow_rule_liftCall {A} (c : CallStream.W A) :
  CallStream.respects CallStream.stays_rule c ->
  respects (flow_rule []) (liftCall c).
Proof.
  intros Hc w. destruct (liftCall_quiet w Hc) as (H0 & H1 & H1' & H2 & _).
  split; [exact H1|split; [exact H1'|]]. intros _ _ Ht. unfold tidy in *.
  rewrite H0, H2, app_nil_r. auto.
Qed.

Ltac flow_finish :=
  cbn in *; rewrite ?messages_of_app; cbn; rewrite ?app_nil_r;
  try reflexivity; try discriminate; try congruence; auto.

Ltac flow_simple :=
  let w := fresh "w" in
  intros w; world_fields w; unfold flow_rule, tidy; msg_split;
  (split; [auto|split; [auto|]]);
  let E := fresh "E" in
  let Hat := fresh "Hat" in
  let Ht := fresh "Ht" in
  intros E Hat Ht; try discriminate E;
  try (exfalso; apply Hat; reflexivity);
  (split; [flow_finish|]);
  try (rewrite Ht by reflexivity); flow_finish.

Lemma flow_rule_tryPush (mb : option Message) :
  respects (flow_rule []) (tryPush push_returns mb).
Proof. flow_simple. Qed.

Lemma flow_rule_onData (messages : list Message) :
  respects (flow_rule []) (onData push_returns messages).
Proof.
  apply (rule_for_each flow_rule_refl (@flow_rule_trans [] [])).
  intros m. apply flow_rule_tryPush.
Qed.

Lemma flow_rule_ifAttached (c : W unit) :
  respects (flow_rule []) c -> respects (flow_rule []) (ifAttached c).
Proof.
  intros Hc w. unfold ifAttached. rewrite bind_gets.
  destruct (http2Stream w); [apply Hc|apply flow_rule_refl].
Qed.

Lemma flow_rule_handleFilteredRead (m : Message) :
  respects (flow_rule [m]) (handleFilteredRead push_returns m).
Proof. flow_simple. Qed.

Ltac loop_eval :=
  cbv -[readLoop app pushes filter_inputs messages_of map String.append].

(** The loop of [_read] pushes the messages that wait, from the first on,
    and keeps the others. *)
Lemma readLoop_flow (waiting : list (option Message)) (w : World) :
  unpushedReadMessages (fields w) = waiting ->
  base (state_of (readLoop push_returns waiting w)) = base w
  /\ tidy (state_of (readLoop push_returns waiting w))
  /\ messages_of (pushes (events_of (readLoop push_returns waiting w)))
     ++ messages_of (unpushedReadMessages
                       (fields (state_of (readLoop push_returns waiting w))))
     = messages_of waiting.
Proof.
  revert w. induction waiting as [|next rest IH]; intros w Hw.
  - world_fields w. cbn in Hw. subst. unfold tidy. msg_split; auto.
  - world_fields w. cbn in Hw. subst. cbn [readLoop]. unfold tidy in *.
    loop_eval.
    destruct next as [m|];
      try match goal with
          | |- context [push_returns ?k] => destruct (push_returns k)
          end;
      loop_eval;
      try (split; [reflexivity|split; [discriminate|reflexivity]]).
    match goal with
    | |- context [readLoop push_returns rest ?w2] =>
        specialize (IH w2 eq_refl);
        destruct (readLoop push_returns rest w2) as [[r3 w3] e3]
    end.
    cbn in IH. destruct IH as (B & T & Q). cbn.
    repeat split; [exact B|exact T|].
    exact (f_equal (cons m) Q).
Qed.

Lemma flow_rule_read : respects (flow_rule []) (_read push_returns).
Proof.
  intros w. unfold _read. rewrite bind_gets.
  destruct (finalStatus w) as [st0|] eqn:E.
  - split; [|split].
    + intros _. revert E. world_fields w. cbn. intros ->. msg_split. discriminate.
    + revert E. world_fields w. cbn. intros ->. msg_split; auto.
    + intros E'. exfalso. revert E E'. world_fields w. cbn. intros ->.
      msg_split. discriminate.
  - split; [intros H; congruence|split].
    + world_fields w. cbn in E. subst. loop_eval.
      destruct http2Stream0; [|intros H; exfalso; apply H; reflexivity].
      intros _. loop_eval.
      match goal with
      | |- context [readLoop push_returns ?q ?w2] =>
          destruct (@readLoop_flow q w2 eq_refl) as (B & _);
          destruct (readLoop push_returns q w2) as [[r3 w3] e3]
      end.
      destruct w3 as [b3 f3]. cbn in *. subst b3. discriminate.
    + intros _ Hat _. world_fields w. cbn in E, Hat. subst. loop_eval.
      destruct http2Stream0; [|exfalso; apply Hat; reflexivity].
      loop_eval.
      match goal with
      | |- context [readLoop push_returns ?q ?w2] =>
          destruct (@readLoop_flow q w2 eq_refl) as (_ & T & Q);
          destruct (readLoop push_returns q w2) as [[r3 w3] e3]
      end.
      cbn in *. rewrite app_nil_r. split; assumption.
Qed.

Lemma flow_rule_write (chunk : Message) : respects (flow_rule []) (_write chunk).
Proof. flow_simple. Qed.

Lemma flow_rule_final (cb : Callback) : respects (flow_rule []) (_final cb).
Proof. flow_simple. Qed.

Lemma flow_rule_sendFiltered (r : result Message) (cb : Callback) :
  respects (flow_rule []) (sendFiltered r cb).
Proof.
  destruct r as [m|msg].
  - flow_simple.
  - apply flow_rule_liftCall, stays_handleFilterError.
Qed.

Lemma flow_rule_attach (stream : CallStream.StreamId) :
  respects (flow_rule []) (attachHttp2Stream stream).
Proof.
  intros w. unfold attachHttp2Stream. rewrite bind_gets.
  apply (@bind_rule _ _ (flow_rule []) (flow_rule []) (flow_rule [])).
  - apply flow_rule_liftCall, CallStreamFacts.stays_rule_attach.
  - intros _. destruct (finalStatus w).
    + intros w1. apply flow_rule_refl.
    + flow_simple.
  - auto.
  - apply (@flow_rule_trans [] []).
Qed.

Lemma flow_rule_perform (op : Op) :
  respects (flow_rule (filtered [op])) (perform push_returns op).
Proof.
  assert (Hm : forall u : unit, respects (flow_rule []) (liftCall CallStream.microtasks)).
  { intros _. apply flow_rule_liftCall, CallStreamFacts.stays_rule_microtasks. }
  intros w. destruct op as [op| | | | | | | |]; cbn [perform filtered].
  - destruct op;
      try (apply flow_rule_liftCall, CallStreamFacts.stays_rule_perform).
    eapply bind_rule; [apply flow_rule_attach|exact Hm|auto|apply flow_rule_seq].
  - eapply bind_rule;
      [apply flow_rule_ifAttached, flow_rule_onData|exact Hm|auto|apply flow_rule_seq].
  - eapply bind_rule;
      [apply flow_rule_ifAttached, flow_rule_tryPush|exact Hm|auto|apply flow_rule_seq].
  - eapply bind_rule;
      [apply flow_rule_handleFilteredRead|exact Hm|auto|apply flow_rule_seq].
  - eapply bind_rule;
      [apply flow_rule_liftCall, stays_handleFilterError|exact Hm|auto
      |apply flow_rule_seq].
  - eapply bind_rule; [apply flow_rule_read|exact Hm|auto|apply flow_rule_seq].
  - eapply bind_rule; [apply flow_rule_write|exact Hm|auto|apply flow_rule_seq].
  - eapply bind_rule; [apply flow_rule_sendFiltered|exact Hm|auto|apply flow_rule_seq].
  - eapply bind_rule; [apply flow_rule_final|exact Hm|auto|apply flow_rule_seq].
Qed.

Lemma flow_rule_trace (ops : list Op) (w : World) :
  flow_rule (filtered ops) w (run push_returns ops w) (trace push_returns ops w).
Proof.
  revert w. induction ops as [|op ops IH]; intros w.
  - apply flow_rule_refl.
  - cbn [run fold_left trace].
    replace (filtered (op :: ops)) with (filtered [op] ++ filtered ops)
      by (destruct op; reflexivity).
    eapply flow_rule_trans; [apply flow_rule_perform|apply IH].
Qed.

(** X22: on an attached call on which nothing waits for a reader that
    takes more, and as long as the call has not ended, the messages the
    filters give back reach the reader in that order, each once: those
    pushed, followed by those in [unpushedReadMessages], are those that
    were waiting followed by those given back. *)
Theorem X22_filtered_messages_in_order (ops : list Op) (w : World) :
  http2Stream w <> None ->
  tidy w ->
  finalStatus (run push_returns ops w) = None ->
  messages_of (pushes (trace push_returns ops w))
  ++ messages_of (unpushedReadMessages (fields (run push_returns ops w)))
  = messages_of (unpushedReadMessages (fields w)) ++ filtered ops.
Proof.
  intros Hat Ht E. destruct (flow_rule_trace ops w) as (_ & _ & K).
  apply K; assumption.
Qed.

Lemma idle_rule_refl (w : World) : idle_rule w w [].
Proof. repeat split; auto. Qed.

Lemma idle_rule_trans (w w1 w2 : World) (e1 e2 : list Event) :
  idle_rule w w1 e1 -> idle_rule w1 w2 e2 -> idle_rule w w2 (e1 ++ e2).
Proof.
  intros (A1 & B1 & C1 & D1 & E1) (A2 & B2 & C2 & D2 & E2).
  unfold idle_rule.
  rewrite filter_inputs_app, E1, E2. repeat split; auto; congruence.
Qed.

Lemma idle_rule_liftCall {A} (c : CallStream.W A) :
  CallStream.respects CallStream.stays_rule c ->
  respects idle_rule (liftCall c).
Proof.
  intros Hc w. destruct (liftCall_quiet w Hc) as (H0 & H1 & H1' & _ & H3).
  unfold idle_rule. rewrite H0. auto.
Qed.

Ltac idle_simple :=
  let w := fresh "w" in
  intros w; world_fields w; unfold idle_rule; msg_split;
  repeat split; auto; discriminate.

Lemma idle_rule_readLoop (waiting : list (option Message)) :
  respects idle_rule (readLoop push_returns waiting).
Proof.
  induction waiting as [|next rest IH]; cbn [readLoop].
  - idle_simple.
  - repeat (apply (rule_bind idle_rule_trans); [idle_simple|intros ?]).
    destruct (match next with Some _ => false | None => true end || negb a0).
    + idle_simple.
    + exact IH.
Qed.

Lemma idle_rule_read : respects idle_rule (_read push_returns).
Proof.
  intros w. unfold _read. rewrite bind_gets. destruct (finalStatus w).
  - revert w. idle_simple.
  - revert w. apply (rule_bind idle_rule_trans); [idle_simple|intros _].
    intros w. rewrite bind_gets. destruct (http2Stream w).
    + rewrite bind_gets. apply idle_rule_readLoop.
    + revert w. idle_simple.
Qed.

Lemma idle_rule_write (chunk : Message) : respects idle_rule (_write chunk).
Proof. idle_simple. Qed.

Lemma idle_rule_final (cb : Callback) : respects idle_rule (_final cb).
Proof. idle_simple. Qed.

Lemma idle_rule_sendFiltered (r : result Message) (cb : Callback) :
  respects idle_rule (sendFiltered r cb).
Proof.
  destruct r as [m|msg].
  - idle_simple.
  - apply idle_rule_liftCall, stays_handleFilterError.
Qed.

Lemma idle_rule_attach (stream : CallStream.StreamId) :
  respects idle_rule (attachHttp2Stream stream).
Proof.
  intros w. unfold attachHttp2Stream. rewrite bind_gets.
  apply (@bind_rule _ _ idle_rule idle_rule idle_rule).
  - apply idle_rule_liftCall, CallStreamFacts.stays_rule_attach.
  - intros _. destruct (finalStatus w).
    + intros w1. apply idle_rule_refl.
    + idle_simple.
  - auto.
  - apply idle_rule_trans.
Qed.

Lemma feed_rule_idle (seen : bool) (w w' : World) (evs : list Event) :
  idle_rule w w' evs -> feed_rule seen seen [] w w' evs.
Proof.
  intros (A & B & C & D & E). split; [exact A|split; [exact B|]].
  intros _ _ H. unfold lined_up in *. rewrite C, D, E, app_nil_r. auto.
Qed.

Lemma feed_rule_trans (s0 s1 s2 : bool) (a b : list Message) (w w1 w2 : World)
    (e1 e2 : list Event) :
  feed_rule s0 s1 a w w1 e1 -> feed_rule s1 s2 b w1 w2 e2 ->
  feed_rule s0 s2 (a ++ b) w w2 (e1 ++ e2).
Proof.
  intros (H1 & A1 & K1) (H2 & A2 & K2). split; [auto|split; [auto|]].
  intros E2 Hat Hl.
  assert (E1 : finalStatus w1 = None).
  { destruct (finalStatus w1) eqn:E; [|reflexivity].
    exfalso. apply H2; [discriminate|exact E2]. }
  destruct (K1 E1 Hat Hl) as (L1 & Q1).
  destruct (K2 E2 (A1 Hat) L1) as (L2 & Q2).
  split; [exact L2|].
  rewrite filter_inputs_app, <- app_assoc, Q2, !app_assoc, Q1. reflexivity.
Qed.

Lemma feed_rule_seq (s0 s1 : bool) (a : list Message) (w w1 w2 : World)
    (e1 e2 : list Event) :
  feed_rule s0 s1 a w w1 e1 -> idle_rule w1 w2 e2 ->
  feed_rule s0 s1 a w w2 (e1 ++ e2).
Proof.
  intros H1 H2. rewrite <- (app_nil_r a).
  eapply feed_rule_trans; [exact H1|apply feed_rule_idle, H2].
Qed.

Lemma Forall_message_app (q : list (option Message)) (m : Message) :
  Forall is_message q -> Forall is_message (q ++ [Some m]).
Proof.
  intros H. apply Forall_app. split; [exact H|].
  constructor; [discriminate|constructor].
Qed.

Ltac feed_start :=
  let w := fresh "w" in
  intros w; world_fields w; unfold feed_rule, lined_up; msg_split;
  (split; [auto|split; [auto|]]);
  let E := fresh "E" in
  let Hat := fresh "Hat" in
  let Hl := fresh "Hl" in
  intros E Hat Hl; try discriminate E;
  try (exfalso; apply Hat; reflexivity);
  cbn [fields isReadFilterPending unfilteredReadMessages] in Hl;
  destruct Hl as [Hl1 Hl2].

Lemma feed_rule_tryPush_message (m : Message) :
  respects (feed_rule false false [m]) (tryPush push_returns (Some m)).
Proof.
  feed_start.
  - cbn. split; [split; [discriminate|apply Forall_message_app, Hl2]|].
    rewrite messages_of_app. reflexivity.
  - rewrite (Hl1 eq_refl) in *. cbn. split; [split; [discriminate|constructor]|].
    reflexivity.
Qed.

Lemma tryPush_returns (mb : option Message) (w : World) :
  value_of (tryPush push_returns mb w) = Ok tt.
Proof. world_fields w. msg_split; reflexivity. Qed.

Lemma feed_rule_onData (messages : list Message) :
  respects (feed_rule false false messages) (onData push_returns messages).
Proof.
  unfold onData. induction messages as [|m ms IH]; cbn [for_each]; intros w.
  - apply feed_rule_idle, idle_rule_refl.
  - eapply bind_rule_ok with (R3 := feed_rule false false ([m] ++ ms)).
    + apply tryPush_returns.
    + apply feed_rule_tryPush_message.
    + intros _. exact IH.
    + intros w1 w2 e1 e2. apply feed_rule_trans.
Qed.

Lemma removelast_end (q : list (option Message)) :
  removelast (q ++ [None]) = q.
Proof. apply removelast_last. Qed.

Lemma feed_rule_onEnd : respects (feed_rule false true []) (onEnd push_returns).
Proof.
  unfold onEnd. feed_start.
  all: cbn; rewrite ?removelast_end, ?messages_of_app, ?app_nil_r; cbn;
    rewrite ?app_nil_r.
  all: try rewrite (Hl1 eq_refl) in *.
  all: split; [split; [try discriminate; auto|try exact Hl2; try constructor]
              |reflexivity].
Qed.

Lemma onStream_attached (method : string) (e : Event) (w : World) :
  http2Stream w <> None -> onStream method e w = (Ok tt, w, [e]).
Proof.
  intros H. unfold onStream. rewrite bind_gets.
  destruct (http2Stream w); [reflexivity|congruence].
Qed.

Lemma removelast_message (seen : bool) (m : Message) (q : list (option Message)) :
  Forall is_message (if seen then removelast (Some m :: q) else Some m :: q) ->
  Forall is_message (if seen then removelast q else q).
Proof.
  destruct seen.
  - destruct q as [|x q]; [constructor|].
    cbn [removelast]. intros H. inversion H. assumption.
  - intros H. inversion H. assumption.
Qed.

Lemma removelast_mark (seen : bool) (q : list (option Message)) :
  Forall is_message (if seen then removelast (None :: q) else None :: q) ->
  q = [].
Proof.
  destruct seen.
  - destruct q as [|x q]; [reflexivity|].
    cbn [removelast]. intros H. inversion H. congruence.
  - intros H. inversion H. congruence.
Qed.

Lemma feed_rule_handleFilteredRead (seen : bool) (m : Message) :
  respects (feed_rule seen seen []) (handleFilteredRead push_returns m).
Proof.
  intros w. world_fields w. unfold feed_rule, lined_up.
  split; [|split].
  - msg_split; auto; discriminate.
  - msg_split; auto; discriminate.
  - intros E Hat Hl. revert E Hat Hl.
    cbn [fields isReadFilterPending unfilteredReadMessages].
    msg_split; intros E Hat [Hl1 Hl2]; try discriminate E;
      try (exfalso; apply Hat; reflexivity).
    all: cbn [removelast app]; rewrite ?app_nil_r.
    all: first
      [ split; [split; [auto|constructor]|reflexivity]
      | split;
        [split;
         [discriminate
         |first [exact (@removelast_message true _ _ Hl2)
                |exact (@removelast_message false _ _ Hl2)]]
        |reflexivity]
      | match goal with
        | |- context [messages_of (None :: ?q)] =>
            assert (Hq : q = [])
              by first [exact (@removelast_mark true _ Hl2)
                       |exact (@removelast_mark false _ Hl2)];
            subst q
        end;
        split; [split; [auto|constructor]|reflexivity] ].
Qed.

Lemma feed_rule_perform (seen : bool) (op : Op) (rest : list Op) :
  end_is_last seen (op :: rest) = true ->
  exists seen',
    end_is_last seen' rest = true
    /\ respects (feed_rule seen seen' (decoded [op])) (perform push_returns op).
Proof.
  assert (Hm : forall u : unit, respects idle_rule (liftCall CallStream.microtasks)).
  { intros _. apply idle_rule_liftCall, CallStreamFacts.stays_rule_microtasks. }
  assert (Hidle : forall c : W unit,
             respects idle_rule c ->
             respects (feed_rule seen seen [])
               (bind c (fun _ => liftCall CallStream.microtasks))).
  { intros c Hc w. apply feed_rule_idle.
    apply (rule_bind idle_rule_trans); [exact Hc|exact Hm]. }
  destruct op as [op| | | | | | | |]; cbn [end_is_last perform decoded]; intros Hw.
  - exists seen. split; [exact Hw|].
    destruct op;
      try (intros w; apply feed_rule_idle, idle_rule_liftCall,
             CallStreamFacts.stays_rule_perform).
    apply Hidle, idle_rule_attach.
  - apply andb_prop in Hw. destruct Hw as [Hs Hw]. destruct seen; [discriminate|].
    exists false. split; [exact Hw|]. rewrite app_nil_r. intros w.
    eapply bind_rule with (R1 := feed_rule false false messages).
    + unfold ifAttached. rewrite bind_gets.
      destruct (http2Stream w) eqn:E; [apply feed_rule_onData|].
      split; [auto|split; [auto|]]. intros _ H. exfalso. apply H, E.
    + exact Hm.
    + auto.
    + intros w1 w2 e1 e2. apply feed_rule_seq.
  - apply andb_prop in Hw. destruct Hw as [Hs Hw]. destruct seen; [discriminate|].
    exists true. split; [exact Hw|]. intros w.
    eapply bind_rule with (R1 := feed_rule false true []).
    + unfold ifAttached. rewrite bind_gets.
      destruct (http2Stream w) eqn:E; [apply feed_rule_onEnd|].
      split; [auto|split; [auto|]]. intros _ H. exfalso. apply H, E.
    + exact Hm.
    + auto.
    + intros w1 w2 e1 e2. apply feed_rule_seq.
  - exists seen. split; [exact Hw|]. intros w.
    eapply bind_rule with (R1 := feed_rule seen seen []).
    + apply feed_rule_handleFilteredRead.
    + exact Hm.
    + auto.
    + intros w1 w2 e1 e2. apply feed_rule_seq.
  - exists seen. split; [exact Hw|].
    apply Hidle, idle_rule_liftCall, stays_handleFilterError.
  - exists seen. split; [exact Hw|]. apply Hidle, idle_rule_read.
  - exists seen. split; [exact Hw|]. apply Hidle, idle_rule_write.
  - exists seen. split; [exact Hw|]. apply Hidle, idle_rule_sendFiltered.
  - exists seen. split; [exact Hw|]. apply Hidle, idle_rule_final.
Qed.

Lemma feed_rule_trace (ops : list Op) (seen : bool) (w : World) :
  end_is_last seen ops = true ->
  exists seen',
    feed_rule seen seen' (decoded ops) w (run push_returns ops w)
      (trace push_returns ops w).
Proof.
  revert seen w. induction ops as [|op ops IH]; intros seen w Hw.
  - exists seen. apply feed_rule_idle, idle_rule_refl.
  - destruct (feed_rule_perform _ _ _ Hw) as (seen1 & Hw1 & H1).
    destruct (IH seen1 (step push_returns op w) Hw1) as (seen2 & H2).
    exists seen2. cbn [run fold_left trace].
    replace (decoded (op :: ops)) with (decoded [op] ++ decoded ops)
      by (destruct op; cbn [decoded]; rewrite ?app_nil_r; reflexivity).
    eapply feed_rule_trans; [apply H1|exact H2].
Qed.

(** X23: on an attached call with no message waiting for the filters, if
    nothing arrives after the end of the stream, and as long as the call
    has not ended, the messages the decoder produces reach the filters in
    that order, each once: those given to the filters, followed by those
    in [unfilteredReadMessages], are those decoded. *)
Theorem X23_received_messages_in_order (ops : list Op) (w : World) :
  http2Stream w <> None ->
  unfilteredReadMessages (fields w) = [] ->
  end_is_last false ops = true ->
  finalStatus (run push_returns ops w) = None ->
  filter_inputs (trace push_returns ops w)
  ++ messages_of (unfilteredReadMessages (fields (run push_returns ops w)))
  = decoded ops.
Proof.
  intros Hat Hq Hw E.
  destruct (@feed_rule_trace ops false w Hw) as (seen' & _ & _ & K).
  destruct (K E Hat) as (_ & Q).
  - unfold lined_up. rewrite Hq. split; [auto|constructor].
  - rewrite Q, Hq. reflexivity.
Qed.
End Readable.

Lemma own_OfCall (evs : list CallStream.Event) : own (map OfCall evs) = [].
Proof. induction evs; simpl; auto. Qed.

Lemma own_app (a b : list Event) : own (a ++ b) = own a ++ own b.
Proof.
  induction a as [|e a IH]; [reflexivity|].
  destruct e; simpl; rewrite ?IH; reflexivity.
Qed.

Section Flush.
Variable push_returns : nat -> bool.

(** X27: a write that the filters have passed and the end of the writes,
    both before a stream is attached, go to the stream when it is
    attached, the write first, after the stream was paused unless a read
    was pending; nothing goes to the stream, the filters or the reader
    otherwise. *)
Theorem X27_early_writes_flushed (w : World) (m : Message) (cb cb' : Callback)
    (stream : CallStream.StreamId) :
  finalStatus w = None ->
  http2Stream w = None ->
  CallStream.jobs (CallStream.call (base w)) = [] ->
  Subchannel.session (CallStream.sub (base w)) <> None ->
  own (trace push_returns (early_writes m cb cb' stream) w)
  = (if pendingRead (fields w) then [] else [StreamPause])
    ++ [StreamWrite m cb; StreamEnd cb'].
Proof.
  intros Hfs Hst Hjobs Hses.
  destruct w as [[c s] r].
  destruct c as [fs msc hs sd sb hh ht st fm ft js np dl].
  destruct r as [pr pw pwc pfc pend cp up uf n].
  cbn in Hfs, Hst, Hjobs, Hses. subst fs hs js.
  unfold early_writes, trace, step.
  cbv -[Subchannel.callRef app own map].
  match goal with
  | |- context [Subchannel.callRef ?s1] =>
      destruct (@CallStreamFacts.callRef_spec s1) as (s' & evs & -> & _);
        [destruct s; exact Hses|]
  end.
  cbv -[app own map].
  destruct pr; cbn [app own]; rewrite ?own_app, ?own_OfCall; cbn;
    rewrite ?own_app, ?own_OfCall; reflexivity.
Qed.
End Flush.

(** ** Instances *)

Lemma X22_filtered_messages_in_order_witness :
  messages_of (pushes (trace eager [OpRead; OpData [[Byte.x01]];
                                    OpFilteredRead [Byte.x02]] attached_stream))
  ++ messages_of (unpushedReadMessages
                    (fields (run eager [OpRead; OpData [[Byte.x01]];
                                        OpFilteredRead [Byte.x02]] attached_stream)))
  = messages_of (unpushedReadMessages (fields attached_stream))
    ++ filtered [OpRead; OpData [[Byte.x01]]; OpFilteredRead [Byte.x02]].
Proof.
  apply (@X22_filtered_messages_in_order eager
           [OpRead; OpData [[Byte.x01]]; OpFilteredRead [Byte.x02]] attached_stream).
  - vm_compute. discriminate.
  - intros H. reflexivity.
  - vm_compute. reflexivity.
Defined.

Lemma X23_received_messages_in_order_witness :
  filter_inputs (trace eager [OpData [[Byte.x01]; [Byte.x02]]; OpEnd] attached_stream)
  ++ messages_of (unfilteredReadMessages
                    (fields (run eager [OpData [[Byte.x01]; [Byte.x02]]; OpEnd]
                                 attached_stream)))
  = decoded [OpData [[Byte.x01]; [Byte.x02]]; OpEnd].
Proof.
  apply (@X23_received_messages_in_order eager
           [OpData [[Byte.x01]; [Byte.x02]]; OpEnd] attached_stream).
  - vm_compute. discriminate.
  - reflexivity.
  - reflexivity.
  - vm_compute. reflexivity.
Defined.

Lemma X24_reader_not_flooded_witness :
  pushes (trace eager [OpData [[Byte.x01]]; OpFilteredRead [Byte.x02]; OpEnd]
                attached_stream) = []
  /\ canPush (fields (run eager [OpData [[Byte.x01]]; OpFilteredRead [Byte.x02]; OpEnd]
                          attached_stream)) = false.
Proof.
  apply (@X24_reader_not_flooded eager
           [OpData [[Byte.x01]]; OpFilteredRead [Byte.x02]; OpEnd] attached_stream).
  - reflexivity.
  - reflexivity.
Defined.

Lemma X26_nothing_after_the_end_witness :
  pushes (trace eager [OpData [[Byte.x01]]; OpRead; OpFilteredRead [Byte.x02]]
                ended_stream)
  = repeat None (reads [OpData [[Byte.x01]]; OpRead; OpFilteredRead [Byte.x02]])
  /\ filter_inputs (trace eager [OpData [[Byte.x01]]; OpRead; OpFilteredRead [Byte.x02]]
                          ended_stream) = [].
Proof.
  apply (@X26_nothing_after_the_end eager
           [OpData [[Byte.x01]]; OpRead; OpFilteredRead [Byte.x02]] ended_stream).
  vm_compute. discriminate.
Defined.

Lemma X27_early_writes_flushed_witness :
  own (trace eager (early_writes [Byte.x01] 1%nat 2%nat O) new_stream)
  = (if pendingRead (fields new_stream) then [] else [StreamPause])
    ++ [StreamWrite [Byte.x01] 1%nat; StreamEnd 2%nat].
Proof.
  apply (@X27_early_writes_flushed eager new_stream [Byte.x01] 1%nat 2%nat O).
  - reflexivity.
  - reflexivity.
  - reflexivity.
  - vm_compute. discriminate.
Defined.

End CallStreamMessagesFacts.

(* ===================================================================== *)
(** * Properties of the resolving load balancer *)
(* ===================================================================== *)

Module ResolvingLoadBalancerFacts.
Import Eff ResolvingLoadBalancer.

Section WithRegistry.
Variable registered : string -> bool.

Ltac rlb_eval :=
  cbv -[String.eqb registered findLoadBalancer].

Ltac rlb_split :=
  rlb_eval;
  repeat (match goal with
          | |- context [match ?x with _ => _ end] => is_var x; destruct x
          | |- context [match findLoadBalancer ?r ?c with _ => _ end] =>
              destruct (findLoadBalancer r c) as [[? ?]|] eqn:?
          | |- context [if ?b then _ else _] => destruct b eqn:?
          end; rlb_eval).

Lemma step_invariant (op : Op) (s : t) :
  invariant s -> invariant (step registered op s).
Proof.
  unfold invariant. intros HI.
  destruct s as [d inner pending cs prev ist ip rst rp cr br nb].
  simpl in HI.
  destruct inner as [ilb|]; [clear HI | rewrite (HI eq_refl); clear HI].
  all: destruct op as [a [cfg|] e|e|st p| |st p| | | | |e| | |];
    unfold step, perform, state_of.
  all: try (rlb_split; intros; congruence).
Qed.

Lemma run_invariant (ops : list Op) (s : t) :
  invariant s -> invariant (run registered ops s).
Proof.
  revert s. induction ops as [|op ops IH]; intros s HI; [exact HI|].
  simpl. apply IH. apply step_invariant, HI.
Qed.

(** ** The service config selection *)

(** No operation changes the default service config. *)
Lemma step_default (op : Op) (s : t) :
  defaultServiceConfig (step registered op s) = defaultServiceConfig s.
Proof.
  destruct s as [d inner pending cs prev ist ip rst rp cr br nb].
  destruct op as [a sc e|e|st p| |st p| | | | |e| | |];
    unfold step, perform, state_of; rlb_split; reflexivity.
Qed.

(** Only a successful resolution writes [previousServiceConfig], and
    writes what [code_select] says. *)
Lemma step_previous (op : Op) (s : t) :
  previousServiceConfig (step registered op s)
  = match op with
    | OpSuccessfulResolution _ sc e =>
        snd (code_select (defaultServiceConfig s) (previousServiceConfig s) sc e)
    | _ => previousServiceConfig s
    end.
Proof.
  destruct s as [d inner pending cs prev ist ip rst rp cr br nb].
  destruct op as [a sc e|e|st p| |st p| | | | |e| | |];
    unfold step, perform, state_of; rlb_split; reflexivity.
Qed.

Lemma run_default (ops : list Op) (s : t) :
  defaultServiceConfig (run registered ops s) = defaultServiceConfig s.
Proof.
  revert s. induction ops as [|op ops IH]; intros s; [reflexivity|].
  simpl. rewrite IH. apply step_default.
Qed.

Lemma run_previous (ops : list Op) (s : t) :
  previousServiceConfig (run registered ops s)
  = fold_left
      (fun prev ev =>
         snd (code_select (defaultServiceConfig s) prev
                          (resServiceConfig ev) (resError ev)))
      (resolutions_of ops) (previousServiceConfig s).
Proof.
  revert s. induction ops as [|op ops IH]; intros s; [reflexivity|].
  simpl. rewrite IH, step_default, step_previous.
  destruct op; simpl; reflexivity.
Qed.
End WithRegistry.

Lemma chooseWorkingServiceConfig_spec (s : t)
    (serviceConfig : option ServiceConfig.t)
    (serviceConfigError : option StatusObject) :
  chooseWorkingServiceConfig serviceConfig serviceConfigError s
  = match code_select (defaultServiceConfig s) (previousServiceConfig s)
                      serviceConfig serviceConfigError with
    | (Use working, previous) =>
        (Ok working, set_previousServiceConfig previous s, [])
    | (Failure error, _) =>
        (Ok None, state_of (handleResolutionFailure error s),
         events_of (handleResolutionFailure error s))
    end.
Proof.
  destruct s as [d inner pending cs prev ist ip rst rp cr br nb].
  destruct serviceConfig as [sc|], serviceConfigError as [e|], prev as [|p],
           d as [dc|], inner as [ilb|], ist;
    reflexivity.
Qed.

Lemma handleResolutionFailure_runs_backoff (error : StatusObject) (s : t) :
  existsb (fun e => match e with BackoffRunOnce => true | _ => false end)
          (events_of (handleResolutionFailure error s)) = true.
Proof.
  destruct s as [d inner pending cs prev ist ip rst rp cr br nb].
  destruct inner, ist; reflexivity.
Qed.

Lemma code_choice_spec (s : t) (serviceConfig : option ServiceConfig.t)
    (serviceConfigError : option StatusObject) :
  code_choice s serviceConfig serviceConfigError
  = fst (code_select (defaultServiceConfig s) (previousServiceConfig s)
                     serviceConfig serviceConfigError).
Proof.
  unfold code_choice. rewrite chooseWorkingServiceConfig_spec.
  destruct serviceConfig as [sc|], serviceConfigError as [e|];
    try reflexivity.
  simpl. destruct (previousServiceConfig s); [|reflexivity].
  destruct (defaultServiceConfig s); [reflexivity|].
  rewrite handleResolutionFailure_runs_backoff. reflexivity.
Qed.

(** C2, as stated, does not hold: with a default service config, a
    resolution with neither service config nor error followed by one with
    an error goes on with the null that the first resolution stored, where
    the three steps would take the default service config. *)
Lemma C2_null_previous_counterexample : ~ selection_follows_spec.
Proof.
  intros H.
  specialize (H two_policies (Some round_robin_config)
                [mkResolution ["10.0.0.1:80"] None None]
                None (Some txt_failed)).
  vm_compute in H. discriminate H.
Qed.

(** C2, amended: after any history of operations, [previousServiceConfig]
    is undefined until a resolution assigns it, and the working service
    config for a resolution [(serviceConfig, serviceConfigError)] is chosen
    as [code_select] says: a non-null [serviceConfig] is used and stored;
    else with a null error, null is stored and [defaultServiceConfig] is
    used; else the stored value is used if either of those two steps has
    stored one before, also when it is the null of the second step; else
    [defaultServiceConfig] if non-null; else the error is handed to
    [handleResolutionFailure]. *)
Theorem C2_service_config_selection_amended
    (registered : string -> bool) (default : option ServiceConfig.t)
    (ops : list Op) (addressList : list string)
    (serviceConfig : option ServiceConfig.t)
    (serviceConfigError : option StatusObject) :
  let s := run registered ops (initial default) in
  let previous := code_previous default (resolutions_of ops) in
  previousServiceConfig s = previous
  /\ code_choice s serviceConfig serviceConfigError
     = fst (code_select default previous serviceConfig serviceConfigError)
  /\ chooseWorkingServiceConfig serviceConfig serviceConfigError s
     = match code_select default previous serviceConfig serviceConfigError with
       | (Use working, previous') =>
           (Ok working, set_previousServiceConfig previous' s, [])
       | (Failure error, _) =>
           (Ok None, state_of (handleResolutionFailure error s),
            events_of (handleResolutionFailure error s))
       end
  /\ previousServiceConfig
       (step registered
          (OpSuccessfulResolution addressList serviceConfig serviceConfigError) s)
     = snd (code_select default previous serviceConfig serviceConfigError).
Proof.
  intros s previous.
  assert (Hd : defaultServiceConfig s = default).
  { unfold s. rewrite run_default. reflexivity. }
  assert (Hp : previousServiceConfig s = previous).
  { unfold s, previous, code_previous. rewrite run_previous. reflexivity. }
  split; [exact Hp|]. split; [|split].
  - rewrite code_choice_spec, Hd, Hp. reflexivity.
  - rewrite chooseWorkingServiceConfig_spec, Hd, Hp. reflexivity.
  - rewrite step_previous, Hd, Hp. reflexivity.
Qed.

(** C5: [innerLoadBalancer === null] implies
    [pendingReplacementLoadBalancer === null] when the constructor returns,
    after every history of operations from there (resolution results and
    errors, state updates and re-resolution requests of the inner and of the
    replacement balancer, the backoff callback, [updateResolution],
    [switchOverReplacementBalancer], [handleResolutionFailure], [exitIdle],
    [resetBackoff], [destroy]), and every operation keeps it, also when it
    throws. *)
Theorem C5_replacement_needs_inner
    (registered : string -> bool) (default : option ServiceConfig.t) :
  invariant (fst (construct default))
  /\ (forall ops : list Op,
        invariant (run registered ops (fst (construct default))))
  /\ (forall (op : Op) (s : t),
        invariant s -> invariant (step registered op s)).
Proof.
  assert (H0 : invariant (fst (construct default))).
  { unfold invariant. reflexivity. }
  split; [exact H0|]. split.
  - intros ops. apply run_invariant, H0.
  - intros op s. apply step_invariant.
Qed.

Lemma C5_replacement_needs_inner_witness :
  invariant (step two_policies OpDestroy swapping)
  /\ invariant (step two_policies (OpReplacementUpdateState READY (BalancerPicker 1))
                     swapping).
Proof.
  split.
  - apply (proj2 (proj2 (C5_replacement_needs_inner two_policies None))).
    unfold invariant. vm_compute. discriminate.
  - apply (proj2 (proj2 (C5_replacement_needs_inner two_policies None))).
    unfold invariant. vm_compute. discriminate.
Defined.

(** ** Choosing the policy *)

Section Selection.
Variable registered : string -> bool.

Lemma registeredKey_none (lbConfig : ServiceConfig.LoadBalancingConfig) :
  registeredKey registered lbConfig = None <-> unsupported registered lbConfig.
Proof.
  unfold registeredKey, unsupported.
  induction lbConfig as [|kv rest IH]; simpl.
  - split; [constructor|reflexivity].
  - destruct (registered (fst kv)) eqn:E; simpl.
    + split; [discriminate|]. intros H. inversion H. congruence.
    + rewrite IH. split; [intros H; constructor; assumption|].
      intros H. inversion H. assumption.
Qed.

Lemma registeredKey_some (lbConfig : ServiceConfig.LoadBalancingConfig) (key : string) :
  registeredKey registered lbConfig = Some key <->
  exists before value after,
    lbConfig = before ++ (key, value) :: after
    /\ unsupported registered before /\ registered key = true.
Proof.
  unfold registeredKey, unsupported.
  induction lbConfig as [|[k v] rest IH]; simpl.
  - split; [discriminate|]. intros (b & v & a & E & _). destruct b; discriminate E.
  - destruct (registered k) eqn:E; simpl.
    + split.
      * intros H. injection H as <-. exists [], v, rest. repeat split; [constructor|exact E].
      * intros (b & v' & a & Eq & Hb & Hr).
        destruct b as [|[k0 v0] b]; simpl in Eq; injection Eq as -> -> ->; [reflexivity|].
        inversion Hb. simpl in *. congruence.
    + rewrite IH. split.
      * intros (b & v' & a & -> & Hb & Hr).
        exists ((k, v) :: b), v', a. repeat split; [constructor; assumption|exact Hr].
      * intros (b & v' & a & Eq & Hb & Hr).
        destruct b as [|[k0 v0] b]; simpl in Eq; injection Eq as -> -> ->; [congruence|].
        exists b, v', a. repeat split; [inversion Hb; assumption|exact Hr].
Qed.

Lemma findLoadBalancer_none (configs : list ServiceConfig.LoadBalancingConfig) :
  findLoadBalancer registered configs = None <-> Forall (unsupported registered) configs.
Proof.
  induction configs as [|c rest IH]; simpl.
  - split; [constructor|reflexivity].
  - destruct (registeredKey registered c) as [key|] eqn:E.
    + split; [discriminate|]. intros H. inversion H as [|? ? Hc _]; subst.
      apply registeredKey_none in Hc. congruence.
    + rewrite IH. apply registeredKey_none in E. split.
      * intros H. constructor; assumption.
      * intros H. inversion H. assumption.
Qed.

Lemma findLoadBalancer_some (configs : list ServiceConfig.LoadBalancingConfig)
    (name : string) (entry : ServiceConfig.LoadBalancingConfig) :
  findLoadBalancer registered configs = Some (name, entry) <->
  exists before after,
    configs = before ++ entry :: after
    /\ Forall (unsupported registered) before
    /\ registeredKey registered entry = Some name.
Proof.
  induction configs as [|c rest IH]; simpl.
  - split; [discriminate|]. intros (b & a & E & _). destruct b; discriminate E.
  - destruct (registeredKey registered c) as [key|] eqn:E.
    + split.
      * intros H. injection H as <- <-. exists [], rest. repeat split; [constructor|exact E].
      * intros (b & a & Eq & Hb & Hr).
        destruct b as [|c0 b]; simpl in Eq; injection Eq as -> ->.
        -- congruence.
        -- inversion Hb as [|? ? Hc _]; subst. apply registeredKey_none in Hc. congruence.
    + rewrite IH. apply registeredKey_none in E. split.
      * intros (b & a & -> & Hb & Hr). exists (c :: b), a.
        repeat split; [constructor; assumption|exact Hr].
      * intros (b & a & Eq & Hb & Hr).
        destruct b as [|c0 b]; simpl in Eq; injection Eq as -> ->.
        -- apply registeredKey_none in E. congruence.
        -- exists b, a. repeat split; [inversion Hb; assumption|exact Hr].
Qed.
End Selection.

Section Policies.
Variable registered : string -> bool.

Lemma handleResolutionFailure_eq (error : StatusObject) (s : t) :
  handleResolutionFailure error s
  = (Ok tt,
     set_backoffRunning true
       (if is_null (innerLoadBalancer s)
           || ConnectivityState_eqb (innerBalancerState s) IDLE
        then set_currentState TRANSIENT_FAILURE s else s),
     failure_report error s ++ [BackoffRunOnce]).
Proof.
  destruct s as [d inner pending cs prev ist ip rst rp cr br nb].
  unfold failure_report.
  destruct inner, ist; reflexivity.
Qed.

(** X13: a successful resolution that brings a service config with a
    non-empty policy list stores that config as the previous one; it then
    goes on with the first own key, in list and key order, that names a
    registered load balancer type, together with the entry that holds the
    key.  When no key of any entry is registered, the resolution is handled
    as a failure with UNAVAILABLE and "All load balancer options in service
    config are not compatible": the backoff timer is started,
    TRANSIENT_FAILURE is reported when there is no inner balancer or it is
    IDLE, and no load balancer is created, updated or dropped. *)
Theorem X13_policy_selection (addressList : list string) (cfg : ServiceConfig.t)
    (serviceConfigError : option StatusObject) (s : t) :
  ServiceConfig.loadBalancingConfig cfg <> [] ->
  let op := OpSuccessfulResolution addressList (Some cfg) serviceConfigError in
  let stored := set_previousServiceConfig (Assigned (Some cfg)) s in
  (forall before entry after name,
     ServiceConfig.loadBalancingConfig cfg = before ++ entry :: after ->
     Forall (unsupported registered) before ->
     registeredKey registered entry = Some name ->
     perform registered op s
     = applyLoadBalancer registered name (Some entry) addressList stored)
  /\
  (Forall (unsupported registered) (ServiceConfig.loadBalancingConfig cfg) ->
   let r := perform registered op s in
   value_of r = Ok tt
   /\ events_of r = failure_report incompatible s ++ [BackoffRunOnce]
   /\ innerLoadBalancer (state_of r) = innerLoadBalancer s
   /\ pendingReplacementLoadBalancer (state_of r) = pendingReplacementLoadBalancer s
   /\ previousServiceConfig (state_of r) = Assigned (Some cfg)).
Proof.
  intros Hne op stored.
  assert (Hstart : perform registered op s
                   = match findLoadBalancer registered (ServiceConfig.loadBalancingConfig cfg) with
                     | Some (name, lbConfig) =>
                         applyLoadBalancer registered name (Some lbConfig) addressList stored
                     | None => handleResolutionFailure incompatible stored
                     end).
  { unfold op, perform, onSuccessfulResolution, chooseWorkingServiceConfig.
    unfold bind at 1. unfold bind at 1. unfold modify, ret. cbn [app].
    destruct (ServiceConfig.loadBalancingConfig cfg) as [|c rest] eqn:E;
      [congruence|].
    fold stored.
    destruct (findLoadBalancer registered (c :: rest)) as [[name lbConfig]|];
      [destruct (applyLoadBalancer _ _ _ _ _) as [[? ?] ?]; reflexivity|].
    destruct (handleResolutionFailure _ _) as [[? ?] ?]. reflexivity. }
  split.
  - intros before entry after name E Hb Hk.
    rewrite Hstart.
    replace (findLoadBalancer registered (ServiceConfig.loadBalancingConfig cfg))
      with (Some (name, entry)); [reflexivity|].
    symmetry. apply findLoadBalancer_some. exists before, after. auto.
  - intros Hall r. unfold r. rewrite Hstart.
    replace (findLoadBalancer registered (ServiceConfig.loadBalancingConfig cfg))
      with (@None (string * ServiceConfig.LoadBalancingConfig))
      by (symmetry; apply findLoadBalancer_none, Hall).
    rewrite handleResolutionFailure_eq.
    unfold value_of, events_of, state_of, stored, failure_report. cbn [fst snd].
    destruct s as [d inner pending cs prev ist ip rst rp cr br nb]. cbn.
    destruct (is_null inner || ConnectivityState_eqb ist IDLE); repeat split.
Qed.
End Policies.

Section Switching.
Variable registered : string -> bool.

(** X14: a successful resolution without a service config but with a
    service config error, when no earlier resolution has stored a config
    and there is no default config, is handled as a resolution failure and
    nevertheless goes on to the default policy: with no inner balancer yet
    and "pick_first" registered, TRANSIENT_FAILURE is reported with the
    error, the backoff timer is started, and a new pick-first balancer is
    created and given the address list. *)
Theorem X14_failure_still_applies_addresses (addressList : list string)
    (error : StatusObject) (s : t) :
  previousServiceConfig s = Undefined ->
  defaultServiceConfig s = None ->
  let r := perform registered (OpSuccessfulResolution addressList None (Some error)) s in
  r = bind (handleResolutionFailure error)
           (fun _ => applyLoadBalancer registered DEFAULT_LOAD_BALANCER_NAME None
                       addressList) s
  /\ (innerLoadBalancer s = None ->
      registered DEFAULT_LOAD_BALANCER_NAME = true ->
      value_of r = Ok tt
      /\ events_of r
         = [UpdateState TRANSIENT_FAILURE (UnavailablePicker (Some error));
            BackoffRunOnce;
            CreateLoadBalancer DEFAULT_LOAD_BALANCER_NAME InnerHelper;
            UpdateAddressList (nextBalancer s) addressList None]
      /\ innerLoadBalancer (state_of r)
         = Some (mkLB (nextBalancer s) DEFAULT_LOAD_BALANCER_NAME)).
Proof.
  intros Hp Hd r.
  destruct s as [d inner pending cs prev ist ip rst rp cr br nb].
  simpl in Hp, Hd. subst prev d.
  split.
  - unfold r, perform, onSuccessfulResolution, chooseWorkingServiceConfig.
    cbv [bind gets ret previousServiceConfig defaultServiceConfig].
    destruct (handleResolutionFailure error _) as [[[] s1] e1];
      [|cbn [app]; rewrite ?app_nil_r; reflexivity].
    destruct (applyLoadBalancer _ _ _ _ _) as [[? ?] ?].
    cbn [app]. rewrite ?app_nil_r. reflexivity.
  - simpl. intros -> Hr. unfold r, perform, value_of, events_of, state_of.
    cbv -[String.eqb]. 
    change (registered "pick_first") with (registered DEFAULT_LOAD_BALANCER_NAME).
    rewrite Hr. repeat split.
Qed.

(** X15: when a resolution selects a policy other than that of the inner
    balancer and no replacement is pending, a replacement is created and
    given the addresses while the inner balancer stays in place.  A
    replacement state other than READY or IDLE calls nothing and leaves
    both balancers in place (the state and the picker reported are
    stored).  When the
    replacement reports READY, or the inner balancer reports a state other
    than READY, the inner balancer is destroyed, the replacement takes its
    place with the inner helper, and the channel is shown the state of the
    replacement. *)
Theorem X15_graceful_switch (addressList : list string) (cfg : ServiceConfig.t)
    (name : string) (entry : ServiceConfig.LoadBalancingConfig)
    (current : LoadBalancer) (s : t) :
  innerLoadBalancer s = Some current ->
  pendingReplacementLoadBalancer s = None ->
  findLoadBalancer registered (ServiceConfig.loadBalancingConfig cfg)
  = Some (name, entry) ->
  registered name = true ->
  typeName current <> name ->
  let replacement := mkLB (nextBalancer s) name in
  let r1 := perform registered (OpSuccessfulResolution addressList (Some cfg) None) s in
  let s1 := state_of r1 in
  (events_of r1
   = [CreateLoadBalancer name ReplacementHelper;
      UpdateAddressList (nextBalancer s) addressList (Some entry)]
   /\ innerLoadBalancer s1 = Some current
   /\ pendingReplacementLoadBalancer s1 = Some replacement)
  /\
  (forall (st : ConnectivityState) (p : Picker),
     st <> READY -> st <> IDLE ->
     let r := perform registered (OpReplacementUpdateState st p) s1 in
     events_of r = []
     /\ innerLoadBalancer (state_of r) = Some current
     /\ pendingReplacementLoadBalancer (state_of r) = Some replacement)
  /\
  (forall p : Picker,
     let r := perform registered (OpReplacementUpdateState READY p) s1 in
     events_of r
     = [Destroy (lbId current); ReplaceChannelControlHelper (nextBalancer s);
        UpdateState READY p]
     /\ innerLoadBalancer (state_of r) = Some replacement
     /\ pendingReplacementLoadBalancer (state_of r) = None
     /\ currentState (state_of r) = READY)
  /\
  (forall (st : ConnectivityState) (p : Picker),
     st <> READY ->
     let r := perform registered (OpInnerUpdateState st p) s1 in
     events_of r
     = [Destroy (lbId current); ReplaceChannelControlHelper (nextBalancer s);
        UpdateState (replacementBalancerState s) (replacementBalancerPicker s)]
     /\ innerLoadBalancer (state_of r) = Some replacement
     /\ pendingReplacementLoadBalancer (state_of r) = None).
Proof.
  intros Hi Hpn Hf Hr Hn replacement r1 s1.
  destruct s as [d inner pending cs prev ist ip rst rp cr br nb].
  simpl in Hi, Hpn. subst inner pending.
  destruct current as [cid cname]. simpl in Hn.
  assert (Hne : String.eqb cname name = false) by (apply String.eqb_neq; exact Hn).
  assert (E1 : r1 = (Ok tt,
                     mk d (Some (mkLB cid cname)) (Some (mkLB nb name)) cs
                        (Assigned (Some cfg)) ist ip rst rp cr br (S nb),
                     [CreateLoadBalancer name ReplacementHelper;
                      UpdateAddressList nb addressList (Some entry)])).
  { unfold r1, perform, onSuccessfulResolution, chooseWorkingServiceConfig.
    unfold bind at 1. unfold bind at 1. unfold modify, ret. cbn [app].
    destruct (ServiceConfig.loadBalancingConfig cfg) as [|c rest] eqn:E;
      [discriminate Hf|].
    rewrite Hf.
    cbv -[String.eqb]. rewrite Hne. 
    cbv -[String.eqb]. rewrite Hr. reflexivity. }
  unfold s1. rewrite E1. unfold state_of, events_of. cbn [fst snd].
  split; [repeat split|]. split; [|split].
  - intros st p H1 H2. destruct st; try congruence; repeat split.
  - intros p. repeat split.
  - intros st p H1. destruct st; try congruence; repeat split.
Qed.
End Switching.

(** ** Requests during the backoff *)

Section History.
Variable registered : string -> bool.

Lemma request_flag (op : Op) (s : t) :
  backoffRunning s = true -> is_request op ->
  perform registered op s
  = (Ok tt, set_continueResolving (continueResolving s || heeded s op) s, []).
Proof.
  destruct s as [d inner pending cs prev ist ip rst rp cr br nb]. simpl.
  intros -> [->| ->].
  - destruct pending; simpl; rewrite ?orb_false_r, ?orb_true_r; reflexivity.
  - simpl. rewrite orb_true_r. reflexivity.
Qed.

Lemma requests_flag (reqs : list Op) (s : t) :
  backoffRunning s = true -> Forall is_request reqs ->
  trace registered reqs s = []
  /\ run registered reqs s
     = set_continueResolving (continueResolving s || existsb (heeded s) reqs) s.
Proof.
  intros Hb Hall. revert s Hb.
  induction Hall as [|op reqs Hop Hall IH]; intros s Hb.
  - split; [reflexivity|]. simpl. rewrite orb_false_r. destruct s; reflexivity.
  - cbn [trace run fold_left existsb]. unfold step.
    rewrite (@request_flag op s Hb Hop). unfold events_of, state_of. cbn [fst snd app].
    set (s1 := set_continueResolving (continueResolving s || heeded s op) s).
    assert (Hb1 : backoffRunning s1 = true) by (destruct s; exact Hb).
    destruct (IH s1 Hb1) as (Ht & Er).
    split; [exact Ht|].
    change (run registered reqs s1
            = set_continueResolving
                (continueResolving s || (heeded s op || existsb (heeded s) reqs)) s).
    rewrite Er.
    assert (Hh : existsb (heeded s1) reqs = existsb (heeded s) reqs).
    { clear. induction reqs as [|q reqs IHr]; [reflexivity|].
      simpl. rewrite IHr. f_equal. }
    rewrite Hh. unfold s1. destruct s; simpl. rewrite ?orb_assoc. reflexivity.
Qed.
Lemma backoff_resolves_once (s : t) :
  continueResolving s = true ->
  resolver_updates (events_of (perform registered OpBackoffCallback s)) = 1%nat
  /\ continueResolving (state_of (perform registered OpBackoffCallback s)) = false.
Proof.
  destruct s as [d inner pending cs prev ist ip rst rp cr br nb]. simpl.
  intros ->. destruct inner, ist; split; reflexivity.
Qed.

Lemma backoff_without_request (s : t) :
  continueResolving s = false ->
  resolver_updates (events_of (perform registered OpBackoffCallback s)) = 0%nat.
Proof.
  destruct s as [d inner pending cs prev ist ip rst rp cr br nb]. simpl.
  intros ->. destruct inner; reflexivity.
Qed.

(** X16: while the backoff timer runs, requests of the balancers for a
    new resolution call nothing and change nothing but [continueResolving],
    which becomes true with a request that is heeded: one of the replacement
    balancer, or one of the inner balancer while no replacement is pending
    (the inner balancer is ignored while a replacement is pending).  When
    the flag is set, by such a request or from before, the callback of the
    timer asks the resolver once, however many requests there were, and
    clears the flag; otherwise it does not ask the resolver. *)
Theorem X16_reresolution_deferred (reqs : list Op) (s : t) :
  backoffRunning s = true ->
  Forall is_request reqs ->
  let flag := continueResolving s || existsb (heeded s) reqs in
  let s' := run registered reqs s in
  let r := perform registered OpBackoffCallback s' in
  trace registered reqs s = []
  /\ s' = set_continueResolving flag s
  /\ (flag = true ->
      resolver_updates (events_of r) = 1%nat
      /\ continueResolving (state_of r) = false)
  /\ (flag = false -> resolver_updates (events_of r) = 0%nat).
Proof.
  intros Hb Hall flag s' r.
  destruct (@requests_flag reqs s Hb Hall) as (Ht & Er).
  fold flag in Er. fold s' in Er.
  split; [exact Ht|]. split; [exact Er|]. split.
  - intros Hf. apply backoff_resolves_once. rewrite Er, Hf.
    destruct s; reflexivity.
  - intros Hf. apply backoff_without_request. rewrite Er, Hf.
    destruct s; reflexivity.
Qed.
End History.

(** ** The life of the load balancers *)

Section Lifecycle.
Variable registered : string -> bool.

Ltac life_eval :=
  cbv -[String.eqb findLoadBalancer In lt targets destroyed well_used
        live not].

Ltac life_split :=
  life_eval;
  repeat (match goal with
          | |- context [match ?x with _ => _ end] => is_var x; destruct x
          | |- context [match findLoadBalancer ?r ?c with _ => _ end] =>
              destruct (findLoadBalancer r c) as [[? ?]|] eqn:?
          | |- context [if ?b then _ else _] => destruct b eqn:?
          end; life_eval).

Ltac life_done :=
  cbn [targets destroyed well_used live ids innerLoadBalancer
       pendingReplacementLoadBalancer nextBalancer lbId app In];
  repeat split; intros;
  repeat match goal with
         | H : _ \/ _ |- _ => destruct H
         | H : False |- _ => destruct H
         | H : NoDup (_ :: _) |- _ => inversion H; clear H; subst
         end;
  subst; cbn [In] in *;
  try solve [ lia | tauto | intuition lia
            | repeat constructor; cbn [In]; intuition lia ].

Lemma step_lifecycle (op : Op) (s : t) :
  live_ok s ->
  lifecycle_step s (state_of (perform registered op s))
                 (events_of (perform registered op s)).
Proof.
  unfold live_ok at 1. intros [Hnd Hlt].
  destruct s as [d inner pending cs prev ist ip rst rp cr br nb].
  unfold live in Hnd, Hlt. simpl in Hnd, Hlt.
  destruct inner as [[i iname]|]; destruct pending as [[j jname]|];
    simpl in Hnd, Hlt.
  - assert (Hi : (i < nb)%nat) by (apply Hlt; auto).
    assert (Hj : (j < nb)%nat) by (apply Hlt; auto).
    assert (Hij : i <> j).
    { inversion Hnd as [|? ? Hn _]; subst. intros ->. apply Hn. left. reflexivity. }
    clear Hnd Hlt.
    unfold lifecycle_step, live_ok.
    destruct op as [a [cfg|] e|e|st p| |st p| | | | |e| | |];
      unfold perform, state_of, events_of.
    all: life_split.
    all: life_done.
  - assert (Hi : (i < nb)%nat) by (apply Hlt; auto).
    clear Hnd Hlt.
    unfold lifecycle_step, live_ok.
    destruct op as [a [cfg|] e|e|st p| |st p| | | | |e| | |];
      unfold perform, state_of, events_of.
    all: life_split.
    all: life_done.
  - assert (Hj : (j < nb)%nat) by (apply Hlt; auto).
    clear Hnd Hlt.
    unfold lifecycle_step, live_ok.
    destruct op as [a [cfg|] e|e|st p| |st p| | | | |e| | |];
      unfold perform, state_of, events_of.
    all: life_split.
    all: life_done.
  - clear Hnd Hlt.
    unfold lifecycle_step, live_ok.
    destruct op as [a [cfg|] e|e|st p| |st p| | | | |e| | |];
      unfold perform, state_of, events_of.
    all: life_split.
    all: life_done.
Qed.

Lemma targets_app (a b : list Event) : targets (a ++ b) = targets a ++ targets b.
Proof.
  induction a as [|e a IH]; [reflexivity|].
  destruct e; simpl; rewrite ?IH; reflexivity.
Qed.

Lemma destroyed_app (a b : list Event) :
  destroyed (a ++ b) = destroyed a ++ destroyed b.
Proof.
  induction a as [|e a IH]; [reflexivity|].
  destruct e; simpl; rewrite ?IH; reflexivity.
Qed.

Lemma destroyed_targets (evs : list Event) (lb : nat) :
  In lb (destroyed evs) -> In lb (targets evs).
Proof.
  induction evs as [|e evs IH]; [intros []|].
  destruct e; simpl; intuition.
Qed.

Lemma well_used_app (a b : list Event) :
  well_used a -> well_used b ->
  (forall lb, In lb (destroyed a) -> ~ In lb (targets b)) ->
  well_used (a ++ b).
Proof.
  induction a as [|e a IH]; intros Ha Hb Hd; [exact Hb|].
  destruct Ha as [He Ha]. cbn [app well_used]. split.
  - destruct e; try exact I. rewrite targets_app. intros Hin.
    apply in_app_or in Hin. destruct Hin as [Hin|Hin]; [exact (He Hin)|].
    apply (Hd lb); [left; reflexivity|exact Hin].
  - apply IH; [exact Ha|exact Hb|].
    intros lb Hin. apply Hd. destruct e; simpl; auto.
Qed.

Lemma trace_lifecycle (ops : list Op) (s : t) (evs : list Event) :
  live_ok s ->
  (forall lb, In lb (targets evs) -> (lb < nextBalancer s)%nat) ->
  (forall lb, In lb (destroyed evs) -> ~ In lb (live s)) ->
  well_used evs ->
  well_used (evs ++ trace registered ops s).
Proof.
  revert s evs. induction ops as [|op ops IH]; intros s evs Hs Ht Hd Hw.
  - simpl. rewrite app_nil_r. exact Hw.
  - cbn [trace]. rewrite app_assoc.
    destruct (step_lifecycle op Hs) as (Hnb & Htg & Hs' & Hlive & Hw').
    unfold step. apply IH.
    + exact Hs'.
    + intros lb Hin. rewrite targets_app in Hin. apply in_app_or in Hin.
      destruct Hin as [Hin|Hin].
      * specialize (Ht lb Hin). lia.
      * destruct (Htg lb Hin) as [Hl|Hl]; [|lia].
        destruct Hs as [_ Hlt]. specialize (Hlt lb Hl). lia.
    + intros lb Hin Hl. rewrite destroyed_app in Hin. apply in_app_or in Hin.
      destruct (Hlive lb Hl) as [Hnd Hor].
      destruct Hin as [Hin|Hin]; [|exact (Hnd Hin)].
      destruct Hor as [Hor|Hor].
      * exact (Hd lb Hin Hor).
      * specialize (Ht lb (destroyed_targets _ _ Hin)). lia.
    + apply well_used_app; [exact Hw|exact Hw'|].
      intros lb Hin Htar.
      destruct (Htg lb Htar) as [Hl|Hl].
      * exact (Hd lb Hin Hl).
      * specialize (Ht lb (destroyed_targets _ _ Hin)). lia.
Qed.

(** X17: whatever the history of a resolving load balancer since its
    construction, no method of a load balancer is called after [destroy]
    has been called on it; in particular no balancer is destroyed twice. *)
Theorem X17_no_use_after_destroy (default : option ServiceConfig.t)
    (ops : list Op) :
  well_used (snd (construct default) ++ trace registered ops (fst (construct default))).
Proof.
  apply trace_lifecycle.
  - split; [constructor|]. intros lb [].
  - intros lb [].
  - intros lb [].
  - simpl. auto.
Qed.
End Lifecycle.

Lemma X13_policy_selection_witness :
  perform two_policies
    (OpSuccessfulResolution ["10.0.0.1:80"] (Some round_robin_config) None)
    (fst (construct None))
  = applyLoadBalancer two_policies "round_robin" (Some [("round_robin", "{}")])
      ["10.0.0.1:80"]
      (set_previousServiceConfig (Assigned (Some round_robin_config))
         (fst (construct None))).
Proof.
  assert (Hne : ServiceConfig.loadBalancingConfig round_robin_config <> [])
    by discriminate.
  apply (proj1 (@X13_policy_selection two_policies ["10.0.0.1:80"]
                  round_robin_config None (fst (construct None)) Hne)
           [] [("round_robin", "{}")] [] "round_robin").
  - reflexivity.
  - constructor.
  - reflexivity.
Defined.

Lemma X14_failure_still_applies_addresses_witness :
  events_of
    (perform two_policies
       (OpSuccessfulResolution ["10.0.0.1:80"] None (Some txt_failed))
       (fst (construct None)))
  = [UpdateState TRANSIENT_FAILURE (UnavailablePicker (Some txt_failed));
     BackoffRunOnce;
     CreateLoadBalancer DEFAULT_LOAD_BALANCER_NAME InnerHelper;
     UpdateAddressList 0%nat ["10.0.0.1:80"] None].
Proof.
  apply (proj2 (@X14_failure_still_applies_addresses two_policies
                  ["10.0.0.1:80"] txt_failed (fst (construct None))
                  eq_refl eq_refl) eq_refl eq_refl).
Defined.

Lemma X15_graceful_switch_witness :
  events_of
    (perform two_policies
       (OpSuccessfulResolution ["10.0.0.1:80"] (Some round_robin_config) None)
       serving)
  = [CreateLoadBalancer "round_robin" ReplacementHelper;
     UpdateAddressList 1%nat ["10.0.0.1:80"] (Some [("round_robin", "{}")])].
Proof.
  assert (Hn : typeName (mkLB 0 "pick_first") <> "round_robin") by discriminate.
  apply (proj1 (@X15_graceful_switch two_policies ["10.0.0.1:80"]
                  round_robin_config "round_robin" [("round_robin", "{}")]
                  (mkLB 0 "pick_first") serving
                  eq_refl eq_refl eq_refl eq_refl Hn)).
Defined.

Lemma X16_reresolution_deferred_witness :
  trace two_policies
    [OpInnerRequestReresolution; OpReplacementRequestReresolution] backing_off
  = []
  /\ resolver_updates
       (events_of
          (perform two_policies OpBackoffCallback
             (run two_policies
                [OpInnerRequestReresolution; OpReplacementRequestReresolution]
                backing_off)))
     = 1%nat.
Proof.
  assert (Hr : Forall is_request
                 [OpInnerRequestReresolution; OpReplacementRequestReresolution]).
  { constructor; [left; reflexivity|].
    constructor; [right; reflexivity|constructor]. }
  destruct (@X16_reresolution_deferred two_policies
              [OpInnerRequestReresolution; OpReplacementRequestReresolution]
              backing_off eq_refl Hr) as (H1 & _ & H2 & _).
  split; [exact H1|]. exact (proj1 (H2 eq_refl)).
Defined.

End ResolvingLoadBalancerFacts.

(* ===================================================================== *)
(** * Properties of the channel *)
(* ===================================================================== *)

Module ChannelFacts.
Import Eff Channel.

(** ** Picking *)



(** ** Watching the connectivity state *)


Lemma notify_eq (newState : ConnectivityState) (w : Watcher) (s : t) :
  notify newState w s
  = if negb (ConnectivityState_eqb newState (watchedState w))
    then (Ok tt,
          set_connectivityStateWatchers
            (remove_watcher (watcherId w) (connectivityStateWatchers s)) s,
          [Invoke (callback w) None; ClearTimeout (watcherId w)])
    else (Ok tt, s, []).
Proof.
  unfold notify.
  destruct (negb (ConnectivityState_eqb newState (watchedState w))); reflexivity.
Qed.




(** The channel the constructor returns: IDLE, with the queue picker of the
    resolving load balancer, no queued pick and no watcher. *)
Lemma create_fields (unavailable queue : Picker) :
  create unavailable queue = (Ok tt, mk IDLE queue [] [] O, []).
Proof. reflexivity. Qed.






(** ** The pick queue and the watchers, as a whole *)

Lemma dispatched_app (a b : list Event) :
  dispatched (a ++ b) = dispatched a ++ dispatched b.
Proof.
  induction a as [|e a IH]; [reflexivity|].
  destruct e; simpl; rewrite ?IH; reflexivity.
Qed.

Lemma tryPick_queue (picker : Picker) (e : CallId * CallMetadata) (s : t) :
  failures_have_status picker ->
  currentPicker s = picker ->
  exists evs,
    tryPick (fst e) (snd e) s
    = (Ok tt,
       (if stays_queued picker e then set_pickQueue (pickQueue s ++ [e]) s else s),
       evs)
    /\ dispatched evs = if stays_queued picker e then [] else [fst e].
Proof.
  intros Hp Hs. destruct e as [c md]. destruct s as [cs cp q ws nw].
  cbn in Hs. subst cp. specialize (Hp md).
  unfold tryPick, stays_queued, push, bind, gets, modify, emit, throw.
  cbn [fst snd currentPicker pickQueue].
  destruct (pickResultType (picker md)).
  - destruct (subchannel (picker md)); eexists; split; reflexivity.
  - eexists; split; reflexivity.
  - destruct (waitForReady md).
    + eexists; split; reflexivity.
    + destruct (status (picker md)) as [st|]; [|exfalso; apply Hp; reflexivity].
      eexists; split; reflexivity.
Qed.

Lemma drain_queue (picker : Picker) (copy : list (CallId * CallMetadata)) (s : t) :
  failures_have_status picker ->
  currentPicker s = picker ->
  exists evs,
    for_each copy (fun e => tryPick (fst e) (snd e)) s
    = (Ok tt,
       set_pickQueue (pickQueue s ++ filter (stays_queued picker) copy) s,
       evs)
    /\ dispatched evs
       = map fst (filter (fun e => negb (stays_queued picker e)) copy).
Proof.
  intros Hp. revert s. induction copy as [|e copy IH]; intros s Hs.
  - exists []. cbn. rewrite app_nil_r. destruct s. split; reflexivity.
  - cbn [for_each]. unfold bind.
    destruct (@tryPick_queue picker e s Hp Hs) as (e1 & -> & D1).
    destruct (stays_queued picker e) eqn:Eq.
    + destruct (IH (set_pickQueue (pickQueue s ++ [e]) s)) as (e2 & -> & D2).
      { destruct s; exact Hs. }
      exists (e1 ++ e2). cbn [filter negb]. rewrite Eq. cbn [negb].
      rewrite dispatched_app, D1, D2. split; [|reflexivity].
      destruct s. cbn. rewrite <- app_assoc. reflexivity.
    + destruct (IH s Hs) as (e2 & -> & D2).
      exists (e1 ++ e2). cbn [filter negb]. rewrite Eq. cbn [negb map].
      rewrite dispatched_app, D1, D2. split; reflexivity.
Qed.

Lemma remove_watcher_middle (w : Watcher) (kept rest : list Watcher) :
  ~ In (watcherId w) (map watcherId kept) ->
  remove_watcher (watcherId w) (kept ++ w :: rest) = kept ++ rest.
Proof.
  induction kept as [|x kept IH]; intros H; cbn [app remove_watcher].
  - rewrite Nat.eqb_refl. reflexivity.
  - destruct (Nat.eqb_spec (watcherId x) (watcherId w)) as [E|_].
    + exfalso. apply H. left. exact E.
    + rewrite IH; [reflexivity|]. intros K. apply H. right. exact K.
Qed.

Lemma notify_watchers (state : ConnectivityState) (copy kept : list Watcher) (s : t) :
  connectivityStateWatchers s = kept ++ copy ->
  NoDup (map watcherId (kept ++ copy)) ->
  for_each copy (notify state) s
  = (Ok tt,
     set_connectivityStateWatchers (kept ++ filter (watches state) copy) s,
     flat_map (notification state) copy).
Proof.
  revert kept s. induction copy as [|w copy IH]; intros kept s Hs Hn.
  - cbn. rewrite <- Hs. destruct s. reflexivity.
  - cbn [for_each flat_map filter]. unfold bind. rewrite notify_eq.
    unfold notification at 1.
    change (ConnectivityState_eqb state (watchedState w)) with (watches state w).
    destruct (watches state w) eqn:E; cbn [negb].
    + rewrite (IH (kept ++ [w]) s).
      * rewrite <- app_assoc. reflexivity.
      * rewrite <- app_assoc. exact Hs.
      * rewrite <- app_assoc. exact Hn.
    + assert (Hw : ~ In (watcherId w) (map watcherId kept)).
      { rewrite map_app in Hn. apply NoDup_remove_2 in Hn.
        intros K. apply Hn. apply in_or_app. left. exact K. }
      rewrite Hs, (remove_watcher_middle w kept copy Hw).
      rewrite (IH kept).
      * destruct s. reflexivity.
      * destruct s. reflexivity.
      * rewrite map_app in *. apply NoDup_remove_1 in Hn. exact Hn.
Qed.

Lemma updateState_notify (newState : ConnectivityState) (s : t) :
  updateState newState s
  = bind (modify (set_connectivityState newState))
      (fun _ => bind (gets connectivityStateWatchers)
         (fun copy => for_each copy (notify newState))) s.
Proof. reflexivity. Qed.

Lemma updateState_watchers (state : ConnectivityState) (s : t) :
  NoDup (map watcherId (connectivityStateWatchers s)) ->
  updateState state s
  = (Ok tt,
     set_connectivityStateWatchers
       (filter (watches state) (connectivityStateWatchers s))
       (set_connectivityState state s),
     flat_map (notification state) (connectivityStateWatchers s)).
Proof.
  intros Hn. rewrite updateState_notify. destruct s as [cs cp q ws nw].
  cbn [connectivityStateWatchers] in *.
  unfold bind, modify, gets, set_connectivityState.
  cbn [connectivityStateWatchers currentPicker pickQueue nextWatcher].
  rewrite (@notify_watchers state ws [] (mk state cp q ws nw) eq_refl Hn).
  reflexivity.
Qed.

Lemma filter_idem {A} (f : A -> bool) (l : list A) :
  filter f (filter f l) = filter f l.
Proof.
  induction l as [|x l IH]; [reflexivity|]. cbn [filter].
  destruct (f x) eqn:E; [cbn [filter]; rewrite E, IH|]; auto.
Qed.

Lemma notification_watching (state : ConnectivityState) (l : list Watcher) :
  flat_map (notification state) (filter (watches state) l) = [].
Proof.
  induction l as [|x l IH]; [reflexivity|]. cbn [filter].
  destruct (watches state x) eqn:E; [|exact IH].
  cbn [flat_map]. unfold notification at 1. rewrite E. exact IH.
Qed.

Lemma NoDup_filter_ids (f : Watcher -> bool) (l : list Watcher) :
  NoDup (map watcherId l) -> NoDup (map watcherId (filter f l)).
Proof.
  induction l as [|x l IH]; intros H; [constructor|].
  cbn [map] in H. inversion H as [|? ? Hx Hl]; subst. cbn [filter].
  destruct (f x); [|apply IH, Hl].
  cbn [map]. constructor; [|apply IH, Hl].
  intros K. apply Hx. apply in_map_iff in K. destruct K as (y & Ey & Hy).
  apply in_map_iff. exists y. split; [exact Ey|].
  apply filter_In in Hy. tauto.
Qed.

(** X29: with watchers that are distinct objects, a state update calls
    back, in order and once each, the watchers that wait for a change away
    from another state, clears their timers and forgets them; it keeps the
    watchers that wait for a change away from the new state, in order.  The
    same update once more calls no one. *)
Theorem X29_watchers_called_once (state : ConnectivityState) (s : t) :
  NoDup (map watcherId (connectivityStateWatchers s)) ->
  updateState state s
  = (Ok tt,
     set_connectivityStateWatchers
       (filter (watches state) (connectivityStateWatchers s))
       (set_connectivityState state s),
     flat_map (notification state) (connectivityStateWatchers s))
  /\ events_of (updateState state (state_of (updateState state s))) = [].
Proof.
  intros Hn. split; [apply updateState_watchers, Hn|].
  rewrite (@updateState_watchers state s Hn). unfold state_of. cbn [fst snd].
  rewrite updateState_watchers.
  - unfold events_of. cbn [snd]. destruct s. cbn. apply notification_watching.
  - destruct s. cbn. apply NoDup_filter_ids, Hn.
Qed.

Lemma invoked_app (a b : list Event) : invoked (a ++ b) = invoked a ++ invoked b.
Proof.
  induction a as [|e a IH]; [reflexivity|].
  destruct e; simpl; rewrite ?IH; reflexivity.
Qed.

Lemma invoked_notification (state : ConnectivityState) (l : list Watcher) :
  invoked (flat_map (notification state) l)
  = map callback (filter (fun w => negb (watches state w)) l).
Proof.
  induction l as [|x l IH]; [reflexivity|]. cbn [flat_map filter].
  rewrite invoked_app, IH. unfold notification.
  destruct (watches state x); reflexivity.
Qed.

Lemma same_id_same_watcher (l : list Watcher) (a b : Watcher) :
  NoDup (map watcherId l) -> In a l -> In b l -> watcherId a = watcherId b -> a = b.
Proof.
  induction l as [|x l IH]; intros Hn Ha Hb E; [contradiction|].
  cbn [map] in Hn. inversion Hn as [|? ? Hx Hl]; subst.
  destruct Ha as [->|Ha]; destruct Hb as [->|Hb]; auto.
  - exfalso. apply Hx. rewrite E. apply in_map, Hb.
  - exfalso. apply Hx. rewrite <- E. apply in_map, Ha.
Qed.

Lemma NoDup_ids_app (l a b : list Watcher) :
  NoDup (map watcherId l) ->
  incl a l -> incl b l ->
  NoDup (map watcherId a) -> NoDup (map watcherId b) ->
  (forall w, In w a -> ~ In w b) ->
  NoDup (map watcherId (a ++ b)).
Proof.
  intros Hl Ha Hb Na Nb Hd. induction a as [|x a IH]; [exact Nb|].
  cbn [app map]. cbn [map] in Na. inversion Na as [|? ? Hx Hn]; subst.
  constructor.
  - rewrite map_app. intros K. apply in_app_or in K. destruct K as [K|K].
    + exact (Hx K).
    + apply in_map_iff in K. destruct K as (y & Ey & Hy).
      assert (y = x).
      { apply (same_id_same_watcher l); auto.
        apply Ha. left. reflexivity. }
      subst y. apply (Hd x); [left; reflexivity|exact Hy].
  - apply IH; auto.
    + intros y Hy. apply Ha. right. exact Hy.
    + intros y Hy. apply Hd. right. exact Hy.
Qed.

(** X30: over any sequence of state updates, a watcher is called back at
    most once: the callbacks invoked are those of distinct watchers of the
    channel, each forgotten once called, and no watcher is added. *)
Theorem X30_watchers_called_at_most_once (news : list ConnectivityState) (s : t) :
  NoDup (map watcherId (connectivityStateWatchers s)) ->
  exists notified,
    invoked (events_of (for_each news updateState s)) = map callback notified
    /\ NoDup (map watcherId notified)
    /\ incl notified (connectivityStateWatchers s)
    /\ incl (connectivityStateWatchers (state_of (for_each news updateState s)))
            (connectivityStateWatchers s)
    /\ forall w,
         In w notified ->
         ~ In w (connectivityStateWatchers (state_of (for_each news updateState s))).
Proof.
  revert s. induction news as [|n news IH]; intros s Hn.
  - exists []. cbn. repeat split; [constructor|intros x []|apply incl_refl|auto].
  - cbn [for_each]. unfold bind. rewrite (@updateState_watchers n s Hn).
    set (ws := connectivityStateWatchers s) in *.
    set (s1 := set_connectivityStateWatchers (filter (watches n) ws)
                 (set_connectivityState n s)).
    assert (Hs1 : connectivityStateWatchers s1 = filter (watches n) ws).
    { subst s1. destruct s. reflexivity. }
    destruct (IH s1) as (notified & Hi & Hd & Hin & Hfin & Hgone).
    { rewrite Hs1. apply NoDup_filter_ids, Hn. }
    rewrite Hs1 in Hin, Hfin.
    destruct (for_each news updateState s1) as [[v s2] e2].
    unfold events_of, state_of in *. cbn [fst snd] in *.
    exists (filter (fun w => negb (watches n w)) ws ++ notified).
    rewrite invoked_app, invoked_notification, Hi, map_app.
    split; [reflexivity|]. split; [|split; [|split]].
    + apply (@NoDup_ids_app ws).
      * exact Hn.
      * intros x Hx. apply filter_In in Hx. tauto.
      * intros x Hx. apply Hin in Hx. apply filter_In in Hx. tauto.
      * apply NoDup_filter_ids, Hn.
      * exact Hd.
      * intros x Hx Hx'. apply filter_In in Hx. apply Hin in Hx'.
        apply filter_In in Hx'. destruct Hx as [_ Hx]. destruct Hx' as [_ Hx'].
        rewrite Hx' in Hx. discriminate.
    + intros x Hx. apply in_app_or in Hx. destruct Hx as [Hx|Hx].
      * apply filter_In in Hx. tauto.
      * apply Hin in Hx. apply filter_In in Hx. tauto.
    + intros x Hx. apply Hfin in Hx. apply filter_In in Hx. tauto.
    + intros x Hx Hx'. apply in_app_or in Hx. destruct Hx as [Hx|Hx].
      * apply filter_In in Hx. apply Hfin in Hx'. apply filter_In in Hx'.
        destruct Hx as [_ Hx]. destruct Hx' as [_ Hx'].
        rewrite Hx' in Hx. discriminate.
      * exact (Hgone x Hx Hx').
Qed.

Lemma dispatched_notification (state : ConnectivityState) (l : list Watcher) :
  dispatched (flat_map (notification state) l) = [].
Proof.
  induction l as [|x l IH]; [reflexivity|]. cbn [flat_map].
  rewrite dispatched_app, IH. unfold notification.
  destruct (watches state x); reflexivity.
Qed.

Lemma notify_keeps_queue (state : ConnectivityState) (copy : list Watcher) (s : t) :
  value_of (for_each copy (notify state) s) = Ok tt
  /\ pickQueue (state_of (for_each copy (notify state) s)) = pickQueue s
  /\ currentPicker (state_of (for_each copy (notify state) s)) = currentPicker s
  /\ connectivityState (state_of (for_each copy (notify state) s))
     = connectivityState s
  /\ dispatched (events_of (for_each copy (notify state) s)) = [].
Proof.
  revert s. induction copy as [|w copy IH]; intros s.
  - cbn. auto.
  - cbn [for_each]. unfold bind. rewrite notify_eq.
    destruct (negb (ConnectivityState_eqb state (watchedState w))).
    + specialize (IH (set_connectivityStateWatchers
                        (remove_watcher (watcherId w) (connectivityStateWatchers s))
                        s)).
      destruct (for_each copy (notify state) _) as [[v s2] e2].
      unfold value_of, state_of, events_of in *. cbn [fst snd app dispatched] in *.
      destruct s. exact IH.
    + specialize (IH s).
      destruct (for_each copy (notify state) s) as [[v s2] e2].
      unfold value_of, state_of, events_of in *. cbn [fst snd app] in *.
      exact IH.
Qed.

(** X28: when the load balancer hands over a new state and picker, with
    a picker whose failures carry a status, every queued call is picked
    again once, in queue order: the calls the new picker queues, or fails
    while they wait for ready, make up the new queue, in order; each other
    call is cancelled or sent on to the filters; the picker and the state
    are the new ones. *)
Theorem X28_pick_queue_drained (state : ConnectivityState) (picker : Picker) (s : t) :
  failures_have_status picker ->
  value_of (helperUpdateState state picker s) = Ok tt
  /\ pickQueue (state_of (helperUpdateState state picker s))
     = filter (stays_queued picker) (pickQueue s)
  /\ dispatched (events_of (helperUpdateState state picker s))
     = map fst (filter (fun e => negb (stays_queued picker e)) (pickQueue s))
  /\ currentPicker (state_of (helperUpdateState state picker s)) = picker
  /\ connectivityState (state_of (helperUpdateState state picker s)) = state.
Proof.
  intros Hp. destruct s as [cs cp q ws nw].
  unfold helperUpdateState, bind, modify, gets, set_currentPicker, set_pickQueue.
  cbn [connectivityState currentPicker pickQueue connectivityStateWatchers
       nextWatcher].
  destruct (@drain_queue picker q (mk cs picker [] ws nw) Hp eq_refl)
    as (e1 & -> & D1).
  cbn [pickQueue app set_pickQueue connectivityState currentPicker
       connectivityStateWatchers nextWatcher].
  rewrite updateState_notify.
  unfold bind, modify, gets, set_connectivityState, set_pickQueue.
  cbn [connectivityState currentPicker pickQueue connectivityStateWatchers
       nextWatcher app].
  match goal with
  | |- context [for_each ws (notify state) ?s1] =>
      destruct (notify_keeps_queue state ws s1) as (Hv & Hq & Hc & Hs & Hd);
      destruct (for_each ws (notify state) s1) as [[v s2] e2]
  end.
  unfold value_of, state_of, events_of in *. cbn [fst snd app] in *.
  rewrite !dispatched_app, Hd, D1, app_nil_r. auto.
Qed.

Lemma X28_pick_queue_drained_witness :
  value_of (helperUpdateState TRANSIENT_FAILURE failing_picker queueing_channel) = Ok tt
  /\ pickQueue (state_of (helperUpdateState TRANSIENT_FAILURE failing_picker
                            queueing_channel))
     = filter (stays_queued failing_picker) (pickQueue queueing_channel)
  /\ dispatched (events_of (helperUpdateState TRANSIENT_FAILURE failing_picker
                              queueing_channel))
     = map fst (filter (fun e => negb (stays_queued failing_picker e))
                       (pickQueue queueing_channel))
  /\ currentPicker (state_of (helperUpdateState TRANSIENT_FAILURE failing_picker
                                queueing_channel)) = failing_picker
  /\ connectivityState (state_of (helperUpdateState TRANSIENT_FAILURE failing_picker
                                    queueing_channel)) = TRANSIENT_FAILURE.
Proof.
  apply (@X28_pick_queue_drained TRANSIENT_FAILURE failing_picker queueing_channel).
  intros md _. discriminate.
Defined.

Lemma X29_watchers_called_once_witness :
  updateState READY watched_channel
  = (Ok tt,
     set_connectivityStateWatchers
       (filter (watches READY) (connectivityStateWatchers watched_channel))
       (set_connectivityState READY watched_channel),
     flat_map (notification READY) (connectivityStateWatchers watched_channel))
  /\ events_of (updateState READY (state_of (updateState READY watched_channel))) = [].
Proof.
  apply (@X29_watchers_called_once READY watched_channel).
  constructor; [intros []|constructor].
Defined.

Lemma X30_watchers_called_at_most_once_witness :
  exists notified,
    invoked (events_of (for_each [READY; IDLE; READY] updateState watched_channel))
    = map callback notified
    /\ NoDup (map watcherId notified)
    /\ incl notified (connectivityStateWatchers watched_channel)
    /\ incl (connectivityStateWatchers
               (state_of (for_each [READY; IDLE; READY] updateState watched_channel)))
            (connectivityStateWatchers watched_channel)
    /\ forall w,
         In w notified ->
         ~ In w (connectivityStateWatchers
                   (state_of (for_each [READY; IDLE; READY] updateState
                                       watched_channel))).
Proof.
  apply (@X30_watchers_called_at_most_once [READY; IDLE; READY] watched_channel).
  constructor; [intros []|constructor].
Defined.

End ChannelFacts.
